(** * Placeholder substitution in a rich-text tree

    A shallow embedding of the substitution engine of
    [make_agreem_dir_Gemini.py] ([_replace_in_paragraph],
    [_replace_in_block], [replace_placeholders]) over the document
    objects of python-docx, as the program uses them, and of the
    functions that read the fields of the letter and build its
    placeholders ([max_date_us], [ua_date], [with_thin_space_groups],
    [find_amount], [process_file]); and the properties of them that the
    specification states, with some more. *)

From Stdlib Require Import ZArith Ascii String Lia DecimalN.
From stdpp Require Import base list numbers.

Open Scope Z_scope.
Open Scope list_scope.

(** ** Python strings *)

(** A Python [str] is a sequence of characters. *)
Abbreviation str := (list ascii).

(** String literals of the examples. *)
Definition chars (s : string) : str := list_ascii_of_string s.
Arguments chars s%_string.

(** [len(s)] *)
Definition len (s : str) : Z := Z.of_nat (length s).

(** [s.startswith(key)], the test [find] makes at each offset. *)
Fixpoint startswith (s key : str) {struct key} : bool :=
  match key with
  | [] => true
  | k :: key' =>
      match s with
      | [] => false
      | c :: s' => if Ascii.eqb c k then startswith s' key' else false
      end
  end.

(** [s.find(key)]: the lowest offset at which [key] occurs in [s],
    [-1] when it occurs nowhere. *)
Fixpoint find (s key : str) : Z :=
  if startswith s key then 0
  else match s with
       | [] => -1
       | _ :: s' => let r := find s' key in if r =? -1 then -1 else r + 1
       end.

(** The position a slice bound [i] denotes in a string of [n]
    characters: a negative bound counts from the end, and bounds
    outside the string are clipped. *)
Definition slice_bound (n : nat) (i : Z) : nat :=
  if i <? 0 then Z.to_nat (i + Z.of_nat n) else Z.to_nat i.

(** [s[:i]] *)
Definition slice_to (s : str) (i : Z) : str := take (slice_bound (length s) i) s.

(** [s[i:]] *)
Definition slice_from (s : str) (i : Z) : str := drop (slice_bound (length s) i) s.

(** ** The document tree *)

(** The formatting payload of a run ([w:rPr] and the like): opaque to
    the substitution engine. *)
Definition Formatting := string.

(** A run of the XML tree of a paragraph: a span of text with one
    formatting. *)
Record Run := mkRun { text : str; rPr : Formatting }.

(** A paragraph is the sequence of its runs; a run is named by its
    position in that sequence. *)
Abbreviation Paragraph := (list Run).

(** A [Run] object of python-docx.  The runs live in the XML tree of
    the paragraph, and [paragraph.runs] makes a new list of new [Run]
    objects, one for each run, every time it is read: an object is told
    by the reading that made it, named here by the line of the source
    that reads [paragraph.runs], and by the position of its run.  Its
    [text] reads and writes the run of the tree. *)
Record RunObject := mkRunObject { made_at : nat; position : nat }.

(** The two readings of [paragraph.runs] whose objects are compared. *)
Definition line_110 : nat := 110.
Definition line_124 : nat := 124.

(** [r is r']: the same object, made by the same reading for the same
    run.  Two objects made by different readings are not the same
    object, even for the same run. *)
Definition same_run (r r' : RunObject) : bool :=
  Nat.eqb (made_at r) (made_at r') && Nat.eqb (position r) (position r').

(** A block is anything with [paragraphs] and [tables]: a document
    body, a table cell, a header, a footer.  A table is the list of its
    rows, a row the list of its cells, and a cell is a block.  (A
    merged cell is listed here once; [row.cells] lists it once for
    every cell of the grid that it covers, and the walk then goes
    through it again, which changes nothing, as it changes nothing in a
    header that several sections show: see [replace_in_block_settled].) *)
#[warnings="-register-all"]
Inductive Block :=
  mkBlock { paragraphs : list Paragraph; tables : list (list (list Block)) }.

Abbreviation Row := (list Block).
Abbreviation Table := (list (list Block)).

(** Induction on a block, with the property at hand for every cell of
    every row of every table of the block. *)
Fixpoint Block_nested_ind (P : Block -> Prop)
    (step : forall ps ts, Forall (Forall (Forall P)) ts -> P (mkBlock ps ts))
    (block : Block) : P block :=
  match block with
  | mkBlock ps ts =>
      step ps ts
        ((fix tables_ind (ts : list Table) : Forall (Forall (Forall P)) ts :=
            match ts with
            | [] => @Forall_nil _ _
            | t :: ts' =>
                @Forall_cons _ _ _ _
                  ((fix rows_ind (t : Table) : Forall (Forall P) t :=
                      match t with
                      | [] => @Forall_nil _ _
                      | r :: t' =>
                          @Forall_cons _ _ _ _
                            ((fix cells_ind (r : Row) : Forall P r :=
                                match r with
                                | [] => @Forall_nil _ _
                                | c :: r' =>
                                    @Forall_cons _ _ _ _ (Block_nested_ind P step c)
                                      (cells_ind r')
                                end) r)
                            (rows_ind t')
                      end) t)
                  (tables_ind ts')
            end) ts)
  end.

(** A section with the header and the footer that it defines.  A
    section that defines none ([None]) shows the one of the section
    before it. *)
Record Section_ := mkSection { header : option Block; footer : option Block }.

(** A document: its body and its sections. *)
Record DocumentObject := mkDocument { body : Block; sections : list Section_ }.

(** [placeholders]: a [dict], iterated in insertion order by
    [placeholders.items()]. *)
Abbreviation Placeholders := (list (str * str)).

(** ** [_replace_in_paragraph] *)

(** ["".join(run.text for run in paragraph.runs)] *)
Definition full_text (paragraph : Paragraph) : str :=
  concat (map text paragraph).

(** A run with its text replaced by [s]; its formatting stays. *)
Definition with_text (s : str) (run : Run) : Run := mkRun s (rPr run).

Definition CR : ascii := "013"%char.
Definition LF : ascii := "010"%char.

(** What [run.text] reads after [run.text = s].  The setter of
    python-docx writes a carriage return as a line break, as it does a
    line feed, and a line break reads as a line feed; every other
    character reads as it was written.  (A character that XML does not
    allow makes the setter raise; the texts here are taken to have
    none.) *)
Definition stored (s : str) : str :=
  map (fun c => if Ascii.eqb c CR then LF else c) s.

(** [r.text = s] for the run at position [r]. *)
Definition set_text (r : nat) (s : str) (runs : Paragraph) : Paragraph :=
  alter (with_text (stored s)) r runs.

(** [r.text] for the run at position [r]. *)
Definition get_text (r : nat) (runs : Paragraph) : str :=
  match runs !! r with
  | Some run => text run
  | None => []
  end.

(** Lines 109-114: the objects of the runs that overlap
    [start_index, end_index), made by the reading of line 110; [idx] is
    the position of the head of [runs] in the paragraph and
    [current_pos] its offset in the text. *)
Fixpoint runs_to_modify (runs : Paragraph) (idx : nat)
    (current_pos start_index end_index : Z) : list RunObject :=
  match runs with
  | [] => []
  | run :: rest =>
      let run_len := len (text run) in
      (if (start_index <? current_pos + run_len) && (current_pos <? end_index)
       then [mkRunObject line_110 idx] else [])
      ++ runs_to_modify rest (S idx) (current_pos + run_len) start_index end_index
  end.

(** Lines 122-131, over the objects that the reading of line 124
    makes: the text of [first_run] before the occurrence and the text
    of [last_run] after it, when the loop meets these objects; it stops
    at [last_run]. *)
Fixpoint prefix_suffix (runs : Paragraph) (idx : nat) (current_pos : Z)
    (first_run last_run : RunObject) (start_index end_index : Z)
    (prefix suffix : str) : str * str :=
  match runs with
  | [] => (prefix, suffix)
  | run_in_tree :: rest =>
      let run := mkRunObject line_124 idx in
      let run_len := len (text run_in_tree) in
      let prefix :=
        if same_run run first_run
        then slice_to (text run_in_tree) (start_index - current_pos) else prefix in
      if same_run run last_run
      then (prefix, slice_from (text run_in_tree) (end_index - current_pos))
      else prefix_suffix rest (S idx) (current_pos + run_len)
             first_run last_run start_index end_index prefix suffix
  end.

(** Lines 107-140 for one key found at [start_index]: [None] when no
    run overlaps the occurrence (the [continue] of line 117), the
    rewritten runs otherwise. *)
Definition replace_span (runs : Paragraph) (start_index end_index : Z)
    (value : str) : option Paragraph :=
  match runs_to_modify runs 0 0 start_index end_index with
  | [] => None
  | first_run :: others =>
      let last_run := List.last others first_run in
      let '(prefix, suffix) :=
        prefix_suffix runs 0 0 first_run last_run start_index end_index [] [] in
      let runs1 := set_text (position first_run) (prefix ++ value) runs in
      let runs2 :=
        fold_left (fun rs r => set_text (position r) [] rs) others runs1 in
      Some (if same_run first_run last_run
            then set_text (position first_run)
                   (get_text (position first_run) runs2 ++ suffix) runs2
            else set_text (position last_run) suffix runs2)
  end.

(** Lines 102-143: the [for] loop over the items of [placeholders].
    [Some runs'] when a key was replaced ([replaced = True], [break]),
    [None] when the loop ran to its end. *)
Fixpoint replace_first_key (items : Placeholders) (runs : Paragraph)
    (full_text : str) : option Paragraph :=
  match items with
  | [] => None
  | (key, value) :: items' =>
      let start_index := find full_text key in
      if start_index =? -1 then replace_first_key items' runs full_text
      else
        let end_index := start_index + len key in
        match replace_span runs start_index end_index value with
        | Some runs' => Some runs'
        | None => replace_first_key items' runs full_text
        end
  end.

(** Lines 99-143: one pass of the [while] loop (the spec's
    [replaceOnce]). *)
Definition replace_once (placeholders : Placeholders) (paragraph : Paragraph)
    : option Paragraph :=
  replace_first_key placeholders paragraph (full_text paragraph).

(** Lines 98-146: the [while True] loop.  It need not terminate, so
    the model takes the number of passes it may make; [None] means
    that the loop was still running after [fuel] passes. *)
Fixpoint _replace_in_paragraph (fuel : nat) (placeholders : Placeholders)
    (paragraph : Paragraph) : option Paragraph :=
  match fuel with
  | O => None
  | S fuel' =>
      match replace_once placeholders paragraph with
      | Some paragraph' => _replace_in_paragraph fuel' placeholders paragraph'
      | None => Some paragraph
      end
  end.

(** ** [_replace_in_block] and [replace_placeholders] *)

(** A [for] loop whose body may fail to return. *)
Definition for_each {A} (f : A -> option A) : list A -> option (list A) :=
  fix go l :=
    match l with
    | [] => Some []
    | x :: l' =>
        match f x with
        | None => None
        | Some y =>
            match go l' with
            | None => None
            | Some l'' => Some (y :: l'')
            end
        end
    end.

(** Lines 148-154.  [fuel] bounds the passes made at each paragraph. *)
Fixpoint _replace_in_block (fuel : nat) (placeholders : Placeholders)
    (block : Block) : option Block :=
  match for_each (_replace_in_paragraph fuel placeholders) (paragraphs block) with
  | None => None
  | Some ps =>
      match for_each (for_each (for_each (_replace_in_block fuel placeholders)))
              (tables block) with
      | None => None
      | Some ts => Some (mkBlock ps ts)
      end
  end.

(** [section.header] or [section.footer]. *)
Inductive HeaderFooter := Header | Footer.

Definition definition (hf : HeaderFooter) (section : Section_) : option Block :=
  match hf with
  | Header => header section
  | Footer => footer section
  end.

Definition with_definition (hf : HeaderFooter) (block : Block)
    (section : Section_) : Section_ :=
  match hf with
  | Header => mkSection (Some block) (footer section)
  | Footer => mkSection (header section) (Some block)
  end.

(** The header or footer that python-docx adds to a section: one
    paragraph without runs. *)
Definition default_block : Block := mkBlock [[]] [].

(** The section whose header (or footer) the section at position [i]
    shows: itself when it defines one, else what the section before it
    shows, and the first section when none up to [i] defines one. *)
Fixpoint defining_section (hf : HeaderFooter) (sections : list Section_)
    (i : nat) : nat :=
  match sections !! i ≫= definition hf with
  | Some _ => i
  | None =>
      match i with
      | O => O
      | S i' => defining_section hf sections i'
      end
  end.

(** Reading the paragraphs and the tables of [section.header] (or
    [section.footer]) for the section at position [i]: python-docx goes
    to the defining section, and when that one defines none either (it
    is then the first section) adds the default one to it.  The answer
    is the sections as the reading leaves them, the position of the
    defining section and its block. *)
Definition get_or_add_definition (hf : HeaderFooter) (sections : list Section_)
    (i : nat) : list Section_ * nat * Block :=
  let j := defining_section hf sections i in
  match sections !! j ≫= definition hf with
  | Some block => (sections, j, block)
  | None => (alter (with_definition hf default_block) j sections, j, default_block)
  end.

(** Line 159 or line 160 for the section at position [i]: the block is
    the one of the defining section, and is rewritten in place. *)
Definition replace_in_header_footer (fuel : nat) (placeholders : Placeholders)
    (hf : HeaderFooter) (sections : list Section_) (i : nat)
    : option (list Section_) :=
  let '(sections1, j, block) := get_or_add_definition hf sections i in
  match _replace_in_block fuel placeholders block with
  | None => None
  | Some block' => Some (alter (with_definition hf block') j sections1)
  end.

(** Lines 158-160: the loop over [doc.sections], by position. *)
Fixpoint replace_in_sections (fuel : nat) (placeholders : Placeholders)
    (positions : list nat) (sections : list Section_)
    : option (list Section_) :=
  match positions with
  | [] => Some sections
  | i :: positions' =>
      match replace_in_header_footer fuel placeholders Header sections i with
      | None => None
      | Some sections1 =>
          match replace_in_header_footer fuel placeholders Footer sections1 i with
          | None => None
          | Some sections2 =>
              replace_in_sections fuel placeholders positions' sections2
          end
      end
  end.

(** Lines 156-160. *)
Definition replace_placeholders (fuel : nat) (placeholders : Placeholders)
    (doc : DocumentObject) : option DocumentObject :=
  match _replace_in_block fuel placeholders (body doc) with
  | None => None
  | Some b =>
      match replace_in_sections fuel placeholders
              (seq 0 (length (sections doc))) (sections doc) with
      | None => None
      | Some ss => Some (mkDocument b ss)
      end
  end.

(** ** Notions used to state the properties *)

(** The offset of the run at position [i] in the text of the
    paragraph: the value of [current_pos] when the loops of lines 110
    and 124 reach that run. *)
Definition run_offset (runs : Paragraph) (i : nat) : Z :=
  len (full_text (take i runs)).

(** An occurrence lies inside one run, or starts in a run [F], covers
    the runs [M] and ends in a run [L]. *)
Inductive span_shape (runs : Paragraph) (s e : Z) : Prop :=
| span_single B F A :
    runs = B ++ F :: A ->
    len (full_text B) <= s -> e <= len (full_text B) + len (text F) ->
    span_shape runs s e
| span_multi B F M L A :
    runs = B ++ F :: M ++ L :: A ->
    len (full_text B) <= s < len (full_text B) + len (text F) ->
    len (full_text B) + len (text F) + len (full_text M) < e
      <= len (full_text B) + len (text F) + len (full_text M) + len (text L) ->
    span_shape runs s e.

(** What lines 133-140 make of the runs collected for an occurrence:
    the first reads as the value, the others are empty. *)
Definition overwritten (value : str) (affected : Paragraph) : Paragraph :=
  match affected with
  | [] => []
  | first_run :: others =>
      with_text (stored value) first_run :: map (with_text []) others
  end.

(** A key that a pass of the loop passes over: it is empty, or it
    occurs nowhere in the text. *)
Definition passed_over (s : str) (item : str * str) : Prop :=
  item.1 = [] \/ find s item.1 = -1.

(** [n] passes of the [while] loop that each replace a key: [None] when
    one of them finds nothing to replace. *)
Fixpoint passes (n : nat) (placeholders : Placeholders) (paragraph : Paragraph)
    : option Paragraph :=
  match n with
  | O => Some paragraph
  | S n' =>
      match replace_once placeholders paragraph with
      | Some paragraph' => passes n' placeholders paragraph'
      | None => None
      end
  end.

(** The selection that the specification describes in its step 2:
    among the first occurrences of the keys, the one with the smallest
    offset, and at equal offsets the one of the earlier key. *)
Fixpoint leftmost_occurrence (items : Placeholders) (s : str)
    : option (Z * str * str) :=
  match items with
  | [] => None
  | (key, value) :: items' =>
      let i := find s key in
      match leftmost_occurrence items' s with
      | None => if i =? -1 then None else Some (i, key, value)
      | Some (j, key', value') =>
          if i =? -1 then Some (j, key', value')
          else if i <=? j then Some (i, key, value) else Some (j, key', value')
      end
  end.

(** The first item, in the order of the map, whose key occurs in [s]
    at all. *)
Fixpoint first_key_occurring (items : Placeholders) (s : str)
    : option (str * str) :=
  match items with
  | [] => None
  | (key, value) :: items' =>
      if find s key =? -1 then first_key_occurring items' s else Some (key, value)
  end.

(** A paragraph in whose text no key of the map occurs, the empty key
    apart (it occurs in every text). *)
Definition clean (placeholders : Placeholders) (paragraph : Paragraph) : Prop :=
  forall key value,
    (key, value) ∈ placeholders -> key <> [] -> find (full_text paragraph) key = -1.

(** The paragraphs reachable from a block: its own, and those of the
    cells of the rows of its tables, to any depth. *)
Fixpoint block_paragraphs (block : Block) : list Paragraph :=
  paragraphs block
  ++ concat (map (fun table : Table =>
                    concat (map (fun row : Row => concat (map block_paragraphs row))
                              table))
               (tables block)).

(** The paragraphs of the header and of the footer that a section
    defines. *)
Definition section_paragraphs (section : Section_) : list Paragraph :=
  from_option block_paragraphs [] (header section)
  ++ from_option block_paragraphs [] (footer section).

(** The sections once the header and the footer of the first one have
    been read: it defines both, the default ones where it had none. *)
Definition add_missing (section : Section_) : Section_ :=
  mkSection (Some (default default_block (header section)))
            (Some (default default_block (footer section))).

Definition with_defaults (sections : list Section_) : list Section_ :=
  match sections with
  | [] => []
  | first :: others => add_missing first :: others
  end.

(** The document as reading the header and the footer of its sections
    leaves it, before any text is replaced. *)
Definition as_read (doc : DocumentObject) : DocumentObject :=
  mkDocument (body doc) (with_defaults (sections doc)).

(** The paragraphs that [replace_placeholders] reaches: those of the
    body and those of the header and the footer that each section
    defines, the first section having both when they are read. *)
Definition document_paragraphs (doc : DocumentObject) : list Paragraph :=
  block_paragraphs (body doc)
  ++ concat (map section_paragraphs (with_defaults (sections doc))).

(** Line 159 or 160 on what a section defines itself: nothing to do
    when it defines none. *)
Definition replace_in_definition (fuel : nat) (placeholders : Placeholders)
    (d : option Block) : option (option Block) :=
  match d with
  | None => Some None
  | Some block => option_map Some (_replace_in_block fuel placeholders block)
  end.

(** Lines 159-160 on the header and the footer that a section
    defines itself. *)
Definition replace_in_own (fuel : nat) (placeholders : Placeholders)
    (section : Section_) : option Section_ :=
  match replace_in_definition fuel placeholders (header section) with
  | None => None
  | Some h =>
      match replace_in_definition fuel placeholders (footer section) with
      | None => None
      | Some f => Some (mkSection h f)
      end
  end.

(** A section with its header (or footer) set to [d]. *)
Definition set_definition (hf : HeaderFooter) (d : option Block)
    (section : Section_) : Section_ :=
  match hf with
  | Header => mkSection d (footer section)
  | Footer => mkSection (header section) d
  end.

(** A block with the text of every run erased: what is left is the
    structure of blocks, tables, rows and cells, and the runs of each
    paragraph, in order, with their formatting. *)
Fixpoint blank_block (block : Block) : Block :=
  mkBlock (map (map (with_text [])) (paragraphs block))
          (map (map (map blank_block)) (tables block)).

Definition blank_section (section : Section_) : Section_ :=
  mkSection (option_map blank_block (header section))
            (option_map blank_block (footer section)).

Definition blank_document (doc : DocumentObject) : DocumentObject :=
  mkDocument (blank_block (body doc)) (map blank_section (sections doc)).

(** The number of characters of [s] that [marker] holds of. *)
Definition markers (marker : ascii -> bool) (s : str) : nat :=
  length (List.filter marker s).

(** A discipline on the map that makes every loop terminate: some kind
    of character occurs in every key that is not empty and in no
    value as the document stores it. *)
Definition disciplined (marker : ascii -> bool) (placeholders : Placeholders)
    : Prop :=
  Forall (fun item : str * str =>
            (item.1 = [] \/ (0 < markers marker item.1)%nat) /\
            markers marker (stored item.2) = 0%nat)
    placeholders.

(** The opening brace, the marker of the keys of [process_file]. *)
Definition is_brace (c : ascii) : bool := Ascii.eqb c "{".

(** A text without the opening brace. *)
Definition brace_free (s : str) : Prop := markers is_brace s = 0%nat.

(** The token [{{a}}] for a name [a] of one character. *)
Definition token (a : ascii) : str := chars "{{" ++ [a] ++ chars "}}".

(** The loop makes exactly two passes that replace, and the third
    finds nothing: it returns, and does so when it is allowed three
    passes or more, not fewer. *)
Definition two_replacements (placeholders : Placeholders) (paragraph : Paragraph)
    : Prop :=
  exists paragraph2,
    passes 2 placeholders paragraph = Some paragraph2 /\
    replace_once placeholders paragraph2 = None /\
    forall fuel,
      _replace_in_paragraph fuel placeholders paragraph
      = if (2 <? fuel)%nat then Some paragraph2 else None.

(** The offsets at which [key] occurs in [s], [i] being the offset of
    the head of [s]. *)
Fixpoint occurrences (s key : str) (i : nat) : list nat :=
  (if startswith s key then [i] else [])
  ++ match s with
     | [] => []
     | _ :: s' => occurrences s' key (S i)
     end.

(** No value, as the document stores it, contains a key that is not
    empty. *)
Definition values_without_keys (placeholders : Placeholders) : Prop :=
  forall key value key' value',
    (key, value) ∈ placeholders -> (key', value') ∈ placeholders ->
    key <> [] -> find (stored value') key = -1.

(** A key of the map that is not empty occurs in [s]. *)
Definition holds_a_key (placeholders : Placeholders) (s : str) : bool :=
  existsb (fun item : str * str =>
             negb (Nat.eqb (length item.1) 0) && negb (find s item.1 =? -1))
    placeholders.

(** The weight of a run: one when it has text, and one more when its
    text holds a key; and the weight of a paragraph. *)
Definition weight (placeholders : Placeholders) (run : Run) : nat :=
  ((if Nat.eqb (length (text run)) 0 then 0 else 1)
   + (if holds_a_key placeholders (text run) then 1 else 0))%nat.

Definition paragraph_weight (placeholders : Placeholders) (paragraph : Paragraph)
    : nat :=
  sum_list (map (weight placeholders) paragraph).

(** ** Examples *)

Definition run_of (s : string) : Run := mkRun (chars s) EmptyString.
Arguments run_of s%_string.

(** A run without text. *)
Definition empty_run : Run := mkRun [] EmptyString.

Definition token_A : str := chars "{{A}}".
Definition token_B : str := chars "{{B}}".

(** [{{B}}] comes first in the text and [{{A}}] first in the map. *)
Definition two_keys : Placeholders :=
  [(token_A, chars "x"); (token_B, chars "y")].
Definition b_before_a : Paragraph := [run_of "{{B}}"; run_of " "; run_of "{{A}}"].

(** A map whose first key is the empty string. *)
Definition empty_key_first : Placeholders := [([], chars "x"); (token_A, chars "y")].
Definition only_token_A : Paragraph := [run_of "{{A}}"].

(** The nested tree of the spec's [Recursive reach]: a table in a cell
    of a table of the body, with a token in the innermost cell, and a
    token in the header and in the footer of the one section. *)
Definition inner_cell : Block := mkBlock [[run_of "No {{"; run_of "A}}"]] [].
Definition outer_cell : Block := mkBlock [[run_of "cell"]] [[[inner_cell]]].
Definition nested_body : Block := mkBlock [[run_of "Dear Sir"]] [[[outer_cell]]].
Definition nested_document : DocumentObject :=
  mkDocument nested_body
    [mkSection (Some (mkBlock [[run_of "{{B}} head"]] []))
               (Some (mkBlock [[run_of "foot {{A}}{{B}}"]] []))].

(** A document of one paragraph. *)
Definition one_paragraph (paragraph : Paragraph) : DocumentObject :=
  mkDocument (mkBlock [paragraph] []) [].

(** A document whose one section defines neither header nor footer. *)
Definition no_header_no_footer : DocumentObject :=
  mkDocument (mkBlock [[run_of "Dear Sir"]] []) [mkSection None None].

(** The paragraph of the spec's [Cross-fragment span]. *)
Definition hello_name : Paragraph :=
  [run_of "Hello {{"; run_of "NAME"; run_of "}} world"].

(** Each token once, and a value that is one brace. *)
Definition brace_value : Placeholders :=
  [(token_A, chars "{"); (token_B, chars "y")].
Definition brace_completes : Paragraph :=
  [run_of "{{B}}"; run_of " "; run_of "{"; run_of "{{A}}"; run_of "B}}"].

(** Two tokens in three runs, the first token across two of them. *)
Definition dear_A_and_B : Paragraph :=
  [run_of "Dear {"; run_of "{A}} and "; run_of "{{B}}!"].

(** The two tokens in one run. *)
Definition both_in_one_run : Paragraph := [run_of "Dear {{A}} and {{B}}!"].

(** The value of the first key contains both keys. *)
Definition growing : Placeholders :=
  [(chars "a", chars "ab"); (chars "b", chars "c")].

(** The value of the first key is the second key. *)
Definition chain : Placeholders :=
  [(token_A, token_B); (token_B, chars "x")].

(** A line feed for a key and a carriage return for its value. *)
Definition line_feed_key : Placeholders := [([LF], [CR])].

Example cross_fragment :
  option_map (map text)
    (replace_once [(chars "{{NAME}}", chars "Ann")] hello_name)
  = Some [chars "Ann"; []; []].
Proof. reflexivity. Qed.

(** ** Integers as text *)

(** The characters of a decimal number, the first digit first. *)
Fixpoint uint_chars (d : Decimal.uint) : str :=
  match d with
  | Decimal.Nil => []
  | Decimal.D0 d => "0"%char :: uint_chars d
  | Decimal.D1 d => "1"%char :: uint_chars d
  | Decimal.D2 d => "2"%char :: uint_chars d
  | Decimal.D3 d => "3"%char :: uint_chars d
  | Decimal.D4 d => "4"%char :: uint_chars d
  | Decimal.D5 d => "5"%char :: uint_chars d
  | Decimal.D6 d => "6"%char :: uint_chars d
  | Decimal.D7 d => "7"%char :: uint_chars d
  | Decimal.D8 d => "8"%char :: uint_chars d
  | Decimal.D9 d => "9"%char :: uint_chars d
  end.

(** The decimal digits of a natural number, [0] for zero. *)
Definition digits (n : N) : str := uint_chars (N.to_uint n).

(** [f"{n:d}"] and [str(n)] for an integer [n]. *)
Definition format_d (n : Z) : str :=
  (if n <? 0 then ["-"%char] else []) ++ digits (Z.abs_N n).

(** [f"{n:02d}"]: zeros between the sign and the digits, up to a width
    of two characters. *)
Definition format_02d (n : Z) : str :=
  let sign := if n <? 0 then ["-"%char] else [] in
  sign ++ repeat "0"%char (2 - length sign - length (digits (Z.abs_N n)))
  ++ digits (Z.abs_N n).

(** ** Dates *)

(** A [datetime.date]. *)
Record date := mkDate { year : Z; month : Z; day : Z }.

Definition is_leap (y : Z) : bool :=
  (y mod 4 =? 0) && (negb (y mod 100 =? 0) || (y mod 400 =? 0)).

Definition days_in_month (y m : Z) : Z :=
  if m =? 2 then (if is_leap y then 29 else 28)
  else if (m =? 4) || (m =? 6) || (m =? 9) || (m =? 11) then 30 else 31.

(** [datetime.date(y, m, d)]: [None] stands for the [ValueError] that
    the constructor raises for a year outside 1..9999, a month outside
    1..12 or a day that the month does not have. *)
Definition date_new (y m d : Z) : option date :=
  if (1 <=? y) && (y <=? 9999) && (1 <=? m) && (m <=? 12)
     && (1 <=? d) && (d <=? days_in_month y m)
  then Some (mkDate y m d) else None.

(** [a > b] on dates: the later date is the greater. *)
Definition date_gt (a b : date) : bool :=
  (year b <? year a)
  || ((year a =? year b)
      && ((month b <? month a)
          || ((month a =? month b) && (day b <? day a)))).

(** [max(dates)] for a list [first :: rest]: the first of the greatest
    elements. *)
Definition max_date (first : date) (rest : list date) : date :=
  fold_left (fun best d => if date_gt d best then d else best) rest first.

(** Lines 79-87.  [matches] stands for [DATE_US_PATTERN.finditer]: for
    each match in the text, in order, the integers [mm, dd, yyyy] that
    line 82 makes of its three groups. *)
Definition max_date_us (matches : list (Z * Z * Z)) : option date :=
  let dates := omap (fun '(mm, dd, yyyy) => date_new yyyy mm dd) matches in
  match dates with
  | [] => None
  | d :: ds => Some (max_date d ds)
  end.

(** [UA_MONTHS_GEN], lines 38-42.  A character outside ASCII is written
    as the bytes of its UTF-8 encoding. *)
Definition UA_MONTHS_GEN : list (Z * str) :=
  [(1, chars "січня"); (2, chars "лютого"); (3, chars "березня");
   (4, chars "квітня"); (5, chars "травня"); (6, chars "червня");
   (7, chars "липня"); (8, chars "серпня"); (9, chars "вересня");
   (10, chars "жовтня"); (11, chars "листопада"); (12, chars "грудня")].

(** [d[k]] for a dictionary written as the list of its items: [None]
    stands for the [KeyError]. *)
Fixpoint dict_get {V} (d : list (Z * V)) (k : Z) : option V :=
  match d with
  | [] => None
  | (k', v) :: d' => if k' =? k then Some v else dict_get d' k
  end.

(** Lines 44-46. *)
Definition ua_date (dt : date) : option str :=
  let dd := format_02d (day dt) in
  match dict_get UA_MONTHS_GEN (month dt) with
  | None => None
  | Some name =>
      Some (chars "«" ++ dd ++ chars "» " ++ name ++ chars " "
            ++ format_d (year dt) ++ chars " року")
  end.

Example ua_date_example :
  option_map (fun s => string_of_list_ascii s) (ua_date (mkDate 2024 3 5))
  = Some "«05» березня 2024 року"%string.
Proof. reflexivity. Qed.

(** A date that [datetime.date] has made: the dates of a running
    program are all of this kind. *)
Definition valid_date (dt : date) : Prop :=
  date_new (year dt) (month dt) (day dt) = Some dt.

(** The number that two decimal digits write, [-1] for any other text. *)
Definition two_digit_value (s : str) : Z :=
  match s with
  | [c1; c2] =>
      10 * (Z.of_nat (nat_of_ascii c1) - 48) + (Z.of_nat (nat_of_ascii c2) - 48)
  | _ => -1
  end.

(** The ten decimal digits. *)
Definition is_digit (c : ascii) : bool :=
  (48 <=? nat_of_ascii c)%nat && (nat_of_ascii c <=? 57)%nat.

(** ** Amounts *)

(** The number that a text of decimal digits writes. *)
Definition digit_value (c : ascii) : N := (N.of_nat (nat_of_ascii c) - 48)%N.

Definition digits_value (s : str) : N :=
  fold_left (fun acc c => (10 * acc + digit_value c)%N) s 0%N.

(** A finite [Decimal]: the number [coefficient * 10 ^ exponent], with
    the sign [negative].  An infinity or a NaN is never made by the
    program. *)
Record Decimal := mkDecimal { negative : bool; coefficient : N; exponent : Z }.

(** The text before and the text after the first [c] of [s]; [None]
    when [c] is not in [s]. *)
Fixpoint split_at_first (c : ascii) (s : str) : option (str * str) :=
  match s with
  | [] => None
  | c' :: s' =>
      if Ascii.eqb c' c then Some ([], s')
      else match split_at_first c s' with
           | Some (before, after) => Some (c' :: before, after)
           | None => None
           end
  end.

(** [Decimal(s)] for a text [s] of a sign, digits and periods: the
    digits, with at most one period among them, and [None] for the
    [InvalidOperation] that any other such text raises.  (What else
    [Decimal] reads, an exponent, an infinity, a NaN, underscores,
    blanks around the number, has characters that the program never
    passes.) *)
Definition Decimal_of_str (s : str) : option Decimal :=
  let '(neg, body) :=
    match s with
    | c :: body =>
        if Ascii.eqb c "-" then (true, body)
        else if Ascii.eqb c "+" then (false, body) else (false, s)
    | [] => (false, s)
    end in
  let '(int_part, frac_part) :=
    match split_at_first "." body with
    | Some (int_part, frac_part) => (int_part, frac_part)
    | None => (body, [])
    end in
  if forallb is_digit int_part && forallb is_digit frac_part
     && negb (Nat.eqb (length (int_part ++ frac_part)) 0)
  then Some (mkDecimal neg (digits_value (int_part ++ frac_part))
               (- Z.of_nat (length frac_part)))
  else None.

(** [int(d)]: the digits before the point, towards zero. *)
Definition int_of_Decimal (d : Decimal) : Z :=
  let magnitude :=
    if 0 <=? exponent d
    then (coefficient d * 10 ^ Z.to_N (exponent d))%N
    else (coefficient d / 10 ^ Z.to_N (- exponent d))%N in
  if negative d then - Z.of_N magnitude else Z.of_N magnitude.

(** [c / p] rounded to the nearest integer, a tie to the even one
    ([ROUND_HALF_EVEN], the rounding of the default context). *)
Definition round_half_even (c p : N) : N :=
  let q := (c / p)%N in
  let r := (c mod p)%N in
  if (p <? 2 * r)%N || ((2 * r =? p)%N && N.odd q) then (q + 1)%N else q.

(** The coefficient of [d] brought to two digits after the point, as
    the format [.2f] does before it writes the digits. *)
Definition to_cents (d : Decimal) : N :=
  if -2 <=? exponent d
  then (coefficient d * 10 ^ Z.to_N (exponent d + 2))%N
  else round_half_even (coefficient d) (10 ^ Z.to_N (- 2 - exponent d)).

(** The digits before and after the point of a number of hundredths. *)
Definition int_part_2f (cents : N) : str := digits (cents / 100)%N.
Definition frac_part_2f (cents : N) : str :=
  repeat "0"%char (2 - length (digits (cents mod 100)%N))
  ++ digits (cents mod 100)%N.

Definition sign_chars (d : Decimal) : str :=
  if negative d then ["-"%char] else [].

(** [f"{d:.2f}"] *)
Definition format_2f (d : Decimal) : str :=
  sign_chars d ++ int_part_2f (to_cents d) ++ "."%char :: frac_part_2f (to_cents d).

(** The digits in groups of three from the right, on the reversed
    text: a comma after every third digit that has digits after it. *)
Fixpoint group3_rev (r : str) : str :=
  match r with
  | a :: b :: c :: ((_ :: _) as rest) => a :: b :: c :: ","%char :: group3_rev rest
  | _ => r
  end.

(** The thousands separator of the format [,]. *)
Definition insert_thousands_sep (s : str) : str :=
  rev (group3_rev (rev s)).

(** [f"{d:,.2f}"] *)
Definition format_comma_2f (d : Decimal) : str :=
  sign_chars d ++ insert_thousands_sep (int_part_2f (to_cents d))
  ++ "."%char :: frac_part_2f (to_cents d).

(** [s.replace(old, new)]: every occurrence of [old], from the left,
    none overlapping another. *)
Fixpoint replace_from (s old new : str) (skip : nat) : str :=
  match s with
  | [] => []
  | c :: s' =>
      match skip with
      | S k => replace_from s' old new k
      | O =>
          if startswith s old
          then new ++ replace_from s' old new (length old - 1)
          else c :: replace_from s' old new 0
      end
  end.

Definition str_replace (s old new : str) : str :=
  match old with
  | [] => new ++ flat_map (fun c => c :: new) s
  | _ :: _ => replace_from s old new 0
  end.

(** Lines 48-49. *)
Definition with_thin_space_groups (n : Decimal) : str :=
  str_replace (str_replace (format_comma_2f n) (chars ",") (chars " "))
    (chars ".") (chars ".").

Example with_thin_space_groups_example :
  with_thin_space_groups (mkDecimal false 123456789 (-3)) = chars "123 456.79".
Proof. reflexivity. Qed.

Example format_comma_2f_example :
  map format_comma_2f
    [mkDecimal false 5 (-3); mkDecimal false 15 (-3); mkDecimal false 25 (-3);
     mkDecimal true 1234567 0; mkDecimal false 999995 (-3)]
  = [chars "0.00"; chars "0.02"; chars "0.02"; chars "-1,234,567.00";
     chars "1,000.00"].
Proof. reflexivity. Qed.

(** Digits in groups of three from the right, read from the right:
    a last group of one to three digits, before it groups of three
    digits, each followed by the separator [sep]. *)
Inductive grouped_rev (sep : ascii) : str -> Prop :=
| grouped_last g :
    (1 <= length g <= 3)%nat -> forallb is_digit g = true -> grouped_rev sep g
| grouped_next a b c rest :
    forallb is_digit [a; b; c] = true -> grouped_rev sep rest ->
    grouped_rev sep (a :: b :: c :: sep :: rest).

(** The characters of a written amount. *)
Definition is_amount_char (c : ascii) : bool :=
  is_digit c || Ascii.eqb c " " || Ascii.eqb c "." || Ascii.eqb c "-".

(** ** [find_amount] *)

(** [NON_DIGITS_PATTERN.sub("", s)], line 68: [s] without the
    characters that are neither a digit nor a period. *)
Definition strip_non_digits (s : str) : str :=
  List.filter (fun c => is_digit c || Ascii.eqb c ".") s.

(** Lines 67-72 for the matches of one run through the patterns:
    the first text that [Decimal] reads. *)
Fixpoint first_amount (groups : list str) : option Decimal :=
  match groups with
  | [] => None
  | group :: groups' =>
      match Decimal_of_str (strip_non_digits group) with
      | Some amount => Some amount
      | None => first_amount groups'
      end
  end.

(** Lines 65-73.  [matches] stands for the patterns at work: for each
    pattern of [AMOUNT_PATTERNS], in order, the text of group 1 of each
    of its matches in the page, in order. *)
Definition find_amount (matches : list (list str)) : option Decimal :=
  first_amount (concat matches).

(** What group 1 of either pattern, [[0-9][0-9 ,.]*], can match: a
    digit, then digits, spaces, commas and periods. *)
Definition amount_group (s : str) : Prop :=
  match s with
  | [] => False
  | c :: s' =>
      is_digit c = true /\
      forallb (fun c' => is_digit c' || Ascii.eqb c' " " || Ascii.eqb c' ","
                         || Ascii.eqb c' ".") s' = true
  end.

(** The number of periods of a text. *)
Definition periods (s : str) : nat :=
  length (List.filter (fun c => Ascii.eqb c ".") s).

(** ** [process_file] *)

(** The day after [dt]; [None] after the last day of the year 9999. *)
Definition tomorrow (dt : date) : option date :=
  if day dt <? days_in_month (year dt) (month dt)
  then Some (mkDate (year dt) (month dt) (day dt + 1))
  else if month dt <? 12 then Some (mkDate (year dt) (month dt + 1) 1)
  else if year dt <? 9999 then Some (mkDate (year dt + 1) 1 1)
  else None.

(** [dt + datetime.timedelta(days=n)]: the date [n] days after [dt];
    [None] stands for the [OverflowError] of a date after the year
    9999. *)
Fixpoint add_days (n : nat) (dt : date) : option date :=
  match n with
  | O => Some dt
  | S n' =>
      match tomorrow dt with
      | Some dt' => add_days n' dt'
      | None => None
      end
  end.

(** [not s] is false: the text is there and is not empty. *)
Definition truthy (s : option str) : bool :=
  match s with
  | Some (_ :: _) => true
  | _ => false
  end.

(** [s or ""] *)
Definition or_empty (s : option str) : str :=
  match s with
  | Some s => s
  | None => []
  end.

(** [sys.get_int_max_str_digits()], which the program leaves at its
    default. *)
Definition int_max_str_digits : nat := 4300.

(** [f"{n:d}"] as Python 3.11 has it: [None] stands for the
    [ValueError] that it raises rather than write an integer of more
    digits than the limit. *)
Definition format_d_within_limit (n : Z) : option str :=
  if (int_max_str_digits <? length (digits (Z.abs_N n)))%nat then None
  else Some (format_d n).

(** What [process_file] meets outside the fields: whether the path of
    the folder of a given name exists already ([os.path.exists], line
    208), whether [os.makedirs] returns for it (line 213) and whether
    [Document] opens the template (line 215). *)
Record FileSystem := mkFileSystem {
  path_exists : str -> bool;
  makedirs_returns : str -> bool;
  template_opens : bool
}.

(** How [process_file] goes on from the four fields it has read from
    the PDF: it passes the file over and prints [errors]; or an
    exception leaves it; or it finds the folder there already and
    returns; or it has the name of the folder and the placeholders of
    the letter. *)
Inductive outcome :=
| Skipped (errors : list str)
| Raised
| FolderExists (folder_name : str)
| Prepared (folder_name : str) (placeholders : Placeholders).

(** Lines 181-227, from the fields that lines 166-179 have read to the
    placeholders handed to [replace_placeholders], in the order of the
    lines; what is printed is left out. *)
Definition process_fields (fs : FileSystem)
    (case_num : option str) (amount : option Decimal)
    (doc_date : option date) (case_descr : option str) : outcome :=
  let errors :=
    (if truthy case_num then [] else [chars "не найден CASE_NUM"])
    ++ (match amount with
        | None => [chars "не найдена сумма (FULL_AMOUNT)"]
        | Some _ => []
        end)
    ++ (match doc_date with
        | None => [chars "не найдена дата (DATE)"]
        | Some _ => []
        end) in
  match errors, case_num, amount, doc_date with
  | [], Some case_num, Some amount, Some doc_date =>
      let YY_MM :=
        format_02d (year doc_date mod 100) ++ chars "-"
        ++ format_02d (month doc_date) in
      match format_d_within_limit (int_of_Decimal amount),
            Decimal_of_str (format_2f amount),
            ua_date doc_date,
            add_days 2 doc_date, add_days 3 doc_date with
      | Some FULL_AMOUNT_DEC, Some rounded, Some DATE_uA,
        Some plus_2, Some plus_3 =>
          let FULL_AMOUNT_fmt := with_thin_space_groups rounded in
          match ua_date plus_2, ua_date plus_3 with
          | Some DATE_plus_2, Some DATE_plus_3 =>
              let DATE_MM_ONLY := format_02d (month doc_date) in
              let folder_name :=
                YY_MM ++ chars " Нова ХХХ " ++ FULL_AMOUNT_DEC ++ chars " №"
                ++ case_num ++ chars " Хелп" in
              if path_exists fs folder_name then FolderExists folder_name
              else if negb (makedirs_returns fs folder_name) then Raised
              else if negb (template_opens fs) then Raised
              else
                Prepared folder_name
                  [(chars "{{CASE_NUM}}", case_num);
                   (chars "{{FULL_AMOUNT_DEC}}", FULL_AMOUNT_DEC);
                   (chars "{{FULL_AMOUNT}}", FULL_AMOUNT_fmt);
                   (chars "{{DATE}}", DATE_uA);
                   (chars "{{DATE+2}}", DATE_plus_2);
                   (chars "{{DATE + 2}}", DATE_plus_2);
                   (chars "{{DATE+3}}", DATE_plus_3);
                   (chars "{{DATE + 3}}", DATE_plus_3);
                   (chars "{{DATE_MM_ONLY}}", DATE_MM_ONLY);
                   (chars "{{CASE_DESCR}}", or_empty case_descr)]
          | _, _ => Raised
          end
      | _, _, _, _, _ => Raised
      end
  | _, _, _, _ => Skipped errors
  end.

(** A directory where no folder of the letters is yet, every folder
    can be made and the template opens; and one where every folder is
    there already. *)
Definition fresh_directory : FileSystem :=
  mkFileSystem (fun _ => false) (fun _ => true) true.

Definition done_directory : FileSystem :=
  mkFileSystem (fun _ => true) (fun _ => true) true.

Example process_fields_example :
  match process_fields fresh_directory (Some (chars "123456"))
          (Some (mkDecimal false 1234567 (-2)))
          (Some (mkDate 2024 12 30)) None with
  | Prepared folder_name placeholders =>
      string_of_list_ascii folder_name
      = "24-12 Нова ХХХ 12345 №123456 Хелп"%string /\
      map (fun item => string_of_list_ascii item.2) placeholders
      = ["123456"; "12345"; "12 345.67"; "«30» грудня 2024 року";
         "«01» січня 2025 року"; "«01» січня 2025 року";
         "«02» січня 2025 року"; "«02» січня 2025 року"; "12";
         EmptyString]%string
  | _ => False
  end.
Proof. by vm_compute. Qed.

Example process_fields_folder_exists :
  process_fields done_directory (Some (chars "123456"))
    (Some (mkDecimal false 1234567 (-2))) (Some (mkDate 2024 12 30)) None
  = FolderExists (chars "24-12 Нова ХХХ 12345 №123456 Хелп").
Proof. by vm_compute. Qed.

(** An amount of 4301 digits: line 197 raises. *)
Example process_fields_too_many_digits :
  process_fields fresh_directory (Some (chars "123456"))
    (Some (mkDecimal false (10 ^ 4300) 0)) (Some (mkDate 2024 12 30)) None
  = Raised.
Proof. by vm_compute. Qed.

(** [cents] is the amount [a] in hundredths, rounded to the nearest
    whole number of them, a tie to the even one: twice the distance
    from [cents] hundredths to the amount is at most a hundredth, and
    [cents] is even when it is just that. *)
Definition rounded_to_cents (a : Decimal) (cents : N) : Prop :=
  if -2 <=? exponent a
  then cents = (coefficient a * 10 ^ Z.to_N (exponent a + 2))%N
  else
    let p := (10 ^ Z.to_N (- 2 - exponent a))%N in
    (2 * cents * p <= 2 * coefficient a + p)%N /\
    (2 * coefficient a <= 2 * cents * p + p)%N /\
    ((2 * cents * p = 2 * coefficient a + p)%N
     \/ (2 * coefficient a = 2 * cents * p + p)%N -> N.even cents = true).

(** The part of the amount [a] after the point is 0.995 at least. *)
Definition carries (a : Decimal) : Prop :=
  exponent a < -2 /\
  let q := (10 ^ Z.to_N (- exponent a))%N in
  (995 * q <= 1000 * (coefficient a mod q))%N.

(** A letter with the date in two runs and the case number in a cell. *)
Definition letter_template : DocumentObject :=
  mkDocument
    (mkBlock [[run_of "Kyiv, {{DA"; run_of "TE}}"]]
       [[[mkBlock [[run_of "No {{CASE_NUM}} / {{FULL_AMOUNT}}"]] []]]])
    [].

(** The text after the first [c] of [s], empty when [c] is not in [s]. *)
Definition after_first (c : ascii) (s : str) : str :=
  match split_at_first c s with
  | Some (_, after) => after
  | None => []
  end.

(** What [Decimal] reads from a group with at most one period: its
    digits, those after the period being the fraction. *)
Definition amount_of_group (group : str) : Decimal :=
  mkDecimal false (digits_value (List.filter is_digit group))
    (- Z.of_nat (length (List.filter is_digit (after_first "." group)))).

(** * Properties *)

#[global] Arguments full_text : simpl never.
#[global] Arguments len : simpl never.

(** ** [startswith] and [find] *)

Section Find.
Implicit Types s key x y : str.

Lemma len_nonneg s : 0 <= len s.
Proof. unfold len. lia. Qed.

Lemma len_app x y : len (x ++ y) = len x + len y.
Proof. unfold len. rewrite length_app. lia. Qed.

Lemma startswith_app key s : startswith (key ++ s) key = true.
Proof. induction key as [|k key IH]; simpl; [done |]. by rewrite Ascii.eqb_refl. Qed.

Lemma startswith_inv s key : startswith s key = true -> s = key ++ drop (length key) s.
Proof.
  revert s. induction key as [|k key IH]; intros [|c s]; simpl; try done.
  destruct (Ascii.eqb c k) eqn:E; [|done].
  apply Ascii.eqb_eq in E as ->. intros H. f_equal. by apply IH.
Qed.

Lemma startswith_iff s key : startswith s key = true <-> exists y, s = key ++ y.
Proof.
  split.
  - intros H. eexists. by apply startswith_inv.
  - intros [y ->]. apply startswith_app.
Qed.

Lemma find_range s key : find s key = -1 \/ 0 <= find s key <= len s - len key.
Proof.
  induction s as [|c s IH]; simpl.
  - destruct (startswith [] key) eqn:E; [|by left].
    right. destruct key; [|done]. unfold len; simpl; lia.
  - destruct (startswith (c :: s) key) eqn:E.
    + right. apply startswith_inv in E. rewrite E, len_app.
      pose proof (len_nonneg (drop (length key) (c :: s))). lia.
    + destruct (Z.eqb_spec (find s key) (-1)); [by left|].
      right. unfold len in *. simpl. lia.
Qed.

(** When [find] answers an offset, the key occurs there and at no
    smaller offset. *)
Lemma find_found s key i :
  find s key = i -> i <> -1 ->
  0 <= i /\
  s = take (Z.to_nat i) s ++ key ++ drop (Z.to_nat (i + len key)) s /\
  forall j : nat, (Z.of_nat j < i) -> startswith (drop j s) key = false.
Proof.
  revert i. induction s as [|c s IH]; intros i; simpl.
  - destruct (startswith [] key) eqn:E; [|lia].
    intros <- _. destruct key; [|done].
    split; [lia|]. split; [done|]. intros j Hj. exfalso; lia.
  - destruct (startswith (c :: s) key) eqn:E.
    + intros <- _. split; [lia|]. split; [|intros j Hj; exfalso; lia].
      simpl. apply startswith_inv in E. rewrite E at 1.
      do 2 f_equal. unfold len. f_equal. lia.
    + destruct (Z.eqb_spec (find s key) (-1)) as [|Hne]; [lia|].
      intros <- _. destruct (IH _ eq_refl Hne) as (H0 & Hs & Hmin).
      split; [lia|]. split.
      * replace (Z.to_nat (find s key + 1)) with (S (Z.to_nat (find s key))) by lia.
        replace (Z.to_nat (find s key + 1 + len key))
          with (S (Z.to_nat (find s key + len key))) by (unfold len; lia).
        simpl. f_equal. exact Hs.
      * intros [|j] Hj; [done|]. simpl. apply Hmin. lia.
Qed.

(** When [find] answers [-1], the key occurs nowhere. *)
Lemma find_none s key x y : find s key = -1 -> s <> x ++ key ++ y.
Proof.
  revert x. induction s as [|c s IH]; intros x; simpl.
  - destruct (startswith [] key) eqn:E; [lia|].
    intros _ H. symmetry in H. apply app_eq_nil in H as [-> H].
    apply app_eq_nil in H as [-> _]. done.
  - destruct (startswith (c :: s) key) eqn:E; [lia|].
    destruct (Z.eqb_spec (find s key) (-1)) as [Hm|];
      [|pose proof (find_range s key); lia].
    intros _ H. destruct x as [|c' x]; simpl in H.
    + rewrite H, startswith_app in E. done.
    + injection H as _ H. by apply (IH x).
Qed.

(** [find] answers [-1] exactly when the key occurs nowhere. *)
Lemma find_none_iff s key :
  find s key = -1 <-> forall x y, s <> x ++ key ++ y.
Proof.
  split; [intros H x y; by apply find_none|].
  intros H. destruct (Z.eq_dec (find s key) (-1)) as [|Hne]; [done|].
  destruct (find_found s key _ eq_refl Hne) as (_ & Hs & _). by apply H in Hs.
Qed.

(** The empty key is found at offset 0 of every string. *)
Lemma find_empty_key s : find s [] = 0.
Proof. by destruct s. Qed.
End Find.

(** ** Rewriting the runs of one occurrence *)

Section Span.
Implicit Types runs B M A R X : Paragraph.
Implicit Types F L : Run.

Lemma full_text_app B R : full_text (B ++ R) = full_text B ++ full_text R.
Proof. unfold full_text. by rewrite map_app, concat_app. Qed.

Lemma full_text_cons F R : full_text (F :: R) = text F ++ full_text R.
Proof. done. Qed.

Lemma stored_app (x y : str) : stored (x ++ y) = stored x ++ stored y.
Proof. apply map_app. Qed.

Lemma stored_stored (s : str) : stored (stored s) = stored s.
Proof.
  unfold stored. rewrite map_map. apply map_ext. intros c.
  destruct (Ascii.eqb c CR) eqn:E; [done|]. by rewrite E.
Qed.

Lemma stored_length (s : str) : length (stored s) = length s.
Proof. apply length_map. Qed.

Lemma set_text_app_r B R i s :
  set_text (length B + i) s (B ++ R) = B ++ set_text i s R.
Proof. apply alter_app_r. Qed.

Lemma set_text_middle B F R s :
  set_text (length B) s (B ++ F :: R) = B ++ with_text (stored s) F :: R.
Proof.
  rewrite <- (Nat.add_0_r (length B)) at 1. by rewrite set_text_app_r.
Qed.

Lemma get_text_middle B F R : get_text (length B) (B ++ F :: R) = text F.
Proof. unfold get_text. by rewrite list_lookup_middle. Qed.

(** Runs that end at or before the occurrence are not collected. *)
Lemma runs_to_modify_before B R idx cur s e :
  cur + len (full_text B) <= s ->
  runs_to_modify (B ++ R) idx cur s e
  = runs_to_modify R (idx + length B)%nat (cur + len (full_text B)) s e.
Proof.
  revert idx cur. induction B as [|r B IH]; intros idx cur Hs; simpl.
  - f_equal; [lia | unfold len; simpl; lia].
  - rewrite full_text_cons, len_app in *.
    pose proof (len_nonneg (full_text B)).
    destruct (Z.ltb_spec s (cur + len (text r))); [lia|]. simpl.
    rewrite IH by lia. f_equal; lia.
Qed.

(** Runs that start at or after the end of the occurrence are not
    collected. *)
Lemma runs_to_modify_after R idx cur s e :
  e <= cur -> runs_to_modify R idx cur s e = [].
Proof.
  revert idx cur. induction R as [|r R IH]; intros idx cur He; simpl; [done|].
  pose proof (len_nonneg (text r)).
  destruct (Z.ltb_spec cur e); [lia|]. rewrite andb_false_r. simpl.
  apply IH. lia.
Qed.

(** Runs that lie inside the occurrence are all collected. *)
Lemma runs_to_modify_inside M R idx cur s e :
  s < cur -> cur + len (full_text M) < e ->
  runs_to_modify (M ++ R) idx cur s e
  = map (mkRunObject line_110) (seq idx (length M))
    ++ runs_to_modify R (idx + length M)%nat (cur + len (full_text M)) s e.
Proof.
  revert idx cur. induction M as [|r M IH]; intros idx cur Hs He; simpl.
  - f_equal; [lia | unfold len; simpl; lia].
  - rewrite full_text_cons, len_app in *.
    pose proof (len_nonneg (full_text M)). pose proof (len_nonneg (text r)).
    destruct (Z.ltb_spec s (cur + len (text r))); [|lia].
    destruct (Z.ltb_spec cur e); [|lia]. simpl.
    rewrite IH by lia. do 2 f_equal. f_equal; lia.
Qed.

(** The objects that line 124 makes are not the objects that line 110
    has made: the tests of lines 126 and 128 never succeed, the loop of
    lines 124-131 runs to its end and [prefix] and [suffix] stay as
    line 122 has set them. *)
Lemma prefix_suffix_never runs idx cur first_run last_run s e p q :
  made_at first_run = line_110 -> made_at last_run = line_110 ->
  prefix_suffix runs idx cur first_run last_run s e p q = (p, q).
Proof.
  intros Hf Hl. revert idx cur.
  induction runs as [|r runs IH]; intros idx cur; [done|].
  cbn [prefix_suffix]. unfold same_run. cbn [made_at]. rewrite Hf, Hl.
  change (Nat.eqb line_124 line_110) with false. cbn [andb]. apply IH.
Qed.

Lemma runs_to_modify_made_at runs idx cur s e :
  Forall (fun r => made_at r = line_110) (runs_to_modify runs idx cur s e).
Proof.
  revert idx cur. induction runs as [|r runs IH]; intros idx cur; simpl;
    [constructor|].
  apply Forall_app. split; [|apply IH].
  destruct (_ && _); by repeat constructor.
Qed.

(** Line 135 on the runs strictly inside the occurrence. *)
Lemma clear_inside B M R :
  fold_left (fun rs r => set_text (position r) [] rs)
    (map (mkRunObject line_110) (seq (length B) (length M))) (B ++ M ++ R)
  = B ++ map (with_text []) M ++ R.
Proof.
  revert B. induction M as [|r M IH]; intros B; simpl; [done|].
  rewrite set_text_middle. change (stored []) with (@nil ascii).
  change (B ++ with_text [] r :: M ++ R) with (B ++ [with_text [] r] ++ M ++ R).
  rewrite (app_assoc B).
  replace (S (length B)) with (length (B ++ [with_text [] r]))
    by (rewrite length_app; simpl; lia).
  rewrite IH. by rewrite <- app_assoc.
Qed.

(** The run that holds a given offset of the text. *)
Lemma split_at_offset runs k :
  0 <= k < len (full_text runs) ->
  exists B F A, runs = B ++ F :: A /\
    len (full_text B) <= k < len (full_text B) + len (text F).
Proof.
  revert k. induction runs as [|r runs IH]; intros k Hk.
  - change (len (full_text [])) with 0 in Hk. lia.
  - rewrite full_text_cons, len_app in Hk.
    destruct (Z.lt_ge_cases k (len (text r))) as [Hlt|Hge].
    + exists [], r, runs. split; [done|].
      change (full_text []) with (@nil ascii). change (len []) with 0. lia.
    + destruct (IH (k - len (text r))) as (B & F & A & -> & HB); [lia|].
      exists (r :: B), F, A. split; [done|].
      rewrite full_text_cons, len_app. lia.
Qed.

Section Single.
Variables (B : Paragraph) (F : Run) (A : Paragraph) (s e : Z).
Let cF := len (full_text B).
Hypothesis Hs : cF <= s.
Hypothesis Hse : s < e.
Hypothesis He : e <= cF + len (text F).

Lemma runs_to_modify_single :
  runs_to_modify (B ++ F :: A) 0 0 s e = [mkRunObject line_110 (length B)].
Proof using Hs Hse He.
  pose proof (len_nonneg (full_text B)) as HB.
  rewrite runs_to_modify_before by (fold cF; lia). fold cF. simpl.
  destruct (Z.ltb_spec s (0 + cF + len (text F))); [|lia].
  destruct (Z.ltb_spec (0 + cF) e); [|lia]. simpl.
  by rewrite runs_to_modify_after by lia.
Qed.

(** The occurrence lies inside one run: the run reads as the value. *)
Lemma replace_span_single v :
  replace_span (B ++ F :: A) s e v = Some (B ++ with_text (stored v) F :: A).
Proof using Hs Hse He.
  unfold replace_span. rewrite runs_to_modify_single.
  change (List.last [] ?x) with x.
  rewrite prefix_suffix_never by done. cbv beta iota zeta.
  unfold same_run. cbn [made_at position]. rewrite !Nat.eqb_refl. cbn [andb].
  change (fold_left _ [] ?x) with x.
  rewrite !set_text_middle, get_text_middle.
  unfold with_text at 2 3. cbn [text rPr].
  by rewrite !app_nil_r, stored_stored.
Qed.
End Single.

Section Multi.
Variables (B : Paragraph) (F : Run) (M : Paragraph) (L : Run) (A : Paragraph).
Variables (s e : Z).
Let cF := len (full_text B).
Let cL := cF + len (text F) + len (full_text M).
Hypothesis Hs : cF <= s < cF + len (text F).
Hypothesis He : cL < e <= cL + len (text L).

Lemma runs_to_modify_multi :
  runs_to_modify (B ++ F :: M ++ L :: A) 0 0 s e
  = map (mkRunObject line_110)
      (length B :: seq (S (length B)) (length M) ++ [S (length B + length M)]).
Proof using Hs He.
  pose proof (len_nonneg (full_text B)) as HB.
  pose proof (len_nonneg (full_text M)) as HM.
  pose proof (len_nonneg (text F)) as HF.
  rewrite runs_to_modify_before by (fold cF; lia). fold cF. simpl.
  destruct (Z.ltb_spec s (0 + cF + len (text F))); [|lia].
  destruct (Z.ltb_spec (0 + cF) e); [|lia]. simpl.
  rewrite runs_to_modify_inside by (subst cL; lia). simpl.
  destruct (Z.ltb_spec s (0 + cF + len (text F) + len (full_text M) + len (text L)));
    [|lia].
  destruct (Z.ltb_spec (0 + cF + len (text F) + len (full_text M)) e);
    [|subst cL; lia].
  simpl. rewrite runs_to_modify_after by (subst cL; lia).
  by rewrite map_app.
Qed.

(** The occurrence starts in [F], covers [M] and ends in [L]: [F]
    reads as the value, and the runs of [M] and [L] are empty. *)
Lemma replace_span_multi v :
  replace_span (B ++ F :: M ++ L :: A) s e v
  = Some (B ++ with_text (stored v) F
            :: map (with_text []) M ++ with_text [] L :: A).
Proof using Hs He.
  unfold replace_span. rewrite runs_to_modify_multi.
  cbn [map]. rewrite map_app. cbn [map]. rewrite last_last.
  rewrite prefix_suffix_never by done. cbv beta iota zeta.
  unfold same_run. cbn [made_at position]. rewrite Nat.eqb_refl. cbn [andb].
  destruct (Nat.eqb_spec (length B) (S (length B + length M))) as [Hfl|_]; [lia|].
  rewrite set_text_middle, fold_left_app. simpl app at 1.
  set (F' := with_text _ F).
  change (B ++ F' :: M ++ L :: A) with (B ++ [F'] ++ M ++ L :: A).
  rewrite (app_assoc B).
  replace (S (length B)) with (length (B ++ [F']))
    by (rewrite length_app; simpl; lia).
  rewrite clear_inside. simpl fold_left.
  rewrite (app_assoc _ (map _ M)).
  replace (S (length B + length M))
    with (length ((B ++ [F']) ++ map (with_text []) M))
    by (rewrite !length_app, length_map; simpl; lia).
  rewrite !set_text_middle. change (stored []) with (@nil ascii).
  rewrite <- !app_assoc. simpl. done.
Qed.
End Multi.

(** *** The shape of an occurrence *)

Lemma span_shape_exists runs s e :
  0 <= s -> s < e -> e <= len (full_text runs) -> span_shape runs s e.
Proof.
  intros H0 Hse He.
  destruct (split_at_offset runs s) as (B & F & A & -> & HB); [lia|].
  destruct (Z.le_gt_cases e (len (full_text B) + len (text F))) as [Hle|Hgt].
  { by eapply span_single; [done | lia | lia]. }
  rewrite full_text_app, full_text_cons, !len_app in He.
  destruct (split_at_offset A (e - 1 - (len (full_text B) + len (text F))))
    as (M & L & A' & -> & HM); [lia|].
  eapply span_multi; [done | lia | lia].
Qed.

(** *** What [set_text] leaves alone *)

Lemma set_text_length i s runs : length (set_text i s runs) = length runs.
Proof. apply length_alter. Qed.

Lemma set_text_rPr i s runs : map rPr (set_text i s runs) = map rPr runs.
Proof.
  revert i. induction runs as [|r runs IH]; intros [|i]; simpl; try done.
  f_equal. apply IH.
Qed.

Lemma clear_all_frame (objects : list RunObject) runs :
  let runs' := fold_left (fun rs r => set_text (position r) [] rs) objects runs in
  length runs' = length runs /\ map rPr runs' = map rPr runs.
Proof.
  revert runs. induction objects as [|i objects IH]; intros runs; simpl; [done|].
  destruct (IH (set_text (position i) [] runs)) as [-> ->].
  by rewrite set_text_length, set_text_rPr.
Qed.

(** A replacement changes neither the number of runs nor the
    formatting of any run. *)
Lemma replace_span_frame runs s e v runs' :
  replace_span runs s e v = Some runs' ->
  length runs' = length runs /\ map rPr runs' = map rPr runs.
Proof.
  unfold replace_span.
  destruct (runs_to_modify runs 0 0 s e) as [|f others]; [done|].
  destruct (prefix_suffix _ _ _ _ _ _ _ _ _) as [p q].
  pose proof (clear_all_frame others (set_text (position f) (p ++ v) runs))
    as [Hl Hr].
  simpl in Hl, Hr. rewrite set_text_length in Hl. rewrite set_text_rPr in Hr.
  intros [= <-].
  destruct (same_run _ _); by rewrite set_text_length, set_text_rPr.
Qed.

(** *** The text of a rewritten paragraph *)

Lemma take_Z_app (x y : str) n :
  len x <= n -> take (Z.to_nat n) (x ++ y) = x ++ take (Z.to_nat (n - len x)) y.
Proof.
  intros H. unfold len in *. rewrite take_app_ge by lia. do 2 f_equal. lia.
Qed.

Lemma drop_Z_app (x y : str) n :
  len x <= n -> drop (Z.to_nat n) (x ++ y) = drop (Z.to_nat (n - len x)) y.
Proof.
  intros H. unfold len in *. rewrite drop_app_ge by lia. f_equal. lia.
Qed.

Lemma take_Z_le (x y : str) n :
  n <= len x -> take (Z.to_nat n) (x ++ y) = take (Z.to_nat n) x.
Proof. intros H. unfold len in *. by rewrite take_app_le by lia. Qed.

Lemma drop_Z_le (x y : str) n :
  n <= len x -> drop (Z.to_nat n) (x ++ y) = drop (Z.to_nat n) x ++ y.
Proof. intros H. unfold len in *. by rewrite drop_app_le by lia. Qed.

Lemma full_text_cleared M : full_text (map (with_text []) M) = [].
Proof. induction M as [|r M IH]; [done|]. simpl. by rewrite full_text_cons, IH. Qed.

Lemma full_text_overwritten v X :
  X <> [] -> full_text (overwritten v X) = stored v.
Proof.
  destruct X as [|F R]; [done|]. intros _. simpl.
  by rewrite full_text_cons, full_text_cleared, app_nil_r.
Qed.

Lemma overwritten_length v X : length (overwritten v X) = length X.
Proof. destruct X; simpl; [done|]. by rewrite length_map. Qed.

(** *** Which runs are collected *)

Lemma run_offset_cons_S r R k :
  run_offset (r :: R) (S k) = len (text r) + run_offset R k.
Proof. unfold run_offset. simpl. by rewrite full_text_cons, len_app. Qed.

Lemma run_offset_app B R : run_offset (B ++ R) (length B) = len (full_text B).
Proof. unfold run_offset. by rewrite take_app_length. Qed.

Lemma positions_runs_to_modify_gen runs idx cur s e i :
  i ∈ map position (runs_to_modify runs idx cur s e)
  <-> exists k, i = (idx + k)%nat /\ (k < length runs)%nat /\
        s < cur + run_offset runs k + len (get_text k runs) /\
        cur + run_offset runs k < e.
Proof.
  revert idx cur. induction runs as [|r R IH]; intros idx cur; simpl.
  - rewrite elem_of_nil. split; [done|]. intros (k & _ & Hk & _). lia.
  - rewrite map_app, elem_of_app, IH. split.
    + intros [Hi | (k & -> & Hk & Hs & He)].
      * destruct (Z.ltb_spec s (cur + len (text r))); simpl in Hi;
          [|by apply elem_of_nil in Hi].
        destruct (Z.ltb_spec cur e); simpl in Hi; [|by apply elem_of_nil in Hi].
        apply list_elem_of_singleton in Hi as ->.
        exists 0%nat. change (run_offset (r :: R) 0) with 0.
        change (get_text 0 (r :: R)) with (text r).
        repeat split; lia.
      * exists (S k). rewrite run_offset_cons_S.
        change (get_text (S k) (r :: R)) with (get_text k R).
        repeat split; lia.
    + intros ([|k] & -> & Hk & Hs & He).
      * left. change (run_offset (r :: R) 0) with 0 in *.
        change (get_text 0 (r :: R)) with (text r) in *.
        destruct (Z.ltb_spec s (cur + len (text r))); [|lia].
        destruct (Z.ltb_spec cur e); [|lia].
        simpl. apply list_elem_of_singleton. lia.
      * right. exists k. rewrite run_offset_cons_S in *.
        change (get_text (S k) (r :: R)) with (get_text k R) in *.
        repeat split; lia.
Qed.

(** The runs collected by lines 109-114 are those whose range in the
    text overlaps the occurrence. *)
Lemma positions_runs_to_modify runs s e i :
  i ∈ map position (runs_to_modify runs 0 0 s e)
  <-> (i < length runs)%nat /\
      s < run_offset runs i + len (get_text i runs) /\ run_offset runs i < e.
Proof.
  rewrite positions_runs_to_modify_gen. split.
  - intros (k & -> & Hk & Hs & He). simpl. repeat split; lia.
  - intros (Hi & Hs & He). exists i. repeat split; simpl; lia.
Qed.

Lemma map_position_mkRunObject (l : list nat) :
  map position (map (mkRunObject line_110) l) = l.
Proof. rewrite map_map. simpl. apply map_id. Qed.

Lemma take_drop_middle (l : str) (a b : nat) :
  (a <= b)%nat -> l = take a l ++ take (b - a) (drop a l) ++ drop b l.
Proof.
  intros H. rewrite <- (take_drop a l) at 1. f_equal.
  rewrite <- (take_drop (b - a) (drop a l)) at 1. f_equal.
  rewrite drop_drop. f_equal. lia.
Qed.

(** Lines 107-140 on any part [s, e) of the text that is not empty:
    the runs [X] that overlap it are collected, the first of them reads
    as the value and the others are empty; what they held before and
    after the part is lost. *)
Lemma replace_span_effect R0 runs R2 s e v :
  0 <= s -> s < e -> e <= len (full_text runs) ->
  exists B X A lost_before lost_after,
    runs = B ++ X ++ A /\ X <> [] /\
    map position
      (runs_to_modify (R0 ++ runs ++ R2) 0 0
         (len (full_text R0) + s) (len (full_text R0) + e))
    = seq (length R0 + length B) (length X) /\
    replace_span (R0 ++ runs ++ R2) (len (full_text R0) + s)
      (len (full_text R0) + e) v
    = Some (R0 ++ (B ++ overwritten v X ++ A) ++ R2) /\
    take (Z.to_nat s) (full_text runs) = full_text B ++ lost_before /\
    drop (Z.to_nat e) (full_text runs) = lost_after ++ full_text A /\
    full_text X
    = lost_before
      ++ take (Z.to_nat (e - s)) (drop (Z.to_nat s) (full_text runs))
      ++ lost_after.
Proof.
  intros H0 Hse He. set (c := len (full_text R0)).
  destruct (span_shape_exists runs s e H0 Hse He)
    as [B F A -> HB HF | B F M L A -> HF HL].
  - exists B, [F], A, (take (Z.to_nat (s - len (full_text B))) (text F)),
      (drop (Z.to_nat (e - len (full_text B))) (text F)).
    split; [done|]. split; [done|].
    assert (R0 ++ (B ++ F :: A) ++ R2 = (R0 ++ B) ++ F :: (A ++ R2)) as ->
      by (by rewrite <- !app_assoc).
    assert (len (full_text (R0 ++ B)) = c + len (full_text B)) as Hc
      by (by rewrite full_text_app, len_app).
    split; [rewrite runs_to_modify_single by lia; by rewrite length_app|].
    split.
    { rewrite replace_span_single by lia. by rewrite <- !app_assoc. }
    rewrite !full_text_app, !full_text_cons.
    change (full_text [F]) with (text F ++ []). rewrite app_nil_r.
    split; [|split].
    + rewrite take_Z_app by lia. by rewrite take_Z_le by lia.
    + rewrite drop_Z_app by lia. by rewrite drop_Z_le by lia.
    + rewrite drop_Z_app by lia. rewrite drop_Z_le by lia.
      rewrite take_app_le
        by (rewrite length_drop; unfold len in *; lia).
      replace (Z.to_nat (e - s))
        with (Z.to_nat (e - len (full_text B))
              - Z.to_nat (s - len (full_text B)))%nat by lia.
      apply take_drop_middle. lia.
  - pose proof (len_nonneg (full_text M)) as HM.
    set (cF := len (full_text B)) in *.
    set (cL := cF + len (text F) + len (full_text M)) in *.
    exists B, (F :: M ++ [L]), A, (take (Z.to_nat (s - cF)) (text F)),
      (drop (Z.to_nat (e - cL)) (text L)).
    split; [simpl; by rewrite <- app_assoc|]. split; [done|].
    assert (R0 ++ (B ++ F :: M ++ L :: A) ++ R2
            = (R0 ++ B) ++ F :: M ++ L :: (A ++ R2)) as ->
      by (rewrite <- !app_assoc; simpl; by rewrite <- !app_assoc).
    assert (len (full_text (R0 ++ B)) = c + cF) as Hc
      by (by rewrite full_text_app, len_app).
    split.
    { rewrite runs_to_modify_multi by (subst cL; lia).
      rewrite map_position_mkRunObject.
      simpl. rewrite !length_app. simpl.
      replace (length M + 1)%nat with (S (length M)) by lia.
      by rewrite seq_S. }
    split.
    { rewrite replace_span_multi by (subst cL; lia). simpl.
      rewrite map_app, <- !app_assoc. simpl. by rewrite <- !app_assoc. }
    rewrite !full_text_app, !full_text_cons, !full_text_app, !full_text_cons.
    split; [|split].
    + rewrite take_Z_app by (fold cF; lia). by rewrite take_Z_le by (fold cF; lia).
    + rewrite drop_Z_app by (fold cF; lia).
      rewrite drop_Z_app by (fold cF; lia).
      rewrite drop_Z_app by (fold cF; lia).
      rewrite drop_Z_le by (fold cF; subst cL; lia).
      do 2 f_equal. subst cL. lia.
    + change (full_text []) with (@nil ascii). rewrite app_nil_r.
      set (T := text F ++ full_text M ++ text L).
      assert (len T = len (text F) + len (full_text M) + len (text L)) as HT
        by (unfold T; rewrite !len_app; lia).
      replace (full_text B ++ text F ++ full_text M ++ text L ++ full_text A)
        with (full_text B ++ T ++ full_text A)
        by (unfold T; by rewrite <- !app_assoc).
      rewrite drop_Z_app by (fold cF; lia).
      rewrite drop_Z_le by (fold cF; lia).
      rewrite take_app_le
        by (rewrite length_drop; subst cL; unfold len in *; lia).
      assert (take (Z.to_nat (s - cF)) (text F) = take (Z.to_nat (s - cF)) T) as ->
        by (unfold T; by rewrite take_Z_le by lia).
      assert (drop (Z.to_nat (e - cL)) (text L) = drop (Z.to_nat (e - cF)) T) as ->.
      { unfold T. rewrite drop_Z_app by (subst cL; lia).
        rewrite drop_Z_app by (subst cL; lia). f_equal. subst cL. lia. }
      replace (Z.to_nat (e - s))
        with (Z.to_nat (e - cF) - Z.to_nat (s - cF))%nat by lia.
      apply take_drop_middle. lia.
Qed.
End Span.

(** ** One pass of the loop *)

Section Pass.
Implicit Types runs : Paragraph.
Implicit Types items skipped rest : Placeholders.

(** No run overlaps the occurrence of the empty key. *)
Lemma replace_span_empty_key runs v : replace_span runs 0 (0 + len []) v = None.
Proof. unfold replace_span. by rewrite runs_to_modify_after. Qed.

(** A key that is not empty and occurs is dealt with at its first
    occurrence: the runs [X] that overlap it are overwritten. *)
Lemma replace_span_key runs key v :
  key <> [] -> find (full_text runs) key <> -1 ->
  let s := find (full_text runs) key in
  exists B X A lost_before lost_after,
    runs = B ++ X ++ A /\ X <> [] /\
    map position (runs_to_modify runs 0 0 s (s + len key))
    = seq (length B) (length X) /\
    replace_span runs s (s + len key) v = Some (B ++ overwritten v X ++ A) /\
    take (Z.to_nat s) (full_text runs) = full_text B ++ lost_before /\
    drop (Z.to_nat (s + len key)) (full_text runs) = lost_after ++ full_text A /\
    full_text X = lost_before ++ key ++ lost_after.
Proof.
  intros Hk Hf s.
  assert (0 < len key) by (destruct key; [done | unfold len; simpl; lia]).
  destruct (find_range (full_text runs) key) as [|Hr]; [done|].
  destruct (find_found _ _ _ eq_refl Hf) as (H0 & Hfull & _). fold s in H0, Hfull.
  destruct (replace_span_effect [] runs [] s (s + len key) v)
    as (B & X & A & lb & la & HX & Hne & Hc & Hr' & Hb & Ha & Ht);
    [subst s; lia..|].
  change (len (full_text [])) with 0 in Hc, Hr'.
  rewrite !Z.add_0_l in Hc, Hr'. simpl in Hc. simpl app in Hr'.
  rewrite (app_nil_r runs) in Hc. rewrite (app_nil_r runs), app_nil_r in Hr'.
  assert (take (Z.to_nat (s + len key - s)) (drop (Z.to_nat s) (full_text runs))
          = key) as Hkey.
  { rewrite Hfull at 1. rewrite drop_app_length'
      by (rewrite length_take; unfold len in *; lia).
    replace (Z.to_nat (s + len key - s)) with (length key) by (unfold len; lia).
    by rewrite take_app_length. }
  rewrite Hkey in Ht.
  by exists B, X, A, lb, la.
Qed.

Lemma replace_span_key_is_Some runs key v :
  key <> [] -> find (full_text runs) key <> -1 ->
  is_Some (replace_span runs (find (full_text runs) key)
             (find (full_text runs) key + len key) v).
Proof.
  intros Hk Hf.
  destruct (replace_span_key runs key v Hk Hf)
    as (B & X & A & lb & la & _ & _ & _ & -> & _). by eexists.
Qed.

Lemma replace_first_key_passed_over item items runs :
  passed_over (full_text runs) item ->
  replace_first_key (item :: items) runs (full_text runs)
  = replace_first_key items runs (full_text runs).
Proof.
  destruct item as [key value]. intros [Hk | Hf]; simpl in *.
  - subst key. rewrite find_empty_key. simpl.
    by rewrite (replace_span_empty_key runs value).
  - by rewrite Hf.
Qed.

Lemma replace_first_key_hit key value items runs :
  key <> [] -> find (full_text runs) key <> -1 ->
  replace_first_key ((key, value) :: items) runs (full_text runs)
  = replace_span runs (find (full_text runs) key)
      (find (full_text runs) key + len key) value.
Proof.
  intros Hk Hf. simpl.
  destruct (Z.eqb_spec (find (full_text runs) key) (-1)); [done|].
  by destruct (replace_span_key_is_Some runs key value Hk Hf) as [runs' ->].
Qed.

(** The pass replaces the first key, in the order of the items, that
    is not passed over. *)
Lemma replace_first_key_skip skipped key value rest runs :
  Forall (passed_over (full_text runs)) skipped ->
  key <> [] -> find (full_text runs) key <> -1 ->
  replace_first_key (skipped ++ (key, value) :: rest) runs (full_text runs)
  = replace_span runs (find (full_text runs) key)
      (find (full_text runs) key + len key) value.
Proof.
  intros Hs Hk Hf. induction Hs as [|item skipped Hi _ IH]; simpl app.
  - by apply replace_first_key_hit.
  - by rewrite replace_first_key_passed_over.
Qed.

Lemma passed_over_dec s item : passed_over s item \/ (item.1 <> [] /\ find s item.1 <> -1).
Proof.
  unfold passed_over. destruct item as [[|c key] value]; simpl; [by left; left|].
  destruct (Z.eq_dec (find s (c :: key)) (-1)); [by left; right | by right].
Qed.

(** A pass finds nothing to replace exactly when it passes over every
    key. *)
Lemma replace_first_key_None items runs :
  replace_first_key items runs (full_text runs) = None
  <-> Forall (passed_over (full_text runs)) items.
Proof.
  induction items as [|item items IH].
  - split; [by constructor | done].
  - destruct (passed_over_dec (full_text runs) item) as [Hp | [Hk Hf]].
    + rewrite replace_first_key_passed_over by done. rewrite IH. split.
      * by constructor.
      * by inversion 1.
    + destruct item as [key value]. simpl in Hk, Hf.
      rewrite replace_first_key_hit by done.
      destruct (replace_span_key_is_Some runs key value Hk Hf) as [runs' ->].
      split; [done|]. inversion 1 as [|? ? [?|?]]; done.
Qed.

(** When a pass replaces, the items split at the replaced key. *)
Lemma replace_first_key_Some items runs runs' :
  replace_first_key items runs (full_text runs) = Some runs' ->
  exists skipped key value rest,
    items = skipped ++ (key, value) :: rest /\
    Forall (passed_over (full_text runs)) skipped /\
    key <> [] /\ find (full_text runs) key <> -1 /\
    replace_span runs (find (full_text runs) key)
      (find (full_text runs) key + len key) value = Some runs'.
Proof.
  induction items as [|item items IH]; [done|].
  destruct (passed_over_dec (full_text runs) item) as [Hp | [Hk Hf]].
  - rewrite replace_first_key_passed_over by done. intros H.
    destruct (IH H) as (skipped & key & value & rest & -> & Hs & Hrest).
    exists (item :: skipped), key, value, rest.
    split; [done|]. split; [by constructor | done].
  - destruct item as [key value]. simpl in Hk, Hf.
    rewrite replace_first_key_hit by done. intros H.
    by exists [], key, value, items.
Qed.

(** What a pass that replaces does to the runs and to the text. *)
Lemma replace_once_Some placeholders runs runs' :
  replace_once placeholders runs = Some runs' ->
  exists skipped key value rest B X A lost_before lost_after,
    placeholders = skipped ++ (key, value) :: rest /\
    Forall (passed_over (full_text runs)) skipped /\
    key <> [] /\ find (full_text runs) key <> -1 /\
    runs = B ++ X ++ A /\ X <> [] /\
    runs' = B ++ overwritten value X ++ A /\
    full_text X = lost_before ++ key ++ lost_after /\
    take (Z.to_nat (find (full_text runs) key)) (full_text runs)
    = full_text B ++ lost_before /\
    drop (Z.to_nat (find (full_text runs) key + len key)) (full_text runs)
    = lost_after ++ full_text A.
Proof.
  intros (skipped & key & value & rest & -> & Hs & Hk & Hf & Hr)%replace_first_key_Some.
  destruct (replace_span_key runs key value Hk Hf)
    as (B & X & A & lb & la & HX & Hne & _ & Hr' & Hb & Ha & Ht).
  exists skipped, key, value, rest, B, X, A, lb, la.
  repeat (split; [done|]). split; [congruence | done].
Qed.

Lemma replace_once_text placeholders runs runs' :
  replace_once placeholders runs = Some runs' ->
  exists key value B X A,
    (key, value) ∈ placeholders /\ runs = B ++ X ++ A /\
    full_text runs' = full_text B ++ stored value ++ full_text A.
Proof.
  intros (skipped & key & value & rest & B & X & A & lb & la & -> & _ & _ & _
          & -> & Hne & -> & _)%replace_once_Some.
  exists key, value, B, X, A.
  split; [rewrite elem_of_app, elem_of_cons; by right; left|]. split; [done|].
  by rewrite !full_text_app, full_text_overwritten.
Qed.
End Pass.

(** ** What one replacement does to the runs *)

(** C2 fails on the code.  For the paragraph [Hello {{], [NAME],
    [}} world] and the token [{{NAME}}] with the value [Ann], the pass
    collects the three runs, but the objects that line 124 makes are
    not those that line 110 has made: the tests of lines 126 and 128
    never succeed, [prefix] and [suffix] stay empty, and the runs read
    [Ann], nothing and nothing: the text is [Ann], not
    [Hello Ann world]. *)
Theorem C2_text_around_the_token_is_lost :
  map position (runs_to_modify hello_name 0 0 6 14) = [0; 1; 2]%nat /\
  prefix_suffix hello_name 0 0
    (mkRunObject line_110 0) (mkRunObject line_110 2) 6 14 [] [] = ([], []) /\
  option_map (map text)
    (replace_once [(chars "{{NAME}}", chars "Ann")] hello_name)
  = Some [chars "Ann"; []; []] /\
  option_map full_text
    (replace_once [(chars "{{NAME}}", chars "Ann")] hello_name)
  = Some (chars "Ann") /\
  take 6 (full_text hello_name) ++ chars "Ann" ++ drop 14 (full_text hello_name)
  = chars "Hello Ann world".
Proof. by vm_compute. Qed.

(** ** Which key a pass replaces *)

(** C1, as stated, fails: in [{{B}} {{A}}] the occurrence with the
    smallest offset is that of [{{B}}], at offset 0, but the pass
    replaces [{{A}}], the first key of the map, and leaves [{{B}}]
    where it was. *)
Lemma C1_counterexample :
  leftmost_occurrence two_keys (full_text b_before_a)
  = Some (0, token_B, chars "y") /\
  option_map (map text) (replace_once two_keys b_before_a)
  = Some [chars "{{B}}"; chars " "; chars "x"] /\
  find (chars "{{B}} x") token_B = 0.
Proof. by vm_compute. Qed.

(** C1, amended: a pass that replaces something deals with the first
    key in map order that is not empty and occurs in the text, at its
    first occurrence (the one with the smallest offset); every key
    before it in the map is empty or occurs nowhere, and where the keys
    after it occur plays no part.  The pass rewrites the runs that
    overlap that occurrence, [affected], and no other run: the value is
    written to the first of them. *)
Theorem C1_replace_once_first_key_in_map_order
    (placeholders : Placeholders) (paragraph paragraph' : Paragraph) :
  replace_once placeholders paragraph = Some paragraph' ->
  exists skipped key value rest,
    placeholders = skipped ++ (key, value) :: rest /\
    Forall (passed_over (full_text paragraph)) skipped /\
    key <> [] /\
    let start_index := find (full_text paragraph) key in
    start_index <> -1 /\
    (forall j : nat, Z.of_nat j < start_index ->
       startswith (drop j (full_text paragraph)) key = false) /\
    exists before affected after,
      paragraph = before ++ affected ++ after /\ affected <> [] /\
      map position
        (runs_to_modify paragraph 0 0 start_index (start_index + len key))
      = seq (length before) (length affected) /\
      paragraph' = before ++ overwritten value affected ++ after.
Proof.
  intros H. apply replace_first_key_Some in H
    as (skipped & key & value & rest & -> & Hs & Hk & Hf & Hr).
  exists skipped, key, value, rest. repeat (split; [done|]).
  split; [by apply (find_found _ _ _ eq_refl Hf)|].
  destruct (replace_span_key paragraph key value Hk Hf)
    as (B & X & A & lb & la & HX & Hne & Hc & Hr' & _).
  exists B, X, A. repeat (split; [done|]). congruence.
Qed.

Lemma C1_witness :
  replace_once two_keys b_before_a
  = Some [run_of "{{B}}"; run_of " "; run_of "x"] /\
  exists skipped key value rest,
    two_keys = skipped ++ (key, value) :: rest /\
    Forall (passed_over (full_text b_before_a)) skipped /\
    key <> [] /\
    let start_index := find (full_text b_before_a) key in
    start_index <> -1 /\
    (forall j : nat, Z.of_nat j < start_index ->
       startswith (drop j (full_text b_before_a)) key = false) /\
    exists before affected after,
      b_before_a = before ++ affected ++ after /\ affected <> [] /\
      map position
        (runs_to_modify b_before_a 0 0 start_index (start_index + len key))
      = seq (length before) (length affected) /\
      [run_of "{{B}}"; run_of " "; run_of "x"]
      = before ++ overwritten value affected ++ after.
Proof.
  split; [reflexivity|].
  apply (C1_replace_once_first_key_in_map_order two_keys b_before_a).
  reflexivity.
Defined.




(** ** A pass that finds nothing *)

(** C7: when no key of the map occurs in the text of the paragraph, a
    pass replaces nothing (the spec's [replaceOnce] returns false) and
    the loop returns at once with the paragraph as it was: every run
    has the text and the formatting it had. *)
Theorem C7_no_occurrence_no_change
    (placeholders : Placeholders) (paragraph : Paragraph) :
  Forall (fun item => find (full_text paragraph) item.1 = -1) placeholders ->
  replace_once placeholders paragraph = None /\
  forall fuel, _replace_in_paragraph (S fuel) placeholders paragraph = Some paragraph.
Proof.
  intros H.
  assert (replace_once placeholders paragraph = None) as Ho.
  { apply replace_first_key_None. revert H. apply List.Forall_impl.
    intros item Hi. by right. }
  split; [done|]. intros fuel. simpl. by rewrite Ho.
Qed.

Lemma C7_witness :
  Forall (fun item => find (full_text [run_of "Dear "; run_of "Sir"]) item.1 = -1)
    two_keys /\
  replace_once two_keys [run_of "Dear "; run_of "Sir"] = None /\
  forall fuel,
    _replace_in_paragraph (S fuel) two_keys [run_of "Dear "; run_of "Sir"]
    = Some [run_of "Dear "; run_of "Sir"].
Proof.
  assert (Forall (fun item => find (full_text [run_of "Dear "; run_of "Sir"]) item.1 = -1)
            two_keys) as H by (repeat constructor).
  split; [exact H|].
  exact (C7_no_occurrence_no_change two_keys [run_of "Dear "; run_of "Sir"] H).
Defined.

(** ** The empty key *)

Lemma replace_first_key_drop_empty_key items v items' runs :
  replace_first_key (items ++ ([], v) :: items') runs (full_text runs)
  = replace_first_key (items ++ items') runs (full_text runs).
Proof.
  induction items as [|[key value] items IH].
  - apply replace_first_key_passed_over. by left.
  - simpl. by rewrite IH.
Qed.

(** C10: an empty key in the map changes nothing.  [find] answers 0
    for it in every text, no run overlaps its occurrence, the key is
    passed over, and every pass, and so the whole loop with any number
    of passes allowed, does exactly what it does with the map without
    that key: the key causes no modification, and the loop returns
    whenever it returns for the other keys. *)
Theorem C10_empty_key_is_skipped
    (items : Placeholders) (v : str) (items' : Placeholders)
    (paragraph : Paragraph) :
  find (full_text paragraph) [] = 0 /\
  runs_to_modify paragraph 0 0 0 (0 + len []) = [] /\
  replace_span paragraph 0 (0 + len []) v = None /\
  replace_once (items ++ ([], v) :: items') paragraph
  = replace_once (items ++ items') paragraph /\
  forall fuel,
    _replace_in_paragraph fuel (items ++ ([], v) :: items') paragraph
    = _replace_in_paragraph fuel (items ++ items') paragraph.
Proof.
  split; [apply find_empty_key|].
  split; [by apply runs_to_modify_after|].
  split; [apply replace_span_empty_key|].
  split; [apply replace_first_key_drop_empty_key|].
  intros fuel. revert paragraph.
  induction fuel as [|fuel IH]; intros paragraph; simpl; [done|].
  unfold replace_once. rewrite replace_first_key_drop_empty_key.
  destruct (replace_first_key _ _ _); [apply IH | done].
Qed.


(** ** The loop over the passes *)

Section Loop.
Variable placeholders : Placeholders.
Implicit Types paragraph : Paragraph.

Lemma replace_once_None_clean paragraph :
  replace_once placeholders paragraph = None -> clean placeholders paragraph.
Proof.
  intros H%replace_first_key_None key value Hin Hk.
  rewrite List.Forall_forall in H. apply list_elem_of_In in Hin.
  destruct (H _ Hin) as [?|?]; done.
Qed.

Lemma replace_once_frame paragraph paragraph' :
  replace_once placeholders paragraph = Some paragraph' ->
  length paragraph' = length paragraph /\ map rPr paragraph' = map rPr paragraph.
Proof.
  intros H. apply replace_first_key_Some in H
    as (skipped & key & value & rest & _ & _ & _ & _ & Hr).
  by apply replace_span_frame in Hr.
Qed.

(** The loop returns only a paragraph at which a pass finds nothing. *)
Lemma loop_fixed_point fuel paragraph paragraph' :
  _replace_in_paragraph fuel placeholders paragraph = Some paragraph' ->
  replace_once placeholders paragraph' = None.
Proof.
  revert paragraph. induction fuel as [|fuel IH]; intros paragraph; simpl; [done|].
  destruct (replace_once placeholders paragraph) as [p1|] eqn:E.
  - apply IH.
  - by intros [= <-].
Qed.

Lemma loop_at_fixed_point fuel paragraph :
  replace_once placeholders paragraph = None ->
  _replace_in_paragraph (S fuel) placeholders paragraph = Some paragraph.
Proof. intros H. simpl. by rewrite H. Qed.

Lemma loop_frame fuel paragraph paragraph' :
  _replace_in_paragraph fuel placeholders paragraph = Some paragraph' ->
  length paragraph' = length paragraph /\ map rPr paragraph' = map rPr paragraph.
Proof.
  revert paragraph. induction fuel as [|fuel IH]; intros paragraph; simpl; [done|].
  destruct (replace_once placeholders paragraph) as [p1|] eqn:E.
  - intros H. destruct (IH _ H) as [-> ->]. by apply replace_once_frame.
  - by intros [= <-].
Qed.

(** The loop makes [n] passes that replace and a last one that finds
    nothing, when it is allowed that many. *)
Lemma loop_passes n fuel paragraph paragraph' :
  passes n placeholders paragraph = Some paragraph' ->
  replace_once placeholders paragraph' = None ->
  _replace_in_paragraph fuel placeholders paragraph
  = if (n <? fuel)%nat then Some paragraph' else None.
Proof.
  revert fuel paragraph. induction n as [|n IH]; intros fuel paragraph; simpl.
  - intros [= <-] H. destruct fuel; [done|]. by apply loop_at_fixed_point.
  - destruct (replace_once placeholders paragraph) as [p1|] eqn:E; [|done].
    intros Hp Hn. destruct fuel as [|fuel]; [done|]. simpl. rewrite E.
    by rewrite (IH fuel p1).
Qed.

(** While every pass replaces, the loop is still running. *)
Lemma loop_still_running n paragraph :
  is_Some (passes n placeholders paragraph) ->
  _replace_in_paragraph n placeholders paragraph = None.
Proof.
  revert paragraph. induction n as [|n IH]; intros paragraph; simpl; [done|].
  destruct (replace_once placeholders paragraph) as [p1|]; [apply IH|].
  by intros [? ?].
Qed.

(** A key that is not empty and occurs keeps the loop going. *)
Lemma replace_once_while_a_key_occurs key value paragraph :
  (key, value) ∈ placeholders -> key <> [] ->
  find (full_text paragraph) key <> -1 ->
  is_Some (replace_once placeholders paragraph).
Proof.
  intros Hin Hk Hf.
  destruct (replace_once placeholders paragraph) as [p1|] eqn:E; [by eexists|].
  apply replace_once_None_clean in E. by specialize (E key value Hin Hk).
Qed.
End Loop.

(** ** The walk over the tree *)

Section ForEach.
Context {A : Type} (f : A -> option A).

Lemma for_each_cons_Some x l l' :
  for_each f (x :: l) = Some l' ->
  exists y l'', l' = y :: l'' /\ f x = Some y /\ for_each f l = Some l''.
Proof.
  simpl. destruct (f x) as [y|]; [|done].
  destruct (for_each f l) as [l''|]; [|done].
  intros [= <-]. by exists y, l''.
Qed.

(** What holds between every element and its result holds between the
    images of the list and of its result. *)
Lemma for_each_map_eq {B} (g : A -> B) l :
  Forall (fun x => forall y, f x = Some y -> g y = g x) l ->
  forall l', for_each f l = Some l' -> map g l' = map g l.
Proof.
  induction 1 as [|x l Hx _ IH]; intros l' H.
  - by injection H as <-.
  - apply for_each_cons_Some in H as (y & l'' & -> & Hy & Hl).
    simpl. by rewrite (Hx _ Hy), (IH _ Hl).
Qed.

(** A second loop over the results of a first one, when its body
    leaves every result of the first body as it is. *)
Lemma for_each_again (f' : A -> option A) l :
  Forall (fun x => forall y, f x = Some y -> f' y = Some y) l ->
  forall l', for_each f l = Some l' -> for_each f' l' = Some l'.
Proof.
  induction 1 as [|x l Hx _ IH]; intros l' H.
  - by injection H as <-.
  - apply for_each_cons_Some in H as (y & l'' & -> & Hy & Hl).
    simpl. by rewrite (Hx _ Hy), (IH _ Hl).
Qed.

Lemma for_each_concat {B} (parts : A -> list B) (R : B -> B -> Prop) l :
  Forall (fun x => forall y, f x = Some y -> Forall2 R (parts x) (parts y)) l ->
  forall l', for_each f l = Some l' ->
    Forall2 R (concat (map parts l)) (concat (map parts l')).
Proof.
  induction 1 as [|x l Hx _ IH]; intros l' H.
  - injection H as <-. constructor.
  - apply for_each_cons_Some in H as (y & l'' & -> & Hy & Hl).
    simpl. apply Forall2_app; [by apply Hx | by apply IH].
Qed.

Lemma for_each_is_Some {B} (parts : A -> list B) (Q : B -> Prop) l :
  Forall (fun x => Forall Q (parts x) -> is_Some (f x)) l ->
  Forall Q (concat (map parts l)) -> is_Some (for_each f l).
Proof.
  induction 1 as [|x l Hx _ IH]; simpl; [by eexists|].
  intros [Hq Hl]%Forall_app.
  destruct (Hx Hq) as [y ->]. destruct (IH Hl) as [l' ->]. by eexists.
Qed.

Lemma for_each_Forall2 l l' :
  for_each f l = Some l' -> Forall2 (fun x y => f x = Some y) l l'.
Proof.
  revert l'. induction l as [|x l IH]; intros l' H.
  - injection H as <-. constructor.
  - apply for_each_cons_Some in H as (y & l'' & -> & Hy & Hl).
    constructor; [done | by apply IH].
Qed.

Lemma for_each_all_Some l :
  Forall (fun x => is_Some (f x)) l -> is_Some (for_each f l).
Proof.
  induction 1 as [|x l [y Hy] _ [l' IH]]; simpl; [by eexists|].
  rewrite Hy, IH. by eexists.
Qed.
End ForEach.

Section Walk.
Variables (fuel : nat) (placeholders : Placeholders).

Lemma replace_in_block_Some ps ts block' :
  _replace_in_block fuel placeholders (mkBlock ps ts) = Some block' ->
  exists ps' ts',
    block' = mkBlock ps' ts' /\
    for_each (_replace_in_paragraph fuel placeholders) ps = Some ps' /\
    for_each (for_each (for_each (_replace_in_block fuel placeholders))) ts = Some ts'.
Proof.
  simpl. destruct (for_each _ ps) as [ps'|]; [|done].
  destruct (for_each _ ts) as [ts'|]; [|done].
  intros [= <-]. by exists ps', ts'.
Qed.

(** Every paragraph reachable from the block goes through the loop of
    [_replace_in_paragraph], and the paragraphs reachable from the
    result are what the loop returned for them, in the same order. *)
Lemma replace_in_block_reach block block' :
  _replace_in_block fuel placeholders block = Some block' ->
  Forall2 (fun p p' => _replace_in_paragraph fuel placeholders p = Some p')
    (block_paragraphs block) (block_paragraphs block').
Proof.
  revert block'. induction block as [ps ts IH] using Block_nested_ind.
  intros block' (ps' & ts' & -> & Hps & Hts)%replace_in_block_Some.
  simpl. apply Forall2_app; [by apply for_each_Forall2|].
  revert ts' Hts. apply for_each_concat.
  eapply List.Forall_impl; [|exact IH]. intros t IHt.
  apply for_each_concat.
  eapply List.Forall_impl; [|exact IHt]. intros r IHr.
  by apply for_each_concat.
Qed.

(** The walk returns when the loop returns at every reachable
    paragraph. *)
Lemma replace_in_block_is_Some block :
  Forall (fun p => is_Some (_replace_in_paragraph fuel placeholders p))
    (block_paragraphs block) ->
  is_Some (_replace_in_block fuel placeholders block).
Proof.
  induction block as [ps ts IH] using Block_nested_ind.
  simpl. intros [Hps Hts]%Forall_app.
  destruct (for_each_all_Some _ _ Hps) as [ps' ->].
  enough (is_Some (for_each (for_each (for_each
            (_replace_in_block fuel placeholders))) ts)) as [ts' ->] by (by eexists).
  revert Hts. apply for_each_is_Some.
  eapply List.Forall_impl; [|exact IH]. intros t IHt.
  apply for_each_is_Some.
  eapply List.Forall_impl; [|exact IHt]. intros r IHr.
  by apply for_each_is_Some.
Qed.

Lemma blank_runs_rPr (p p' : Paragraph) :
  map rPr p' = map rPr p -> map (with_text []) p' = map (with_text []) p.
Proof.
  intros H.
  assert (forall q : Paragraph, map (with_text []) q = map (mkRun []) (map rPr q)) as E
    by (intros q; by rewrite map_map).
  by rewrite !E, H.
Qed.

(** The walk changes nothing but the text of runs. *)
Lemma replace_in_block_frame block block' :
  _replace_in_block fuel placeholders block = Some block' ->
  blank_block block' = blank_block block.
Proof.
  revert block'. induction block as [ps ts IH] using Block_nested_ind.
  intros block' (ps' & ts' & -> & Hps & Hts)%replace_in_block_Some.
  simpl. f_equal.
  - revert ps' Hps. apply for_each_map_eq. apply List.Forall_forall.
    intros p _ p' Hp. apply blank_runs_rPr. by apply loop_frame in Hp as [_ Hp].
  - revert ts' Hts. apply for_each_map_eq.
    eapply List.Forall_impl; [|exact IH]. intros t IHt.
    apply for_each_map_eq.
    eapply List.Forall_impl; [|exact IHt]. intros r IHr.
    by apply for_each_map_eq.
Qed.

(** A second walk over the result of a walk changes nothing. *)
Lemma replace_in_block_again fuel' block block' :
  _replace_in_block fuel placeholders block = Some block' ->
  _replace_in_block (S fuel') placeholders block' = Some block'.
Proof.
  revert block'. induction block as [ps ts IH] using Block_nested_ind.
  intros block' (ps' & ts' & -> & Hps & Hts)%replace_in_block_Some.
  cbn [_replace_in_block paragraphs tables].
  assert (for_each (_replace_in_paragraph (S fuel') placeholders) ps' = Some ps')
    as ->.
  { revert ps' Hps. apply for_each_again. apply List.Forall_forall.
    intros p _ p' Hp. apply loop_at_fixed_point. by apply loop_fixed_point in Hp. }
  assert (for_each (for_each (for_each (_replace_in_block (S fuel') placeholders)))
            ts' = Some ts') as ->; [|done].
  revert ts' Hts. apply for_each_again.
  eapply List.Forall_impl; [|exact IH]. intros t IHt.
  apply for_each_again.
  eapply List.Forall_impl; [|exact IHt]. intros r IHr.
  by apply for_each_again.
Qed.
End Walk.

(** A second walk over the result of a walk, with as many passes
    allowed, changes nothing. *)
Lemma replace_in_block_settled fuel placeholders block block' :
  _replace_in_block fuel placeholders block = Some block' ->
  _replace_in_block fuel placeholders block' = Some block'.
Proof.
  destruct fuel as [|fuel']; [|apply replace_in_block_again].
  revert block'. induction block as [ps ts IH] using Block_nested_ind.
  intros block' (ps' & ts' & -> & Hps & Hts)%replace_in_block_Some.
  cbn [_replace_in_block paragraphs tables].
  assert (for_each (_replace_in_paragraph 0 placeholders) ps' = Some ps') as ->.
  { revert ps' Hps. apply for_each_again. apply List.Forall_forall.
    by intros p _ p' Hp. }
  assert (for_each (for_each (for_each (_replace_in_block 0 placeholders)))
            ts' = Some ts') as ->; [|done].
  revert ts' Hts. apply for_each_again.
  eapply List.Forall_impl; [|exact IH]. intros t IHt.
  apply for_each_again.
  eapply List.Forall_impl; [|exact IHt]. intros r IHr.
  by apply for_each_again.
Qed.

(** ** Headers and footers *)

Section Sections.
Variables (fuel : nat) (placeholders : Placeholders).
Implicit Types done todo : list Section_.
Implicit Types hf : HeaderFooter.

Lemma defining_section_0 hf (l : list Section_) : defining_section hf l 0 = 0%nat.
Proof. simpl. by destruct (l !! 0%nat ≫= definition hf). Qed.

Lemma defining_section_here hf (l : list Section_) i block :
  l !! i ≫= definition hf = Some block -> defining_section hf l i = i.
Proof. intros H. destruct i; simpl; by rewrite H. Qed.

Lemma defining_section_S hf (l : list Section_) i :
  l !! S i ≫= definition hf = None ->
  defining_section hf l (S i) = defining_section hf l i.
Proof. intros H. simpl. by rewrite H. Qed.

Lemma defining_section_le hf (l : list Section_) i :
  (defining_section hf l i <= i)%nat.
Proof.
  induction i as [|i IH]; simpl; destruct (l !! _ ≫= definition hf); lia.
Qed.

Lemma defining_section_app hf (l r : list Section_) i :
  (i < length l)%nat ->
  defining_section hf (l ++ r) i = defining_section hf l i.
Proof.
  induction i as [|i IH]; intros Hi; simpl.
  - by rewrite lookup_app_l by done.
  - rewrite lookup_app_l by done. rewrite IH by lia. done.
Qed.

(** When the first section defines a header, every section shows one
    that is defined. *)
Lemma defining_section_defined hf (l : list Section_) i :
  is_Some (l !! 0%nat ≫= definition hf) ->
  is_Some (l !! defining_section hf l i ≫= definition hf).
Proof.
  intros H0. induction i as [|i IH]; simpl.
  - by destruct (l !! 0%nat ≫= definition hf) eqn:E; [rewrite E|].
  - by destruct (l !! S i ≫= definition hf) eqn:E; [rewrite E|].
Qed.

Lemma with_definition_set hf block (section : Section_) :
  with_definition hf block section = set_definition hf (Some block) section.
Proof. by destruct hf. Qed.

Lemma set_definition_same hf (section : Section_) :
  set_definition hf (definition hf section) section = section.
Proof. by destruct hf, section. Qed.

Lemma alter_with_definition_same hf (l : list Section_) j block :
  l !! j ≫= definition hf = Some block ->
  alter (with_definition hf block) j l = l.
Proof.
  intros H. destruct (l !! j) as [section|] eqn:E; [|done]. simpl in H.
  apply list_eq. intros k. destruct (decide (k = j)) as [->|Hk].
  - rewrite list_lookup_alter, E. simpl. rewrite decide_True by done.
    by rewrite with_definition_set, <- H, set_definition_same.
  - by rewrite list_lookup_alter_ne.
Qed.

(** Line 159 or 160 at the first section. *)
Lemma replace_in_header_footer_first hf (section : Section_) todo :
  replace_in_header_footer fuel placeholders hf (section :: todo) 0
  = option_map (fun d => set_definition hf d section :: todo)
      (replace_in_definition fuel placeholders
         (Some (default default_block (definition hf section)))).
Proof.
  unfold replace_in_header_footer, get_or_add_definition.
  rewrite defining_section_0.
  destruct (definition hf section) as [block|] eqn:Hd.
  - assert ((section :: todo) !! 0%nat ≫= definition hf = Some block) as ->
      by done.
    cbn [replace_in_definition default from_option id].
    destruct (_replace_in_block fuel placeholders block) as [block'|]; [|done].
    simpl. by rewrite with_definition_set.
  - assert ((section :: todo) !! 0%nat ≫= definition hf = None) as -> by done.
    cbn [replace_in_definition default from_option].
    destruct (_replace_in_block fuel placeholders default_block) as [block'|];
      [|done].
    simpl. rewrite !with_definition_set. by destruct hf.
Qed.

(** Line 159 or 160 at a later section, the sections before it having
    been dealt with: the section's own header is rewritten; when it has
    none, the header that it shows is one that was dealt with, and
    nothing changes. *)
Lemma replace_in_header_footer_next hf first done (section : Section_) todo :
  is_Some (definition hf first) ->
  Forall (fun s => forall block,
            definition hf s = Some block ->
            _replace_in_block fuel placeholders block = Some block)
    (first :: done) ->
  replace_in_header_footer fuel placeholders hf
    ((first :: done) ++ section :: todo) (length (first :: done))
  = option_map (fun d => (first :: done) ++ set_definition hf d section :: todo)
      (replace_in_definition fuel placeholders (definition hf section)).
Proof.
  intros Hfirst Hsettled. set (l := first :: done) in *.
  unfold replace_in_header_footer, get_or_add_definition.
  assert ((l ++ section :: todo) !! length l = Some section) as Hi
    by (by apply list_lookup_middle).
  assert (length l = S (length done)) as Hlen by done.
  destruct (definition hf section) as [block|] eqn:Hd.
  - assert ((l ++ section :: todo) !! length l ≫= definition hf = Some block)
      as Hb by (by rewrite Hi).
    rewrite (defining_section_here _ _ _ _ Hb), Hb. cbn [replace_in_definition].
    destruct (_replace_in_block fuel placeholders block) as [block'|]; [|done].
    cbn [option_map]. f_equal.
    rewrite <- (Nat.add_0_r (length l)). rewrite alter_app_r.
    by rewrite <- with_definition_set.
  - assert ((l ++ section :: todo) !! S (length done) ≫= definition hf = None)
      as Hn by (by rewrite <- Hlen, Hi).
    rewrite Hlen, (defining_section_S _ _ _ Hn).
    rewrite defining_section_app by lia.
    set (j := defining_section hf l (length done)).
    assert (j < length l)%nat as Hj.
    { pose proof (defining_section_le hf l (length done)) as Hle.
      fold j in Hle. lia. }
    destruct (defining_section_defined hf l (length done)) as [block Hb];
      [done|]. fold j in Hb.
    rewrite lookup_app_l by done. rewrite Hb.
    assert (_replace_in_block fuel placeholders block = Some block) as ->.
    { destruct (l !! j) as [s|] eqn:Hs; [|done]. simpl in Hb.
      rewrite List.Forall_forall in Hsettled. apply (Hsettled s); [|done].
      apply list_elem_of_In. by eapply list_elem_of_lookup_2. }
    cbn [replace_in_definition option_map]. f_equal.
    rewrite <- Hd, set_definition_same.
    apply alter_with_definition_same. by rewrite lookup_app_l by done.
Qed.

Lemma replace_in_definition_settled d d' :
  replace_in_definition fuel placeholders d = Some d' ->
  forall block, d' = Some block ->
    _replace_in_block fuel placeholders block = Some block.
Proof.
  destruct d as [b|]; simpl; [|by intros [= <-]].
  destruct (_replace_in_block fuel placeholders b) as [b'|] eqn:E; [|done].
  intros [= <-] block [= <-]. by eapply replace_in_block_settled.
Qed.

Lemma replace_in_own_settled (section section' : Section_) :
  replace_in_own fuel placeholders section = Some section' ->
  forall hf block,
    definition hf section' = Some block ->
    _replace_in_block fuel placeholders block = Some block.
Proof.
  unfold replace_in_own.
  destruct (replace_in_definition _ _ (header section)) as [h|] eqn:Hh; [|done].
  destruct (replace_in_definition _ _ (footer section)) as [f|] eqn:Hf; [|done].
  intros [= <-] [|] block Hb; simpl in Hb.
  - exact (replace_in_definition_settled _ _ Hh _ Hb).
  - exact (replace_in_definition_settled _ _ Hf _ Hb).
Qed.

Lemma replace_in_own_is_Some_definition hf (section section' : Section_) :
  replace_in_own fuel placeholders section = Some section' ->
  is_Some (definition hf section) -> is_Some (definition hf section').
Proof.
  unfold replace_in_own.
  destruct (replace_in_definition _ _ (header section)) as [h|] eqn:Hh; [|done].
  destruct (replace_in_definition _ _ (footer section)) as [f|] eqn:Hf; [|done].
  intros [= <-]. destruct hf; simpl; intros [b Hb]; rewrite Hb in *; simpl in *.
  - destruct (_replace_in_block _ _ b); simplify_eq/=; by eexists.
  - destruct (_replace_in_block _ _ b); simplify_eq/=; by eexists.
Qed.

(** The two lines at a later section. *)
Lemma replace_in_section_next first done (section : Section_) todo :
  is_Some (header first) -> is_Some (footer first) ->
  Forall (fun s => forall hf block,
            definition hf s = Some block ->
            _replace_in_block fuel placeholders block = Some block)
    (first :: done) ->
  match replace_in_header_footer fuel placeholders Header
          ((first :: done) ++ section :: todo) (length (first :: done)) with
  | None => None
  | Some sections1 =>
      replace_in_header_footer fuel placeholders Footer sections1
        (length (first :: done))
  end
  = option_map (fun s' => (first :: done) ++ s' :: todo)
      (replace_in_own fuel placeholders section).
Proof.
  intros Hh Hf Hsettled.
  rewrite (replace_in_header_footer_next Header) by
    (try done; revert Hsettled; apply List.Forall_impl; intros s H; apply H).
  unfold replace_in_own. simpl definition.
  destruct (replace_in_definition fuel placeholders (header section)) as [h|];
    [|done].
  cbn [option_map set_definition].
  rewrite (replace_in_header_footer_next Footer) by
    (try done; revert Hsettled; apply List.Forall_impl; intros s H; apply H).
  simpl definition.
  by destruct (replace_in_definition fuel placeholders (footer section)).
Qed.

(** The loop over the sections after the first. *)
Lemma replace_in_sections_from first done todo :
  is_Some (header first) -> is_Some (footer first) ->
  Forall (fun s => forall hf block,
            definition hf s = Some block ->
            _replace_in_block fuel placeholders block = Some block)
    (first :: done) ->
  replace_in_sections fuel placeholders
    (seq (length (first :: done)) (length todo)) ((first :: done) ++ todo)
  = option_map (app (first :: done))
      (for_each (replace_in_own fuel placeholders) todo).
Proof.
  intros Hh Hf. revert done.
  induction todo as [|section todo IH]; intros done Hsettled.
  - simpl. by rewrite app_nil_r.
  - cbn [length seq replace_in_sections].
    pose proof (replace_in_section_next first done section todo Hh Hf Hsettled)
      as Hstep.
    cbn [length] in Hstep.
    destruct (replace_in_header_footer fuel placeholders Header _ _)
      as [sections1|]; simpl in Hstep.
    + rewrite Hstep. simpl for_each.
      destruct (replace_in_own fuel placeholders section) as [s'|] eqn:Hs';
        [|done].
      cbn [option_map].
      pose proof (IH (done ++ [s'])) as IH'.
      cbn [length app] in IH'. rewrite length_app in IH'. cbn [length] in IH'.
      rewrite Nat.add_1_r, <- app_assoc in IH'. cbn [app] in IH'.
      rewrite IH'.
      * destruct (for_each _ todo) as [todo'|]; [|done]. simpl.
        by rewrite <- app_assoc.
      * rewrite app_comm_cons. apply Forall_app. split; [done|].
        constructor; [|constructor]. by apply (replace_in_own_settled section).
    + simpl for_each.
      by destruct (replace_in_own fuel placeholders section).
Qed.

(** Lines 158-160: the header and the footer that each section
    defines go through [_replace_in_block], the first section having
    both when they are read; a section that defines none shows one that
    has been dealt with, and going through it again changes nothing. *)
Lemma replace_in_sections_own (sections : list Section_) :
  replace_in_sections fuel placeholders (seq 0 (length sections)) sections
  = for_each (replace_in_own fuel placeholders) (with_defaults sections).
Proof.
  destruct sections as [|first todo]; [done|].
  cbn [length seq replace_in_sections with_defaults for_each].
  rewrite (replace_in_header_footer_first Header).
  unfold replace_in_own at 1, add_missing. cbn [header footer definition].
  destruct (replace_in_definition fuel placeholders
              (Some (default default_block (header first)))) as [h|] eqn:Eh;
    [|done].
  cbn [option_map set_definition].
  rewrite (replace_in_header_footer_first Footer). cbn [footer definition].
  destruct (replace_in_definition fuel placeholders
              (Some (default default_block (footer first)))) as [f|] eqn:Ef;
    [|done].
  cbn [option_map set_definition header].
  assert (is_Some h /\ is_Some f) as [Hh Hf].
  { simpl in Eh, Ef.
    destruct (_replace_in_block _ _ (default default_block (header first)));
      [|done].
    destruct (_replace_in_block _ _ (default default_block (footer first)));
      [|done].
    simplify_eq/=. split; by eexists. }
  pose proof (replace_in_sections_from (mkSection h f) [] todo Hh Hf) as H.
  simpl in H. rewrite H; [by destruct (for_each _ todo)|].
  constructor; [|constructor]. intros [|] block Hb; simpl in Hb.
  - exact (replace_in_definition_settled _ _ Eh _ Hb).
  - exact (replace_in_definition_settled _ _ Ef _ Hb).
Qed.

(** The sections that the loop leaves have their first section with
    header and footer. *)
Lemma with_defaults_for_each (sections sections' : list Section_) :
  for_each (replace_in_own fuel placeholders) (with_defaults sections)
  = Some sections' ->
  with_defaults sections' = sections'.
Proof.
  destruct sections as [|first todo]; [by intros [= <-]|].
  intros (s' & l' & -> & Hs & _)%for_each_cons_Some. simpl. f_equal.
  unfold add_missing.
  destruct (replace_in_own_is_Some_definition Header _ _ Hs) as [h Hh];
    [by eexists|].
  destruct (replace_in_own_is_Some_definition Footer _ _ Hs) as [f Hf];
    [by eexists|].
  simpl in Hh, Hf. destruct s'. simpl in *. by subst.
Qed.

Lemma with_defaults_idemp (sections : list Section_) :
  with_defaults (with_defaults sections) = with_defaults sections.
Proof. by destruct sections as [|[[h|] [f|]] todo]. Qed.

Lemma replace_in_own_Some (section section' : Section_) :
  replace_in_own fuel placeholders section = Some section' ->
  exists h f,
    section' = mkSection h f /\
    replace_in_definition fuel placeholders (header section) = Some h /\
    replace_in_definition fuel placeholders (footer section) = Some f.
Proof.
  unfold replace_in_own.
  destruct (replace_in_definition _ _ (header section)) as [h|]; [|done].
  destruct (replace_in_definition _ _ (footer section)) as [f|]; [|done].
  intros [= <-]. by exists h, f.
Qed.

Lemma replace_in_definition_reach d d' :
  replace_in_definition fuel placeholders d = Some d' ->
  Forall2 (fun p p' => _replace_in_paragraph fuel placeholders p = Some p')
    (from_option block_paragraphs [] d) (from_option block_paragraphs [] d').
Proof.
  destruct d as [b|]; simpl; [|intros [= <-]; constructor].
  destruct (_replace_in_block fuel placeholders b) as [b'|] eqn:E; [|done].
  intros [= <-]. simpl. by apply replace_in_block_reach.
Qed.

Lemma replace_in_definition_is_Some d :
  Forall (fun p => is_Some (_replace_in_paragraph fuel placeholders p))
    (from_option block_paragraphs [] d) ->
  is_Some (replace_in_definition fuel placeholders d).
Proof.
  destruct d as [b|]; simpl; [|by eexists].
  intros [b' ->]%replace_in_block_is_Some. by eexists.
Qed.

Lemma replace_in_definition_frame d d' :
  replace_in_definition fuel placeholders d = Some d' ->
  option_map blank_block d' = option_map blank_block d.
Proof.
  destruct d as [b|]; simpl; [|by intros [= <-]].
  destruct (_replace_in_block fuel placeholders b) as [b'|] eqn:E; [|done].
  intros [= <-]. simpl. f_equal. by eapply replace_in_block_frame.
Qed.

Lemma replace_in_definition_again fuel' d d' :
  replace_in_definition fuel placeholders d = Some d' ->
  replace_in_definition (S fuel') placeholders d' = Some d'.
Proof.
  destruct d as [b|]; simpl; [|by intros [= <-]].
  destruct (_replace_in_block fuel placeholders b) as [b'|] eqn:E; [|done].
  intros [= <-]. simpl. by rewrite (replace_in_block_again _ _ fuel' _ _ E).
Qed.
End Sections.

Section Document.
Variables (fuel : nat) (placeholders : Placeholders).

Lemma replace_placeholders_Some doc doc' :
  replace_placeholders fuel placeholders doc = Some doc' ->
  exists b ss,
    doc' = mkDocument b ss /\
    _replace_in_block fuel placeholders (body doc) = Some b /\
    for_each (replace_in_own fuel placeholders) (with_defaults (sections doc))
    = Some ss.
Proof.
  unfold replace_placeholders. rewrite replace_in_sections_own.
  destruct (_replace_in_block _ _ (body doc)) as [b|]; [|done].
  destruct (for_each _ (with_defaults (sections doc))) as [ss|]; [|done].
  intros [= <-]. by exists b, ss.
Qed.

Lemma replace_placeholders_reach doc doc' :
  replace_placeholders fuel placeholders doc = Some doc' ->
  Forall2 (fun p p' => _replace_in_paragraph fuel placeholders p = Some p')
    (document_paragraphs doc) (document_paragraphs doc').
Proof.
  intros (b & ss & -> & Hb & Hss)%replace_placeholders_Some.
  unfold document_paragraphs. cbn [body sections].
  rewrite (with_defaults_for_each _ _ _ _ Hss).
  apply Forall2_app; [by apply replace_in_block_reach|].
  revert ss Hss. apply for_each_concat. apply List.Forall_forall.
  intros section _ section' (h & f & -> & Hh & Hf)%replace_in_own_Some.
  unfold section_paragraphs. cbn [header footer].
  apply Forall2_app; by apply replace_in_definition_reach.
Qed.

Lemma replace_placeholders_is_Some doc :
  Forall (fun p => is_Some (_replace_in_paragraph fuel placeholders p))
    (document_paragraphs doc) ->
  is_Some (replace_placeholders fuel placeholders doc).
Proof.
  unfold document_paragraphs, replace_placeholders.
  rewrite replace_in_sections_own.
  intros [Hb Hss]%Forall_app.
  destruct (replace_in_block_is_Some _ _ _ Hb) as [b ->].
  enough (is_Some (for_each (replace_in_own fuel placeholders)
                     (with_defaults (sections doc))))
    as [ss ->] by (by eexists).
  revert Hss. apply for_each_is_Some. apply List.Forall_forall.
  intros section _ [Hh Hf]%Forall_app. unfold replace_in_own.
  destruct (replace_in_definition_is_Some _ _ _ Hh) as [h ->].
  destruct (replace_in_definition_is_Some _ _ _ Hf) as [f ->]. by eexists.
Qed.

Lemma replace_placeholders_frame doc doc' :
  replace_placeholders fuel placeholders doc = Some doc' ->
  blank_document doc' = blank_document (as_read doc).
Proof.
  intros (b & ss & -> & Hb & Hss)%replace_placeholders_Some.
  unfold blank_document, as_read. cbn [body sections].
  f_equal; [by eapply replace_in_block_frame|].
  revert ss Hss. apply for_each_map_eq. apply List.Forall_forall.
  intros section _ section' (h & f & -> & Hh & Hf)%replace_in_own_Some.
  unfold blank_section. cbn [header footer].
  f_equal; by eapply replace_in_definition_frame.
Qed.

Lemma replace_placeholders_again fuel' doc doc' :
  replace_placeholders fuel placeholders doc = Some doc' ->
  replace_placeholders (S fuel') placeholders doc' = Some doc'.
Proof.
  intros (b & ss & -> & Hb & Hss)%replace_placeholders_Some.
  unfold replace_placeholders. cbn [body sections].
  rewrite replace_in_sections_own.
  rewrite (replace_in_block_again _ _ fuel' _ _ Hb).
  rewrite (with_defaults_for_each _ _ _ _ Hss).
  assert (for_each (replace_in_own (S fuel') placeholders) ss = Some ss)
    as ->; [|done].
  revert ss Hss. apply for_each_again. apply List.Forall_forall.
  intros section _ section' (h & f & -> & Hh & Hf)%replace_in_own_Some.
  unfold replace_in_own. cbn [header footer].
  by rewrite (replace_in_definition_again _ _ fuel' _ _ Hh),
             (replace_in_definition_again _ _ fuel' _ _ Hf).
Qed.
End Document.

(** ** Termination under the discipline of markers *)

Lemma markers_app (marker : ascii -> bool) (x y : str) :
  markers marker (x ++ y) = (markers marker x + markers marker y)%nat.
Proof. unfold markers. by rewrite List.filter_app, length_app. Qed.

(** The same markers in the stored text, when the carriage return and
    the line feed are both markers or both not. *)
Lemma markers_stored (marker : ascii -> bool) (s : str) :
  marker CR = marker LF -> markers marker (stored s) = markers marker s.
Proof.
  intros H. unfold markers, stored. induction s as [|c s IH]; [done|].
  cbn [map List.filter].
  destruct (Ascii.eqb_spec c CR) as [->|_].
  - rewrite H. destruct (marker LF); cbn [length]; by rewrite IH.
  - destruct (marker c); cbn [length]; by rewrite IH.
Qed.

Section Markers.
Variable marker : ascii -> bool.
Variable placeholders : Placeholders.
Hypothesis discipline : disciplined marker placeholders.

(** Each pass that replaces removes a marker from the text. *)
Lemma replace_once_markers paragraph paragraph' :
  replace_once placeholders paragraph = Some paragraph' ->
  (markers marker (full_text paragraph') < markers marker (full_text paragraph))%nat.
Proof using discipline.
  intros (skipped & key & value & rest & B & X & A & lb & la & Hm & _ & Hk & _
          & -> & Hne & -> & Ht & _)%replace_once_Some.
  unfold disciplined in discipline. rewrite Hm in discipline.
  apply Forall_app in discipline as [_ Hd].
  inversion Hd as [|item items [[Hd1 | Hd1] Hv] _]; subst; simpl in Hd1, Hv; [done|].
  rewrite !full_text_app, full_text_overwritten, Ht by done.
  rewrite !markers_app. lia.
Qed.

(** The loop returns within as many passes as the text has markers,
    and one more. *)
Lemma loop_terminates fuel paragraph :
  (markers marker (full_text paragraph) < fuel)%nat ->
  is_Some (_replace_in_paragraph fuel placeholders paragraph).
Proof using discipline.
  revert paragraph. induction fuel as [|fuel IH]; intros paragraph Hlt; [lia|].
  simpl. destruct (replace_once placeholders paragraph) as [p1|] eqn:E.
  - apply IH. apply replace_once_markers in E. lia.
  - by eexists.
Qed.
End Markers.

(** ** More passes allowed *)

Lemma loop_more_fuel placeholders fuel fuel' (paragraph paragraph' : Paragraph) :
  _replace_in_paragraph fuel placeholders paragraph = Some paragraph' ->
  (fuel <= fuel')%nat ->
  _replace_in_paragraph fuel' placeholders paragraph = Some paragraph'.
Proof.
  revert fuel' paragraph. induction fuel as [|fuel IH]; intros fuel' paragraph;
    [done|].
  intros H Hle. destruct fuel' as [|fuel']; [lia|]. simpl in *.
  destruct (replace_once placeholders paragraph) as [p1|]; [|done].
  apply IH; [done | lia].
Qed.

(** Loops that each return when allowed enough passes all return when
    allowed the greatest of these numbers of passes. *)
Lemma loops_common_fuel placeholders (ps : list Paragraph) :
  Forall (fun p => exists fuel,
            is_Some (_replace_in_paragraph fuel placeholders p)) ps ->
  exists fuel,
    Forall (fun p => is_Some (_replace_in_paragraph fuel placeholders p)) ps.
Proof.
  induction 1 as [|p ps [fuel1 [p' Hp]] _ [fuel2 IH]]; [by exists 0%nat|].
  exists (fuel1 `max` fuel2)%nat. constructor.
  - exists p'. eapply loop_more_fuel; [done | lia].
  - revert IH. apply List.Forall_impl. intros q [q' Hq].
    exists q'. eapply loop_more_fuel; [done | lia].
Qed.

(** ** The whole document *)

Lemma loop_forever_a fuel :
  _replace_in_paragraph fuel [(chars "a", chars "a")] [run_of "a"] = None.
Proof. induction fuel as [|fuel IH]; [done|]. exact IH. Qed.

(** C3, as stated, fails.  With an empty key in the map the call
    returns and that key still occurs in the text of the paragraph
    ([find] answers 0); and with a value that contains its key the call
    never returns, however many passes it is allowed. *)
Lemma C3_counterexample :
  (replace_placeholders 1 [([], chars "x")] (one_paragraph [run_of "abc"])
   = Some (one_paragraph [run_of "abc"]) /\
   find (full_text [run_of "abc"]) [] <> -1) /\
  (forall fuel,
     replace_placeholders fuel [(chars "a", chars "a")] (one_paragraph [run_of "a"])
     = None).
Proof.
  split; [by vm_compute|].
  intros fuel. unfold replace_placeholders, one_paragraph. simpl.
  destruct fuel; [done|]. simpl. by rewrite loop_forever_a.
Qed.

(** C3, amended: whenever the call on a document returns, every
    paragraph reachable from it (those of the body, those of the cells
    of the rows of the tables, to any depth, and those of the header
    and of the footer of every section) has gone through the loop of
    [_replace_in_paragraph], and in the text of none of them a key that
    is not empty occurs.  The call returns when the loop returns at
    every reachable paragraph; it does so, in particular, for a map
    that keeps the discipline of markers, within as many passes at each
    paragraph as its text has markers, and one more. *)
Theorem C3_replace_placeholders_reaches_every_paragraph
    (marker : ascii -> bool) (placeholders : Placeholders) (doc : DocumentObject) :
  (forall fuel doc',
     replace_placeholders fuel placeholders doc = Some doc' ->
     Forall2 (fun p p' => _replace_in_paragraph fuel placeholders p = Some p')
       (document_paragraphs doc) (document_paragraphs doc') /\
     Forall (clean placeholders) (document_paragraphs doc')) /\
  (Forall (fun p => exists fuel,
             is_Some (_replace_in_paragraph fuel placeholders p))
     (document_paragraphs doc) ->
   exists fuel doc', replace_placeholders fuel placeholders doc = Some doc') /\
  (disciplined marker placeholders ->
   forall fuel,
     Forall (fun p => (markers marker (full_text p) < fuel)%nat)
       (document_paragraphs doc) ->
     exists doc', replace_placeholders fuel placeholders doc = Some doc').
Proof.
  split; [|split].
  - intros fuel doc' H. apply replace_placeholders_reach in H. split; [done|].
    induction H as [|p p' ps ps' Hp _ IH]; constructor; [|done].
    eapply replace_once_None_clean, loop_fixed_point, Hp.
  - intros [fuel H]%loops_common_fuel. exists fuel.
    by apply replace_placeholders_is_Some.
  - intros Hd fuel Hfuel. apply replace_placeholders_is_Some.
    revert Hfuel. apply List.Forall_impl. intros p. by apply loop_terminates.
Qed.

Lemma C3_witness :
  disciplined is_brace two_keys /\
  Forall (fun p => (markers is_brace (full_text p) < 5)%nat)
    (document_paragraphs nested_document) /\
  exists doc',
    replace_placeholders 5 two_keys nested_document = Some doc' /\
    Forall (clean two_keys) (document_paragraphs doc').
Proof.
  assert (disciplined is_brace two_keys) as Hd.
  { repeat constructor; simpl; right; vm_compute; lia. }
  assert (Forall (fun p => (markers is_brace (full_text p) < 5)%nat)
            (document_paragraphs nested_document)) as Hf.
  { repeat constructor; vm_compute; lia. }
  split; [exact Hd|]. split; [exact Hf|].
  destruct (C3_replace_placeholders_reaches_every_paragraph
              is_brace two_keys nested_document) as (Hpartial & _ & Htotal).
  destruct (Htotal Hd 5%nat Hf) as [doc' Hdoc].
  exists doc'. split; [exact Hdoc|]. exact (proj2 (Hpartial _ _ Hdoc)).
Defined.

(** ** What the engine leaves alone *)

(** C6, as stated, fails.  On a document whose one section defines
    neither header nor footer, the call, with a map without keys,
    leaves the section with a header and a footer, each of one empty
    paragraph: reading [section.header] and [section.footer] has added
    them. *)
Lemma C6_counterexample :
  replace_placeholders 1 [] no_header_no_footer
  = Some (mkDocument (body no_header_no_footer)
            [mkSection (Some default_block) (Some default_block)]) /\
  blank_document
    (mkDocument (body no_header_no_footer)
       [mkSection (Some default_block) (Some default_block)])
  <> blank_document no_header_no_footer.
Proof. split; [by vm_compute | discriminate]. Qed.

(** C6, amended: the engine changes nothing but the text of runs, and
    gives the first section a header and a footer of one empty
    paragraph where it defines none.  A pass leaves a paragraph with as
    many runs, each with its formatting, the runs it empties too; and
    the document that [replace_placeholders] returns is, with all text
    erased, the document it was given, as reading the headers and
    footers leaves it, with all text erased: the same blocks, tables,
    rows and cells, and in each paragraph the same runs in the same
    order with the same formatting.  Reading the headers and footers
    changes nothing when the first section defines both, or there is no
    section. *)
Theorem C6_only_run_text_is_mutated (placeholders : Placeholders) :
  (forall paragraph paragraph',
     replace_once placeholders paragraph = Some paragraph' ->
     length paragraph' = length paragraph /\
     map rPr paragraph' = map rPr paragraph) /\
  (forall fuel doc doc',
     replace_placeholders fuel placeholders doc = Some doc' ->
     blank_document doc' = blank_document (as_read doc)) /\
  (forall doc,
     (forall first, head (sections doc) = Some first ->
        is_Some (header first) /\ is_Some (footer first)) ->
     as_read doc = doc).
Proof.
  split; [|split].
  - intros paragraph paragraph'. apply replace_once_frame.
  - intros fuel doc doc'. apply replace_placeholders_frame.
  - intros [b [|[h f] ss]] H; [done|].
    destruct (H _ eq_refl) as [[h' Hh] [f' Hf]]. simpl in Hh, Hf. by subst.
Qed.

Lemma C6_witness :
  exists doc',
    replace_placeholders 5 two_keys nested_document = Some doc' /\
    blank_document doc' = blank_document nested_document.
Proof.
  eexists. split; [reflexivity|].
  destruct (C6_only_run_text_is_mutated two_keys) as (_ & Hframe & Hread).
  rewrite (Hframe 5%nat nested_document _ eq_refl).
  rewrite (Hread nested_document); [reflexivity|].
  intros first [= <-]. split; by eexists.
Defined.

(** ** A second call *)

Section Weights.
Variable placeholders : Placeholders.
Hypothesis no_key_in_a_value : values_without_keys placeholders.

Lemma holds_a_key_true key value (s x y : str) :
  (key, value) ∈ placeholders -> key <> [] -> s = x ++ key ++ y ->
  holds_a_key placeholders s = true.
Proof.
  intros Hin Hk Hs. apply existsb_exists. exists (key, value).
  split; [by apply list_elem_of_In|]. simpl.
  destruct key as [|c key]; [done|]. simpl.
  destruct (Z.eqb_spec (find s (c :: key)) (-1)) as [Hf|]; [|done].
  by apply (find_none _ _ x y) in Hf.
Qed.

Lemma holds_a_key_false (s : str) :
  (forall key value, (key, value) ∈ placeholders -> key <> [] -> find s key = -1) ->
  holds_a_key placeholders s = false.
Proof.
  intros H. apply not_true_is_false. intros (item & Hin & Hi)%existsb_exists.
  destruct item as [key value]. simpl in Hi.
  apply andb_true_iff in Hi as [Hk Hf].
  rewrite (H key value) in Hf; [done | by apply list_elem_of_In |].
  by destruct key.
Qed.

Lemma holds_a_key_nil : holds_a_key placeholders [] = false.
Proof. apply holds_a_key_false. intros [|c key] value _ Hk; done. Qed.

Lemma holds_a_key_stored key value :
  (key, value) ∈ placeholders -> holds_a_key placeholders (stored value) = false.
Proof using no_key_in_a_value.
  intros Hin. apply holds_a_key_false. intros key' value' Hin' Hk.
  by eapply no_key_in_a_value.
Qed.

Lemma weight_cleared (R : Paragraph) :
  sum_list (map (weight placeholders) (map (with_text []) R)) = 0%nat.
Proof.
  induction R as [|r R IH]; [done|]. simpl. rewrite IH.
  unfold weight. simpl. by rewrite holds_a_key_nil.
Qed.

Lemma weight_overwritten key value (X : Paragraph) :
  (key, value) ∈ placeholders ->
  (sum_list (map (weight placeholders) (overwritten value X)) <= 1)%nat.
Proof using no_key_in_a_value.
  intros Hin. destruct X as [|F R]; simpl; [lia|].
  rewrite weight_cleared. unfold weight. simpl.
  rewrite (holds_a_key_stored key) by done.
  destruct (Nat.eqb _ _); lia.
Qed.

Lemma weight_some_text (X : Paragraph) :
  full_text X <> [] -> (1 <= sum_list (map (weight placeholders) X))%nat.
Proof.
  induction X as [|r X IH]; [done|]. rewrite full_text_cons. simpl.
  unfold weight at 1. destruct (text r) as [|c s] eqn:E; simpl.
  - intros H. specialize (IH H). lia.
  - intros _. lia.
Qed.

(** The runs that a key spans weigh two at least. *)
Lemma weight_span key value (X : Paragraph) (x y : str) :
  (key, value) ∈ placeholders -> key <> [] -> full_text X = x ++ key ++ y ->
  (2 <= sum_list (map (weight placeholders) X))%nat.
Proof.
  intros Hin Hk. induction X as [|r X IH].
  - intros H. symmetry in H. apply app_eq_nil in H as [_ H].
    by apply app_eq_nil in H as [-> _].
  - rewrite full_text_cons. simpl. intros H.
    destruct (text r) as [|c s] eqn:E.
    + specialize (IH H). lia.
    + destruct (full_text X) as [|c' s'] eqn:EX.
      * rewrite app_nil_r in H. unfold weight at 1. rewrite E. simpl.
        rewrite (holds_a_key_true key value (c :: s) x y) by done. lia.
      * pose proof (weight_some_text X) as H1. rewrite EX in H1.
        specialize (H1 ltac:(done)).
        unfold weight at 1. rewrite E. simpl. lia.
Qed.

Lemma paragraph_weight_app (p q : Paragraph) :
  paragraph_weight placeholders (p ++ q)
  = (paragraph_weight placeholders p + paragraph_weight placeholders q)%nat.
Proof. unfold paragraph_weight. by rewrite map_app, sum_list_with_app. Qed.

(** Each pass that replaces takes weight off the paragraph. *)
Lemma replace_once_weight paragraph paragraph' :
  replace_once placeholders paragraph = Some paragraph' ->
  (paragraph_weight placeholders paragraph'
   < paragraph_weight placeholders paragraph)%nat.
Proof using no_key_in_a_value.
  intros (skipped & key & value & rest & B & X & A & lb & la & Hm & _ & Hk & _
          & -> & Hne & -> & Ht & _)%replace_once_Some.
  assert ((key, value) ∈ placeholders) as Hin
    by (rewrite Hm, elem_of_app, elem_of_cons; by right; left).
  rewrite !paragraph_weight_app.
  pose proof (weight_overwritten key value X Hin).
  pose proof (weight_span key value X lb la Hin Hk Ht).
  unfold paragraph_weight at 2 5. lia.
Qed.

Lemma paragraph_weight_bound paragraph :
  (paragraph_weight placeholders paragraph <= 2 * length paragraph)%nat.
Proof.
  unfold paragraph_weight. induction paragraph as [|r p IH]; simpl; [lia|].
  unfold weight at 1.
  destruct (Nat.eqb _ _), (holds_a_key _ _); lia.
Qed.

(** The loop returns within twice as many passes as the paragraph has
    runs, and one more. *)
Lemma loop_terminates_by_weight fuel paragraph :
  (2 * length paragraph < fuel)%nat ->
  is_Some (_replace_in_paragraph fuel placeholders paragraph).
Proof using no_key_in_a_value.
  intros H. pose proof (paragraph_weight_bound paragraph) as Hb.
  assert (paragraph_weight placeholders paragraph < fuel)%nat as Hw by lia.
  clear H Hb. revert paragraph Hw.
  induction fuel as [|fuel IH]; intros paragraph Hw; [lia|].
  simpl. destruct (replace_once placeholders paragraph) as [p1|] eqn:E.
  - apply IH. apply replace_once_weight in E. lia.
  - by eexists.
Qed.
End Weights.

Lemma loop_forever_line_feed fuel :
  _replace_in_paragraph fuel line_feed_key [mkRun [LF] EmptyString] = None.
Proof. induction fuel as [|fuel IH]; [done|]. exact IH. Qed.




(** ** Two tokens in one paragraph *)

Section TwoTokens.
Implicit Types x s key : str.

Lemma brace_free_app x s : brace_free (x ++ s) <-> brace_free x /\ brace_free s.
Proof. unfold brace_free. rewrite markers_app. lia. Qed.

Lemma brace_free_cons c s :
  brace_free (c :: s) <-> Ascii.eqb c "{" = false /\ brace_free s.
Proof.
  unfold brace_free, markers, is_brace. simpl. destruct (Ascii.eqb c "{"); simpl.
  - split; [lia | by intros [? _]].
  - split; [done | by intros [_ ?]].
Qed.

Lemma brace_free_stored s : brace_free (stored s) <-> brace_free s.
Proof. unfold brace_free. by rewrite markers_stored. Qed.

(** A key that starts with a brace does not start inside a text
    without braces. *)
Lemma find_after_brace_free x s key :
  brace_free x ->
  find (x ++ s) ("{"%char :: key)
  = if find s ("{"%char :: key) =? -1 then -1 else len x + find s ("{"%char :: key).
Proof.
  induction x as [|c x IH]; intros Hx.
  - change (len []) with 0. simpl app.
    by destruct (Z.eqb_spec (find s ("{"%char :: key)) (-1)).
  - apply brace_free_cons in Hx as [Hc Hx].
    change (find ((c :: x) ++ s) ("{"%char :: key))
      with (if startswith (c :: x ++ s) ("{"%char :: key) then 0
            else let r := find (x ++ s) ("{"%char :: key) in
                 if r =? -1 then -1 else r + 1).
    change (startswith (c :: x ++ s) ("{"%char :: key))
      with (if Ascii.eqb c "{" then startswith (x ++ s) key else false).
    rewrite Hc. cbv zeta. rewrite (IH Hx).
    pose proof (find_range s ("{"%char :: key)) as Hr.
    pose proof (len_nonneg x).
    destruct (Z.eqb_spec (find s ("{"%char :: key)) (-1)); [done|].
    destruct (Z.eqb_spec (len x + find s ("{"%char :: key)) (-1)); [lia|].
    change (c :: x) with ([c] ++ x). rewrite len_app. change (len [c]) with 1. lia.
Qed.

Lemma find_brace_free x key : brace_free x -> find x ("{"%char :: key) = -1.
Proof.
  intros Hx. rewrite <- (app_nil_r x). by rewrite find_after_brace_free.
Qed.

Lemma find_at_key key s : find (key ++ s) key = 0.
Proof. destruct key; simpl; [by destruct s|]. by rewrite Ascii.eqb_refl, startswith_app. Qed.

Variables a b : ascii.
Hypothesis a_not_b : a <> b.
Hypothesis b_not_brace : b <> "{"%char.

(** No occurrence of [{{a}}] starts inside an occurrence of [{{b}}]. *)
Lemma find_after_other_token s :
  find (token b ++ s) (token a)
  = if find s (token a) =? -1 then -1 else 5 + find s (token a).
Proof using a_not_b b_not_brace.
  assert (Ascii.eqb b a = false) as Hba by (apply Ascii.eqb_neq; congruence).
  assert (Ascii.eqb b "{" = false) as Hb by (by apply Ascii.eqb_neq).
  unfold token at 1. simpl app.
  set (k := token a).
  assert (forall c t, startswith (c :: t) k = false ->
            find (c :: t) k = if find t k =? -1 then -1 else find t k + 1)
    as Hstep.
  { intros c t H.
    change (find (c :: t) k)
      with (if startswith (c :: t) k then 0
            else let r := find t k in if r =? -1 then -1 else r + 1).
    by rewrite H. }
  pose proof (find_range s k) as Hr.
  pose proof (Hstep "}"%char s eq_refl) as E1.
  pose proof (Hstep "}"%char ("}"%char :: s) eq_refl) as E2.
  pose proof (Hstep b ("}"%char :: "}"%char :: s)) as E3.
  pose proof (Hstep "{"%char (b :: "}"%char :: "}"%char :: s)) as E4.
  pose proof (Hstep "{"%char ("{"%char :: b :: "}"%char :: "}"%char :: s)) as E5.
  rewrite E5 by (subst k; simpl; by rewrite Hba).
  rewrite E4 by (subst k; simpl; by rewrite Hb).
  rewrite E3 by (subst k; simpl; by rewrite Hb).
  rewrite E2, E1.
  assert (find s k = -1 \/ 0 <= find s k) as Hr' by lia.
  clear - Hr'. revert Hr'. generalize (find s k). intros r [-> | Hr]; [done|].
  repeat match goal with
         | |- context [if ?x =? -1 then _ else _] =>
             lazymatch x with
             | context [if _ then _ else _] => fail
             | _ => destruct (Z.eqb_spec x (-1)); [lia|]
             end
         end.
  lia.
Qed.

Lemma find_token_after_brace_free x s c :
  brace_free x ->
  find (x ++ s) (token c)
  = if find s (token c) =? -1 then -1 else len x + find s (token c).
Proof. apply find_after_brace_free. Qed.

Lemma find_token_brace_free x c : brace_free x -> find x (token c) = -1.
Proof. apply find_brace_free. Qed.

Lemma find_token_here x s c :
  brace_free x -> find (x ++ token c ++ s) (token c) = len x.
Proof.
  intros Hx. rewrite find_token_after_brace_free, find_at_key by done.
  simpl. lia.
Qed.

(** The token [{{c}}] at offset [len x] of the runs [runs], between
    the runs [R0] and the runs [R2]: the runs that it spans are
    overwritten, and what is left of [runs] is without braces when the
    text around the token and the value are. *)
Lemma replace_token_in_context (R0 runs R2 : Paragraph) c x y v :
  full_text runs = x ++ token c ++ y ->
  brace_free x -> brace_free y -> brace_free v ->
  exists runs',
    replace_span (R0 ++ runs ++ R2) (len (full_text R0) + len x)
      (len (full_text R0) + len x + len (token c)) v
    = Some (R0 ++ runs' ++ R2) /\
    brace_free (full_text runs').
Proof.
  intros Ht Hx Hy Hv.
  pose proof (len_nonneg x) as Hx0.
  destruct (replace_span_effect R0 runs R2 (len x) (len x + len (token c)) v)
    as (B & X & A & lb & la & -> & Hne & _ & Hr & Hb & Ha & _).
  { done. }
  { change (len (token c)) with 5. lia. }
  { rewrite Ht, !len_app. pose proof (len_nonneg y). lia. }
  exists (B ++ overwritten v X ++ A). split.
  - rewrite <- Hr. f_equal. lia.
  - rewrite Ht in Hb, Ha.
    assert (Z.to_nat (len x) = length x) as E1 by (unfold len; lia).
    assert (Z.to_nat (len x + len (token c)) = (length x + length (token c))%nat)
      as E2 by (unfold len; lia).
    rewrite E1, take_app_length in Hb.
    rewrite E2, drop_app_add, drop_app_length in Ha.
    rewrite Hb in Hx. rewrite Ha in Hy.
    apply brace_free_app in Hx as [HB _]. apply brace_free_app in Hy as [_ HA].
    rewrite !full_text_app, full_text_overwritten by done.
    rewrite !brace_free_app, brace_free_stored. done.
Qed.

Section Two.
Variables (pre mid1 mid2 post va vb : str).
Hypothesis pre_free : brace_free pre.
Hypothesis mid1_free : brace_free mid1.
Hypothesis mid2_free : brace_free mid2.
Hypothesis post_free : brace_free post.
Hypothesis va_free : brace_free va.
Hypothesis vb_free : brace_free vb.

Let placeholders : Placeholders := [(token a, va); (token b, vb)].

Lemma no_token_left paragraph :
  brace_free (full_text paragraph) -> replace_once placeholders paragraph = None.
Proof.
  intros H. apply replace_first_key_None.
  constructor; [right; by apply find_token_brace_free|].
  constructor; [right; by apply find_token_brace_free|]. constructor.
Qed.

Lemma two_passes p p1 p2 :
  replace_once placeholders p = Some p1 ->
  replace_once placeholders p1 = Some p2 ->
  brace_free (full_text p2) ->
  two_replacements placeholders p.
Proof.
  intros H1 H2 H3. exists p2.
  assert (passes 2 placeholders p = Some p2) as Hp by (simpl; by rewrite H1, H2).
  assert (replace_once placeholders p2 = None) as Hn by (by apply no_token_left).
  split; [done|]. split; [done|]. intros fuel. by apply loop_passes.
Qed.

Lemma two_tokens_a_then_b runs1 runs2 :
  full_text runs1 = pre ++ token a ++ mid1 ->
  full_text runs2 = mid2 ++ token b ++ post ->
  two_replacements placeholders (runs1 ++ runs2).
Proof using All.
  intros H1 H2.
  destruct (replace_token_in_context [] runs1 runs2 a pre mid1 va H1)
    as (runs1' & Hr1 & Hf1); [done..|].
  destruct (replace_token_in_context runs1' runs2 [] b mid2 post vb H2)
    as (runs2' & Hr2 & Hf2); [done..|].
  change (len (full_text [])) with 0 in Hr1. simpl app in Hr1.
  rewrite !app_nil_r in Hr2.
  apply (two_passes _ (runs1' ++ runs2) (runs1' ++ runs2')).
  - unfold replace_once.
    assert (find (full_text (runs1 ++ runs2)) (token a) = len pre) as Hfind.
    { rewrite full_text_app, H1, <- !app_assoc. by apply find_token_here. }
    unfold placeholders. rewrite (replace_first_key_hit (token a)); [|done|].
    + rewrite Hfind, <- Hr1. f_equal; lia.
    + rewrite Hfind. pose proof (len_nonneg pre). lia.
  - unfold replace_once.
    assert (full_text (runs1' ++ runs2)
            = (full_text runs1' ++ mid2) ++ token b ++ post) as Ht
      by (by rewrite full_text_app, H2, <- !app_assoc).
    assert (brace_free (full_text runs1' ++ mid2)) as Hfree
      by (by rewrite brace_free_app).
    change placeholders with ([(token a, va)] ++ [(token b, vb)]).
    rewrite (replace_first_key_skip [(token a, va)] (token b) vb []).
    + rewrite Ht, find_token_here by done. rewrite <- Hr2, len_app.
      f_equal; lia.
    + constructor; [|constructor]. right. simpl. rewrite Ht.
      rewrite find_token_after_brace_free, find_after_other_token by done.
      by rewrite (find_token_brace_free post).
    + done.
    + rewrite Ht, find_token_here by done.
      pose proof (len_nonneg (full_text runs1' ++ mid2)). lia.
  - by rewrite full_text_app, brace_free_app.
Qed.

Lemma two_tokens_b_then_a runs1 runs2 :
  full_text runs1 = pre ++ token b ++ mid1 ->
  full_text runs2 = mid2 ++ token a ++ post ->
  two_replacements placeholders (runs1 ++ runs2).
Proof using All.
  intros H1 H2.
  destruct (replace_token_in_context runs1 runs2 [] a mid2 post va H2)
    as (runs2' & Hr2 & Hf2); [done..|].
  destruct (replace_token_in_context [] runs1 runs2' b pre mid1 vb H1)
    as (runs1' & Hr1 & Hf1); [done..|].
  change (len (full_text [])) with 0 in Hr1. simpl app in Hr1.
  rewrite !app_nil_r in Hr2.
  apply (two_passes _ (runs1 ++ runs2') (runs1' ++ runs2')).
  - unfold replace_once.
    assert (find (full_text (runs1 ++ runs2)) (token a)
            = len (full_text runs1) + len mid2) as Hfind.
    { rewrite full_text_app, H1, H2, <- !app_assoc.
      rewrite find_token_after_brace_free by done.
      rewrite find_after_other_token.
      rewrite (app_assoc mid1 mid2), find_token_here
        by (by rewrite brace_free_app).
      pose proof (len_nonneg (mid1 ++ mid2)). pose proof (len_nonneg pre).
      destruct (Z.eqb_spec (len (mid1 ++ mid2)) (-1)); [lia|].
      destruct (Z.eqb_spec (5 + len (mid1 ++ mid2)) (-1)); [lia|].
      rewrite !len_app. change (len (token b)) with 5. lia. }
    unfold placeholders. rewrite (replace_first_key_hit (token a)); [|done|].
    + by rewrite Hfind, <- Hr2.
    + rewrite Hfind. pose proof (len_nonneg (full_text runs1)).
      pose proof (len_nonneg mid2). lia.
  - unfold replace_once.
    assert (full_text (runs1 ++ runs2')
            = pre ++ token b ++ (mid1 ++ full_text runs2')) as Ht
      by (by rewrite full_text_app, H1, <- !app_assoc).
    assert (brace_free (mid1 ++ full_text runs2')) as Hfree
      by (by rewrite brace_free_app).
    change placeholders with ([(token a, va)] ++ [(token b, vb)]).
    rewrite (replace_first_key_skip [(token a, va)] (token b) vb []).
    + rewrite Ht, find_token_here by done. rewrite <- Hr1.
      f_equal; lia.
    + constructor; [|constructor]. right. simpl. rewrite Ht.
      rewrite find_token_after_brace_free, find_after_other_token by done.
      by rewrite (find_token_brace_free (mid1 ++ full_text runs2')).
    + done.
    + rewrite Ht, find_token_here by done. pose proof (len_nonneg pre). lia.
  - by rewrite full_text_app, brace_free_app.
Qed.
End Two.
End TwoTokens.

(** C4, as stated, fails, in two ways.  In [{{B}} {{{A}}B}}] each of
    the two tokens occurs once, at offsets 0 and 7, and neither value
    contains a key; but the value of [{{A}}] is a brace, which completes
    a second [{{B}}] with the text around it: the loop makes three
    passes that replace, and returns at its fourth.  And when the run
    [Dear {{A}} and {{B}}!] holds both tokens, the first pass writes
    the value of [{{A}}] over the whole run, [{{B}}] with the rest: the
    loop makes one pass that replaces, and returns at its second. *)
Lemma C4_counterexample :
  (full_text brace_completes = chars "{{B}} {{{A}}B}}" /\
   occurrences (full_text brace_completes) token_A 0 = [7%nat] /\
   occurrences (full_text brace_completes) token_B 0 = [0%nat] /\
   find (chars "{") token_A = -1 /\ find (chars "{") token_B = -1 /\
   find (chars "y") token_A = -1 /\ find (chars "y") token_B = -1 /\
   option_map (map text) (passes 3 brace_value brace_completes)
   = Some [chars "y"; chars " "; chars "y"; []; []] /\
   _replace_in_paragraph 3 brace_value brace_completes = None /\
   option_map full_text (_replace_in_paragraph 4 brace_value brace_completes)
   = Some (chars "y y")) /\
  (occurrences (full_text both_in_one_run) token_A 0 = [5%nat] /\
   occurrences (full_text both_in_one_run) token_B 0 = [15%nat] /\
   replace_once two_keys both_in_one_run = Some [run_of "x"] /\
   replace_once two_keys [run_of "x"] = None /\
   _replace_in_paragraph 2 two_keys both_in_one_run = Some [run_of "x"]).
Proof. by vm_compute. Qed.

(** C4, amended: take two tokens [{{a}}] and [{{b}}] of different
    names, the first and the second key of the map (for [{{A}}] and
    [{{B}}], in either order), and a paragraph whose text holds one
    occurrence of each, in either order, between texts without a brace,
    no run holding characters of both: the paragraph is some runs
    [runs1] with the first token followed by some runs [runs2] with the
    second.  When the two values are without a brace too, the loop
    makes exactly two passes that replace, the third pass finds
    nothing, and the loop returns. *)
Theorem C4_two_tokens_two_replacements
    (a b : ascii) (pre mid1 mid2 post va vb : str) (runs1 runs2 : Paragraph) :
  a <> b -> b <> "{"%char ->
  brace_free pre -> brace_free mid1 -> brace_free mid2 -> brace_free post ->
  brace_free va -> brace_free vb ->
  let placeholders := [(token a, va); (token b, vb)] in
  (full_text runs1 = pre ++ token a ++ mid1 ->
   full_text runs2 = mid2 ++ token b ++ post ->
   two_replacements placeholders (runs1 ++ runs2)) /\
  (full_text runs1 = pre ++ token b ++ mid1 ->
   full_text runs2 = mid2 ++ token a ++ post ->
   two_replacements placeholders (runs1 ++ runs2)).
Proof.
  intros Hab Hb Hpre Hmid1 Hmid2 Hpost Hva Hvb placeholders. split.
  - by apply two_tokens_a_then_b.
  - by apply two_tokens_b_then_a.
Qed.

Lemma C4_witness :
  two_replacements [(token_A, chars "x"); (token_B, chars "y")] dear_A_and_B.
Proof.
  assert ("A"%char <> "B"%char) as Hab by discriminate.
  assert ("B"%char <> "{"%char) as Hb by discriminate.
  exact (proj1 (C4_two_tokens_two_replacements "A" "B"
                  (chars "Dear ") (chars " and ") [] (chars "!")
                  (chars "x") (chars "y")
                  [run_of "Dear {"; run_of "{A}} and "] [run_of "{{B}}!"]
                  Hab Hb eq_refl eq_refl eq_refl eq_refl eq_refl eq_refl)
           eq_refl eq_refl).
Defined.

(** ** Keys that replacements bring in *)

Lemma loop_forever_growing fuel :
  _replace_in_paragraph fuel growing [run_of "ab"] = None.
Proof. induction fuel as [|fuel IH]; [done|]. exact IH. Qed.

(** C9, as stated, fails.  The first pass at [a] puts [ab] in its
    place, and with it an occurrence of the key [b]; every later pass
    finds the key [a] again and writes [ab] again: the [b] is never
    replaced, and the loop is still running after any number of passes.
    And an empty key occurs in the text that the loop returns (here in
    the value [y] it has put there) and is never replaced. *)
Lemma C9_counterexample :
  replace_once growing [run_of "a"] = Some [run_of "ab"] /\
  replace_once growing [run_of "ab"] = Some [run_of "ab"] /\
  find (full_text [run_of "ab"]) (chars "b") = 1 /\
  (forall fuel, _replace_in_paragraph fuel growing [run_of "a"] = None) /\
  _replace_in_paragraph 2 empty_key_first only_token_A = Some [run_of "y"] /\
  find (full_text [run_of "y"]) [] = 0.
Proof.
  split; [done|]. split; [done|]. split; [done|]. split; [|done].
  intros [|fuel]; [done|]. exact (loop_forever_growing fuel).
Qed.

(** C9, amended: at a paragraph in whose text a key that is not empty
    occurs (brought in by an earlier replacement or not), the pass
    replaces again and the loop goes on with the rewritten paragraph;
    so the loop returns only a paragraph in whose text no key that is
    not empty occurs.  (That a given occurrence is replaced at some
    pass is not promised: the loop may run for ever on earlier keys.) *)
Theorem C9_loop_goes_on_while_a_key_occurs
    (placeholders : Placeholders) (paragraph : Paragraph) :
  (forall key value,
     (key, value) ∈ placeholders -> key <> [] ->
     find (full_text paragraph) key <> -1 ->
     exists paragraph',
       replace_once placeholders paragraph = Some paragraph' /\
       forall fuel,
         _replace_in_paragraph (S fuel) placeholders paragraph
         = _replace_in_paragraph fuel placeholders paragraph') /\
  (forall fuel paragraph',
     _replace_in_paragraph fuel placeholders paragraph = Some paragraph' ->
     clean placeholders paragraph').
Proof.
  split.
  - intros key value Hin Hk Hf.
    destruct (replace_once_while_a_key_occurs placeholders key value paragraph)
      as [p1 Hp1]; [done..|].
    exists p1. split; [done|]. intros fuel. simpl. by rewrite Hp1.
  - intros fuel paragraph' H.
    by eapply replace_once_None_clean, loop_fixed_point.
Qed.

Lemma C9_witness :
  (exists paragraph', replace_once chain [run_of "{{B}}"] = Some paragraph') /\
  _replace_in_paragraph 3 chain [run_of "{{A}}"] = Some [run_of "x"] /\
  clean chain [run_of "x"].
Proof.
  split; [|split; [reflexivity|]].
  - destruct (proj1 (C9_loop_goes_on_while_a_key_occurs chain [run_of "{{B}}"])
                token_B (chars "x")) as (paragraph' & Hp & _).
    + apply list_elem_of_In. simpl. right. left. reflexivity.
    + discriminate.
    + vm_compute. discriminate.
    + exists paragraph'. exact Hp.
  - apply (proj2 (C9_loop_goes_on_while_a_key_occurs chain [run_of "{{A}}"])
             3%nat [run_of "x"]).
    reflexivity.
Defined.

(** * Further properties of the code *)

(** ** What a pass keeps of the text *)



(** ** Where the characters of the result come from *)

Lemma replace_once_characters (placeholders : Placeholders) (p p' : Paragraph) c :
  replace_once placeholders p = Some p' -> c ∈ full_text p' ->
  c ∈ full_text p \/
  exists key value, (key, value) ∈ placeholders /\ c ∈ stored value.
Proof.
  intros (key & value & B & X & A & Hin & -> & Ht)%replace_once_text Hc.
  rewrite Ht, !elem_of_app in Hc. rewrite !full_text_app, !elem_of_app.
  destruct Hc as [Hc | [Hc | Hc]]; [by left; left | | by left; right; right].
  right. by exists key, value.
Qed.

(** X2: the loop invents no text.  Every character of the text of the
    paragraph it returns is a character of the text it was given or a
    character of a value of the map, as the document stores it (a line
    feed for a carriage return). *)
Theorem X2_no_character_from_nowhere
    (fuel : nat) (placeholders : Placeholders) (p p' : Paragraph) (c : ascii) :
  _replace_in_paragraph fuel placeholders p = Some p' ->
  c ∈ full_text p' ->
  c ∈ full_text p \/
  exists key value, (key, value) ∈ placeholders /\ c ∈ stored value.
Proof.
  revert p. induction fuel as [|fuel IH]; intros p; [done|].
  cbn [_replace_in_paragraph].
  destruct (replace_once placeholders p) as [p1|] eqn:E.
  - intros H Hc. destruct (IH _ H Hc) as [Hc1 | Hv]; [|by right].
    by eapply replace_once_characters.
  - intros [= <-] Hc. by left.
Qed.

Lemma X2_witness :
  _replace_in_paragraph 3 two_keys dear_A_and_B
  = Some [run_of "x"; empty_run; run_of "y"] /\
  ("y"%char ∈ full_text dear_A_and_B \/
   exists key value, (key, value) ∈ two_keys /\ "y"%char ∈ stored value).
Proof.
  split; [reflexivity|].
  apply (X2_no_character_from_nowhere 3 two_keys dear_A_and_B
           [run_of "x"; empty_run; run_of "y"]).
  - reflexivity.
  - apply list_elem_of_In. vm_compute. tauto.
Defined.

(** ** Dates *)

Section Dates.
Implicit Types a b c dt : date.

Lemma date_new_Some y m d dt :
  date_new y m d = Some dt
  <-> dt = mkDate y m d /\ 1 <= y <= 9999 /\ 1 <= m <= 12
      /\ 1 <= d <= days_in_month y m.
Proof.
  unfold date_new.
  destruct (Z.leb_spec 1 y), (Z.leb_spec y 9999), (Z.leb_spec 1 m),
    (Z.leb_spec m 12), (Z.leb_spec 1 d), (Z.leb_spec d (days_in_month y m));
    simpl; split; try (intros [= <-]; repeat split; lia);
    try (intros (-> & ? & ? & ?); (done || lia)); try done.
Qed.

Lemma days_in_month_range y m : 28 <= days_in_month y m <= 31.
Proof.
  unfold days_in_month.
  destruct (m =? 2); [destruct (is_leap y); lia|].
  destruct ((m =? 4) || (m =? 6) || (m =? 9) || (m =? 11)); lia.
Qed.

Lemma date_gt_spec a b :
  date_gt a b = true
  <-> year b < year a
      \/ (year a = year b
          /\ (month b < month a \/ (month a = month b /\ day b < day a))).
Proof.
  unfold date_gt.
  destruct (Z.ltb_spec (year b) (year a)), (Z.eqb_spec (year a) (year b)),
    (Z.ltb_spec (month b) (month a)), (Z.eqb_spec (month a) (month b)),
    (Z.ltb_spec (day b) (day a)); simpl; split; (done || lia || tauto).
Qed.

Lemma date_gt_false a b :
  date_gt a b = false
  <-> year a < year b
      \/ (year a = year b
          /\ (month a < month b \/ (month a = month b /\ day a <= day b))).
Proof.
  destruct (date_gt a b) eqn:E.
  - apply date_gt_spec in E. split; [done | lia].
  - split; [|done]. intros _.
    assert (~ (year b < year a
      \/ (year a = year b
          /\ (month b < month a \/ (month a = month b /\ day b < day a))))) as H
      by (rewrite <- date_gt_spec; congruence).
    lia.
Qed.

(** [max] answers an element of the list that no element is greater
    than. *)
Lemma max_date_spec first rest :
  max_date first rest ∈ first :: rest /\
  forall x, x ∈ first :: rest -> date_gt x (max_date first rest) = false.
Proof.
  unfold max_date. revert first.
  induction rest as [|d rest IH]; intros first; simpl.
  - split; [by left|]. intros x ->%list_elem_of_singleton.
    apply date_gt_false. lia.
  - destruct (IH (if date_gt d first then d else first)) as [Hin Hmax].
    split.
    + apply elem_of_cons in Hin as [-> | Hin].
      * destruct (date_gt d first); [right; by left | by left].
      * right. by right.
    + intros x Hx.
      assert (date_gt (if date_gt d first then d else first)
                (fold_left (fun best d0 => if date_gt d0 best then d0 else best)
                   rest (if date_gt d first then d else first)) = false) as H0
        by (apply Hmax; by left).
      apply elem_of_cons in Hx as [-> | Hx].
      * destruct (date_gt d first) eqn:E.
        -- apply date_gt_spec in E. apply date_gt_false in H0.
           apply date_gt_false. lia.
        -- exact H0.
      * apply elem_of_cons in Hx as [-> | Hx]; [|apply Hmax; by right].
        destruct (date_gt d first) eqn:E; [exact H0|].
        apply date_gt_false in E. apply date_gt_false in H0.
        apply date_gt_false. lia.
Qed.
End Dates.

(** X3: [max_date_us] answers [None] exactly when no match is a date
    of the calendar: a match with a month outside 1..12, a day that the
    month does not have (the 29th of February outside a leap year) or
    the year 0000 is passed over, and never raises. *)
Theorem X3_max_date_us_None (matches : list (Z * Z * Z)) :
  max_date_us matches = None
  <-> forall mm dd yyyy, (mm, dd, yyyy) ∈ matches -> date_new yyyy mm dd = None.
Proof.
  unfold max_date_us.
  destruct (omap _ matches) as [|d ds] eqn:E.
  - split; [|done]. intros _ mm dd yyyy Hin.
    destruct (date_new yyyy mm dd) as [dt|] eqn:Hd; [|done].
    assert (dt ∈ omap (fun '(mm, dd, yyyy) => date_new yyyy mm dd) matches) as H.
    { apply list_elem_of_omap. by exists (mm, dd, yyyy). }
    rewrite E in H. by apply elem_of_nil in H.
  - split; [done|]. intros H.
    assert (d ∈ omap (fun '(mm, dd, yyyy) => date_new yyyy mm dd) matches) as Hd
      by (rewrite E; by left).
    apply list_elem_of_omap in Hd as ([[mm dd] yyyy] & Hin & Hd).
    by rewrite (H _ _ _ Hin) in Hd.
Qed.

(** X4: the date that [max_date_us] answers is the date of one of the
    matches, a date of the calendar, and no match is a later date. *)
Theorem X4_max_date_us_is_the_latest (matches : list (Z * Z * Z)) (dt : date) :
  max_date_us matches = Some dt ->
  (exists mm dd yyyy, (mm, dd, yyyy) ∈ matches /\ date_new yyyy mm dd = Some dt) /\
  valid_date dt /\
  forall mm dd yyyy dt',
    (mm, dd, yyyy) ∈ matches -> date_new yyyy mm dd = Some dt' ->
    date_gt dt' dt = false.
Proof.
  unfold max_date_us.
  destruct (omap _ matches) as [|d ds] eqn:E; [done|]. intros [= <-].
  destruct (max_date_spec d ds) as [Hin Hmax].
  rewrite <- E in Hin.
  apply list_elem_of_omap in Hin as ([[mm dd] yyyy] & Hin & Hd).
  split; [by exists mm, dd, yyyy|]. split.
  - apply date_new_Some in Hd as (Hdt & ?). unfold valid_date.
    rewrite Hdt. simpl. rewrite <- Hdt. apply date_new_Some. by rewrite Hdt.
  - intros mm' dd' yyyy' dt' Hin' Hd'. apply Hmax. rewrite <- E.
    apply list_elem_of_omap. by exists (mm', dd', yyyy').
Qed.

Lemma X4_witness :
  max_date_us [(2, 30, 2024); (1, 15, 2024); (12, 31, 2023); (13, 1, 2025)]
  = Some (mkDate 2024 1 15) /\
  valid_date (mkDate 2024 1 15) /\
  date_gt (mkDate 2023 12 31) (mkDate 2024 1 15) = false.
Proof.
  split; [reflexivity|].
  destruct (X4_max_date_us_is_the_latest
              [(2, 30, 2024); (1, 15, 2024); (12, 31, 2023); (13, 1, 2025)]
              (mkDate 2024 1 15) eq_refl) as (_ & Hv & Hmax).
  split; [exact Hv|].
  apply (Hmax 12 31 2023); [|reflexivity].
  apply list_elem_of_In. simpl. tauto.
Defined.

(** ** Numbers and dates as text *)

Section Formats.
Implicit Types s x y r : str.

Lemma uint_chars_inj d d' : uint_chars d = uint_chars d' -> d = d'.
Proof.
  revert d'. induction d; intros [] H; simpl in H; try discriminate;
    try reflexivity; injection H as H; f_equal; by apply IHd.
Qed.

Lemma digits_inj n n' : digits n = digits n' -> n = n'.
Proof. intros H%uint_chars_inj. by apply DecimalN.Unsigned.to_uint_inj. Qed.

Lemma uint_chars_digits d : forallb is_digit (uint_chars d) = true.
Proof. induction d; simpl; by rewrite ?IHd. Qed.

Lemma digits_are_digits n : forallb is_digit (digits n) = true.
Proof. apply uint_chars_digits. Qed.

Lemma format_d_nonneg n : 0 <= n -> format_d n = digits (Z.to_N n).
Proof.
  intros H. unfold format_d. destruct (Z.ltb_spec n 0); [lia|].
  simpl. f_equal. lia.
Qed.

Lemma format_d_inj n n' : 0 <= n -> 0 <= n' -> format_d n = format_d n' -> n = n'.
Proof.
  intros H H'. rewrite !format_d_nonneg by done. intros E%digits_inj. lia.
Qed.

(** A number below one hundred is written with two digits, and read
    back from them. *)
Lemma format_02d_two_digits n :
  0 <= n < 100 ->
  length (format_02d n) = 2%nat /\ two_digit_value (format_02d n) = n
  /\ forallb is_digit (format_02d n) = true.
Proof.
  intros H.
  assert (exists k : nat, (k < 100)%nat /\ n = Z.of_nat k) as (k & Hk & ->)
    by (exists (Z.to_nat n); lia).
  clear H.
  do 100 (destruct k as [|k]; [by vm_compute|]). lia.
Qed.

(** A text is cut in one way only at its first space. *)
Lemma first_space_inj x y r r' :
  " "%char ∉ x -> " "%char ∉ y ->
  x ++ " "%char :: r = y ++ " "%char :: r' -> x = y /\ r = r'.
Proof.
  revert y. induction x as [|c x IH]; intros [|c' y] Hx Hy; simpl.
  - by intros [= ->].
  - intros [= <- _]. exfalso. apply Hy. by left.
  - intros [= -> _]. exfalso. apply Hx. by left.
  - intros [= -> H]. apply IH in H as [-> ->]; [done| |].
    + intros ?. apply Hx. by right.
    + intros ?. apply Hy. by right.
Qed.

Lemma dict_get_elem_of {V} (d : list (Z * V)) k v :
  dict_get d k = Some v -> (k, v) ∈ d.
Proof.
  induction d as [|[k' v'] d IH]; simpl; [done|].
  destruct (Z.eqb_spec k' k) as [->|_].
  - intros [= ->]. by left.
  - intros H. right. by apply IH.
Qed.

Lemma dict_get_is_Some_UA_MONTHS_GEN m :
  1 <= m <= 12 -> is_Some (dict_get UA_MONTHS_GEN m).
Proof.
  intros H.
  assert (m = 1 \/ m = 2 \/ m = 3 \/ m = 4 \/ m = 5 \/ m = 6 \/ m = 7 \/ m = 8
          \/ m = 9 \/ m = 10 \/ m = 11 \/ m = 12) as Hm by lia.
  repeat (destruct Hm as [-> | Hm]; [by eexists|]). subst. by eexists.
Qed.

Lemma not_elem_of_forallb (c : ascii) s :
  forallb (fun c' => negb (Ascii.eqb c' c)) s = true -> c ∉ s.
Proof.
  induction s as [|c' s IH]; simpl; [intros _; apply not_elem_of_nil|].
  intros [Hc Hs]%andb_true_iff. apply not_elem_of_cons. split; [|by apply IH].
  intros ->. by rewrite Ascii.eqb_refl in Hc.
Qed.

(** The names of the months have no space and no brace. *)
Lemma UA_MONTHS_GEN_names m name :
  dict_get UA_MONTHS_GEN m = Some name ->
  (" "%char ∉ name) /\ brace_free name.
Proof.
  intros H%dict_get_elem_of.
  assert (Forall (fun item : Z * str =>
                    (" "%char ∉ item.2) /\ brace_free item.2) UA_MONTHS_GEN) as HF.
  { repeat (constructor; [split; [by apply not_elem_of_forallb | done]|]).
    constructor. }
  rewrite List.Forall_forall in HF. apply list_elem_of_In in H.
  exact (HF _ H).
Qed.

(** Two months do not have the same name. *)
Lemma UA_MONTHS_GEN_inj m m' name :
  dict_get UA_MONTHS_GEN m = Some name ->
  dict_get UA_MONTHS_GEN m' = Some name -> m = m'.
Proof.
  intros H%dict_get_elem_of H'%dict_get_elem_of.
  unfold UA_MONTHS_GEN in H, H'. vm_compute chars in H, H'.
  repeat (apply elem_of_cons in H as [H | H];
          [injection H as -> ->;
           repeat (apply elem_of_cons in H' as [H' | H'];
                   [by injection H' as -> |]);
           by apply elem_of_nil in H'|]).
  by apply elem_of_nil in H.
Qed.
End Formats.

(** ** [ua_date] *)

Lemma valid_date_range dt :
  valid_date dt ->
  1 <= year dt <= 9999 /\ 1 <= month dt <= 12 /\ 1 <= day dt <= 31.
Proof.
  intros (_ & Hy & Hm & Hd)%date_new_Some.
  pose proof (days_in_month_range (year dt) (month dt)). lia.
Qed.

Lemma ua_date_valid dt :
  valid_date dt ->
  exists name,
    dict_get UA_MONTHS_GEN (month dt) = Some name /\
    ua_date dt
    = Some (chars "«" ++ format_02d (day dt) ++ chars "» " ++ name ++ chars " "
            ++ format_d (year dt) ++ chars " року").
Proof.
  intros (_ & Hm & _)%valid_date_range.
  destruct (dict_get_is_Some_UA_MONTHS_GEN _ Hm) as [name Hname].
  exists name. split; [done|]. unfold ua_date. by rewrite Hname.
Qed.

(** X5: [ua_date] writes every date of the calendar, and writes two
    different dates differently: the date can be read back from the
    text. *)
Theorem X5_ua_date_is_injective (d1 d2 : date) :
  valid_date d1 -> valid_date d2 ->
  exists s1 s2,
    ua_date d1 = Some s1 /\ ua_date d2 = Some s2 /\ (s1 = s2 -> d1 = d2).
Proof.
  intros H1 H2.
  destruct (ua_date_valid d1 H1) as (n1 & Hn1 & ->).
  destruct (ua_date_valid d2 H2) as (n2 & Hn2 & ->).
  do 2 eexists. split; [done|]. split; [done|].
  destruct (valid_date_range d1 H1) as (Hy1 & Hm1 & Hd1).
  destruct (valid_date_range d2 H2) as (Hy2 & Hm2 & Hd2).
  destruct (format_02d_two_digits (day d1)) as (Hl1 & Hv1 & _); [lia|].
  destruct (format_02d_two_digits (day d2)) as (Hl2 & Hv2 & _); [lia|].
  intros E. apply app_inv_head in E.
  apply app_inj_1 in E as [Edd E]; [|congruence].
  apply app_inv_head in E.
  change (chars " ") with [" "%char] in E. simpl app in E.
  apply first_space_inj in E as [En E];
    [| by apply (UA_MONTHS_GEN_names (month d1))
     | by apply (UA_MONTHS_GEN_names (month d2))].
  apply app_inv_tail in E. apply format_d_inj in E; [|lia..].
  assert (month d1 = month d2) as Em
    by (subst n2; by apply (UA_MONTHS_GEN_inj _ _ n1)).
  assert (day d1 = day d2) as Ed by congruence.
  destruct d1, d2. simpl in *. congruence.
Qed.

Lemma X5_witness :
  valid_date (mkDate 2024 2 29) /\ valid_date (mkDate 2024 3 1) /\
  exists s1 s2,
    ua_date (mkDate 2024 2 29) = Some s1 /\ ua_date (mkDate 2024 3 1) = Some s2 /\
    (s1 = s2 -> mkDate 2024 2 29 = mkDate 2024 3 1).
Proof.
  assert (valid_date (mkDate 2024 2 29)) as H1 by reflexivity.
  assert (valid_date (mkDate 2024 3 1)) as H2 by reflexivity.
  split; [exact H1|]. split; [exact H2|].
  exact (X5_ua_date_is_injective _ _ H1 H2).
Defined.

(** ** Digits and their value *)

Section Digits.
Implicit Types s x y : str.
Local Open Scope N_scope.

Lemma fold_digits_acc d (acc : positive) :
  N.pos (Pos.of_uint_acc d acc)
  = fold_left (fun a c => 10 * a + digit_value c) (uint_chars d) (N.pos acc).
Proof.
  revert acc. induction d; intros acc; simpl; [done|..];
    rewrite IHd; f_equal;
    match goal with
    | |- context [digit_value ?c] =>
        let v := eval vm_compute in (digit_value c) in
        change (digit_value c) with v
    end; lia.
Qed.

Lemma digits_value_uint d : digits_value (uint_chars d) = N.of_uint d.
Proof.
  unfold digits_value, N.of_uint.
  induction d; simpl; [done | exact IHd |..]; by rewrite fold_digits_acc.
Qed.

(** The digits of a number write that number. *)
Lemma digits_value_digits n : digits_value (digits n) = n.
Proof. unfold digits. rewrite digits_value_uint. apply DecimalN.Unsigned.of_to. Qed.

Lemma fold_digits_app s (acc : N) :
  fold_left (fun a c => 10 * a + digit_value c) s acc
  = acc * 10 ^ N.of_nat (length s) + digits_value s.
Proof.
  unfold digits_value. revert acc. induction s as [|c s IH]; intros acc.
  - simpl. lia.
  - cbn [fold_left length]. rewrite IH, (IH (10 * 0 + digit_value c)).
    rewrite Nat2N.inj_succ, N.pow_succ_r'. lia.
Qed.

Lemma digits_value_app x y :
  digits_value (x ++ y) = digits_value x * 10 ^ N.of_nat (length y) + digits_value y.
Proof.
  unfold digits_value at 1. rewrite fold_left_app. apply fold_digits_app.
Qed.

Lemma digits_nonempty n : digits n <> [].
Proof.
  intros H. assert (digits n = digits 0 -> False) as H0.
  { intros E%digits_inj. subst. discriminate H. }
  unfold digits in H. destruct (N.to_uint n) eqn:E; try discriminate.
  destruct n; [discriminate|].
  by apply (DecimalPos.Unsigned.to_uint_nonnil p).
Qed.

(** The two digits after the point. *)
Lemma frac_part_2f_spec cents :
  length (frac_part_2f cents) = 2%nat /\
  forallb is_digit (frac_part_2f cents) = true /\
  digits_value (frac_part_2f cents) = cents mod 100.
Proof.
  unfold frac_part_2f.
  assert (cents mod 100 < 100) as H by (apply N.mod_lt; lia).
  generalize dependent (cents mod 100). intros r H.
  assert (exists k : nat, (k < 100)%nat /\ r = N.of_nat k) as (k & Hk & ->)
    by (exists (N.to_nat r); lia).
  clear H.
  do 100 (destruct k as [|k]; [by vm_compute|]). lia.
Qed.
End Digits.

(** ** [str.replace] and the thousands separator *)

Section Replace.
Implicit Types s r new : str.

Lemma str_replace_char s (a : ascii) new :
  str_replace s [a] new
  = flat_map (fun c => if Ascii.eqb c a then new else [c]) s.
Proof.
  unfold str_replace.
  induction s as [|c s IH]; [done|].
  cbn [replace_from flat_map startswith length].
  destruct (Ascii.eqb c a); simpl; by rewrite IH.
Qed.

(** Replacing a character by itself changes nothing. *)
Lemma str_replace_same s (a : ascii) : str_replace s [a] [a] = s.
Proof.
  rewrite str_replace_char. induction s as [|c s IH]; [done|].
  simpl. rewrite IH. destruct (Ascii.eqb_spec c a); by subst.
Qed.

Lemma str_replace_char_char s (a b : ascii) :
  str_replace s [a] [b] = map (fun c => if Ascii.eqb c a then b else c) s.
Proof.
  rewrite str_replace_char. induction s as [|c s IH]; [done|].
  simpl. rewrite IH. by destruct (Ascii.eqb c a).
Qed.

Lemma is_digit_not (c a : ascii) :
  is_digit c = true -> is_digit a = false -> Ascii.eqb c a = false.
Proof. intros Hc Ha. apply Ascii.eqb_neq. intros ->. congruence. Qed.

(** A text of digits has none of the character [a] that is no digit. *)
Lemma filter_digits s (a : ascii) :
  is_digit a = false -> forallb is_digit s = true ->
  List.filter (fun c => negb (Ascii.eqb c a)) s = s.
Proof.
  intros Ha. induction s as [|c s IH]; [done|]. simpl.
  intros [Hc Hs]%andb_true_iff. rewrite (is_digit_not c a Hc Ha). simpl.
  by rewrite IH.
Qed.

Lemma map_digits s (a b : ascii) :
  is_digit a = false -> forallb is_digit s = true ->
  map (fun c => if Ascii.eqb c a then b else c) s = s.
Proof.
  intros Ha. induction s as [|c s IH]; [done|]. simpl.
  intros [Hc Hs]%andb_true_iff. rewrite (is_digit_not c a Hc Ha).
  by rewrite IH.
Qed.

Lemma group3_rev_length_ind (P : str -> Prop) :
  (forall r, (length r <= 3)%nat -> P r) ->
  (forall a b c d rest, P (d :: rest) -> P (a :: b :: c :: d :: rest)) ->
  forall r, P r.
Proof.
  intros Hshort Hstep r.
  assert (forall n r, (length r <= n)%nat -> P r) as H; [|by apply (H (length r))].
  clear r. induction n as [|n IH]; intros r Hr.
  - apply Hshort. lia.
  - destruct r as [|a [|b [|c [|d rest]]]]; try (apply Hshort; simpl; lia).
    apply Hstep. apply IH. simpl in *. lia.
Qed.

(** The separators are all that [group3_rev] adds. *)
Lemma group3_rev_filter r :
  List.filter (fun c => negb (Ascii.eqb c ",")) (group3_rev r)
  = List.filter (fun c => negb (Ascii.eqb c ",")) r.
Proof.
  induction r as [r Hr | a b c d rest IH] using group3_rev_length_ind.
  - by destruct r as [|a [|b [|c [|d rest]]]]; [..|simpl in Hr; lia].
  - change (group3_rev (a :: b :: c :: d :: rest))
      with ([a; b; c] ++ [","%char] ++ group3_rev (d :: rest)).
    change (a :: b :: c :: d :: rest) with ([a; b; c] ++ d :: rest).
    rewrite !List.filter_app, IH. by f_equal.
Qed.

Lemma insert_thousands_sep_filter s :
  forallb is_digit s = true ->
  List.filter (fun c => negb (Ascii.eqb c ",")) (insert_thousands_sep s) = s.
Proof.
  intros Hs. unfold insert_thousands_sep.
  rewrite List.filter_rev, group3_rev_filter, <- List.filter_rev, rev_involutive.
  by apply filter_digits.
Qed.

(** Groups of three digits, counted from the right. *)
Lemma group3_rev_grouped r :
  r <> [] -> forallb is_digit r = true -> grouped_rev "," (group3_rev r).
Proof.
  induction r as [r Hr | a b c d rest IH] using group3_rev_length_ind.
  - intros Hne Hd.
    destruct r as [|a [|b [|c [|d rest]]]]; [done|..|simpl in Hr; lia];
      apply grouped_last; simpl; (lia || done).
  - intros _ Hd. cbn [group3_rev].
    cbn [forallb] in Hd. apply andb_true_iff in Hd as [Ha Hd].
    apply andb_true_iff in Hd as [Hb Hd]. apply andb_true_iff in Hd as [Hc Hd].
    apply grouped_next; [by rewrite <- Hd; simpl; rewrite Ha, Hb, Hc|].
    apply IH; [done|]. exact Hd.
Qed.

Lemma grouped_rev_map r :
  grouped_rev "," r ->
  grouped_rev " " (map (fun c => if Ascii.eqb c "," then " "%char else c) r).
Proof.
  induction 1 as [g Hl Hd | a b c rest Hd _ IH].
  - rewrite map_digits by done. by apply grouped_last.
  - cbn [map]. cbn [forallb] in Hd.
    apply andb_true_iff in Hd as [Ha Hd]. apply andb_true_iff in Hd as [Hb Hd].
    apply andb_true_iff in Hd as [Hc _].
    rewrite !(is_digit_not _ "," ) by done. rewrite Ascii.eqb_refl.
    apply grouped_next; [|done]. simpl. by rewrite Ha, Hb, Hc.
Qed.
End Replace.

(** ** [with_thin_space_groups] *)

Section ThinSpace.
Implicit Types s r : str.

Let to_space (c : ascii) : ascii := if Ascii.eqb c "," then " "%char else c.
Let no_space (c : ascii) : bool := negb (Ascii.eqb c " ").

Lemma forallb_rev {A} (f : A -> bool) (l : list A) :
  forallb f l = true -> forallb f (rev l) = true.
Proof.
  rewrite !forallb_forall. intros H x Hx. apply H. by apply in_rev.
Qed.

Lemma is_digit_amount_char s :
  forallb is_digit s = true -> forallb is_amount_char s = true.
Proof.
  rewrite !forallb_forall. intros H c Hc. unfold is_amount_char.
  by rewrite (H c Hc).
Qed.

Lemma group3_rev_spaces r :
  forallb is_digit r = true ->
  List.filter no_space (map to_space (group3_rev r)) = r /\
  forallb is_amount_char (map to_space (group3_rev r)) = true.
Proof.
  induction r as [r Hr | a b c d rest IH] using group3_rev_length_ind.
  - intros Hd.
    assert (group3_rev r = r) as ->
      by (by destruct r as [|a [|b [|c [|d rest]]]]; [..|simpl in Hr; lia]).
    unfold to_space. rewrite map_digits by done.
    split; [by apply filter_digits | by apply is_digit_amount_char].
  - intros Hd.
    change (group3_rev (a :: b :: c :: d :: rest))
      with ([a; b; c] ++ [","%char] ++ group3_rev (d :: rest)).
    change (forallb is_digit ([a; b; c] ++ d :: rest) = true) in Hd.
    rewrite forallb_app in Hd. apply andb_true_iff in Hd as [Habc Hd].
    destruct (IH Hd) as [IH1 IH2].
    rewrite !map_app, !List.filter_app, !forallb_app, IH1, IH2.
    unfold to_space at 1 3. rewrite (map_digits [a; b; c]) by done.
    unfold no_space at 1. rewrite (filter_digits [a; b; c]) by done.
    split; [done|]. by rewrite (is_digit_amount_char [a; b; c]).
Qed.

Lemma with_thin_space_groups_map n :
  with_thin_space_groups n = map to_space (format_comma_2f n).
Proof.
  unfold with_thin_space_groups.
  change (chars ".") with ["."%char]. change (chars ",") with [","%char].
  change (chars " ") with [" "%char].
  by rewrite str_replace_same, str_replace_char_char.
Qed.

Lemma sign_chars_cases n : sign_chars n = [] \/ sign_chars n = ["-"%char].
Proof. unfold sign_chars. destruct (negative n); auto. Qed.

Lemma to_space_digits s : forallb is_digit s = true -> map to_space s = s.
Proof. by apply map_digits. Qed.

Lemma no_space_digits s : forallb is_digit s = true -> List.filter no_space s = s.
Proof. by apply filter_digits. Qed.

(** The text of [f"{n:,.2f}"] with a space for every comma, in its
    parts. *)
Lemma with_thin_space_groups_parts n :
  with_thin_space_groups n
  = sign_chars n
    ++ map to_space (insert_thousands_sep (int_part_2f (to_cents n)))
    ++ "."%char :: frac_part_2f (to_cents n).
Proof.
  rewrite with_thin_space_groups_map. unfold format_comma_2f.
  destruct (frac_part_2f_spec (to_cents n)) as (_ & Hfrac & _).
  rewrite !map_app. cbn [map]. rewrite (to_space_digits (frac_part_2f _)) by done.
  by destruct (sign_chars_cases n) as [-> | ->].
Qed.

Lemma with_thin_space_groups_chars n :
  forallb is_amount_char (with_thin_space_groups n) = true.
Proof.
  rewrite with_thin_space_groups_parts. unfold insert_thousands_sep.
  destruct (frac_part_2f_spec (to_cents n)) as (_ & Hfrac & _).
  assert (forallb is_digit (rev (int_part_2f (to_cents n))) = true) as Hint
    by (apply forallb_rev, digits_are_digits).
  destruct (group3_rev_spaces _ Hint) as [_ H2].
  rewrite map_rev, !forallb_app, (forallb_rev _ _ H2).
  cbn [forallb]. rewrite (is_digit_amount_char (frac_part_2f _)) by done.
  destruct (sign_chars_cases n) as [-> | ->]; by vm_compute.
Qed.

Lemma with_thin_space_groups_no_spaces n :
  List.filter (fun c => negb (Ascii.eqb c " ")) (with_thin_space_groups n)
  = format_2f n.
Proof.
  change (fun c => negb (Ascii.eqb c " ")) with no_space.
  rewrite with_thin_space_groups_parts.
  unfold format_2f, insert_thousands_sep.
  destruct (frac_part_2f_spec (to_cents n)) as (_ & Hfrac & _).
  assert (forallb is_digit (rev (int_part_2f (to_cents n))) = true) as Hint
    by (apply forallb_rev, digits_are_digits).
  destruct (group3_rev_spaces _ Hint) as [H1 _].
  rewrite map_rev.
  rewrite !List.filter_app, List.filter_rev, H1, rev_involutive.
  cbn [List.filter].
  rewrite (no_space_digits (frac_part_2f _)) by done.
  destruct (sign_chars_cases n) as [-> | ->]; by vm_compute.
Qed.

(** The text of [with_thin_space_groups] with its groups. *)
Lemma with_thin_space_groups_groups n :
  exists groups,
    with_thin_space_groups n
    = sign_chars n ++ groups ++ "."%char :: frac_part_2f (to_cents n) /\
    grouped_rev " " (rev groups) /\
    List.filter (fun c => negb (Ascii.eqb c " ")) groups
    = int_part_2f (to_cents n).
Proof.
  exists (map to_space (insert_thousands_sep (int_part_2f (to_cents n)))).
  split; [apply with_thin_space_groups_parts|].
  assert (forallb is_digit (rev (int_part_2f (to_cents n))) = true) as Hint
    by (apply forallb_rev, digits_are_digits).
  split.
  - unfold insert_thousands_sep. rewrite <- map_rev, rev_involutive.
    apply grouped_rev_map, group3_rev_grouped; [|done].
    intros H. apply (f_equal (@rev ascii)) in H.
    rewrite rev_involutive in H. by apply digits_nonempty in H.
  - change (fun c => negb (Ascii.eqb c " ")) with no_space.
    destruct (group3_rev_spaces _ Hint) as [H1 _].
    unfold insert_thousands_sep.
    by rewrite map_rev, List.filter_rev, H1, rev_involutive.
Qed.

(** X6: [with_thin_space_groups] writes [f"{n:,.2f}"] with a space for
    every comma; its second [replace], of the point by the point,
    changes nothing.  The text has only digits, spaces, the point and
    the sign, and with its spaces taken out it is [f"{n:.2f}"]: the
    groups do not change the number. *)
Theorem X6_with_thin_space_groups_keeps_the_number (n : Decimal) :
  with_thin_space_groups n
  = map (fun c => if Ascii.eqb c "," then " "%char else c) (format_comma_2f n) /\
  List.filter (fun c => negb (Ascii.eqb c " ")) (with_thin_space_groups n)
  = format_2f n /\
  forallb is_amount_char (with_thin_space_groups n) = true.
Proof.
  split; [apply with_thin_space_groups_map|].
  change (fun c => negb (Ascii.eqb c " ")) with no_space.
  rewrite with_thin_space_groups_parts.
  unfold format_2f, insert_thousands_sep.
  destruct (frac_part_2f_spec (to_cents n)) as (_ & Hfrac & _).
  assert (forallb is_digit (rev (int_part_2f (to_cents n))) = true) as Hint
    by (apply forallb_rev, digits_are_digits).
  destruct (group3_rev_spaces _ Hint) as [H1 H2].
  rewrite map_rev.
  rewrite !List.filter_app, List.filter_rev, H1, rev_involutive.
  rewrite !forallb_app, (forallb_rev _ _ H2).
  cbn [List.filter forallb].
  rewrite (no_space_digits (frac_part_2f _)) by done.
  rewrite (is_digit_amount_char (frac_part_2f _)) by done.
  destruct (sign_chars_cases n) as [-> | ->]; by vm_compute.
Qed.

(** X7: before the point, [with_thin_space_groups] writes the digits in
    groups of three counted from the point, a single space between two
    groups and no space at either end; after the point it writes two
    digits. *)
Theorem X7_with_thin_space_groups_groups_of_three (n : Decimal) :
  exists groups fraction,
    with_thin_space_groups n = sign_chars n ++ groups ++ "."%char :: fraction /\
    grouped_rev " " (rev groups) /\
    length fraction = 2%nat /\ forallb is_digit fraction = true.
Proof.
  exists (map to_space (insert_thousands_sep (int_part_2f (to_cents n)))),
         (frac_part_2f (to_cents n)).
  destruct (frac_part_2f_spec (to_cents n)) as (Hl & Hfrac & _).
  split; [apply with_thin_space_groups_parts|]. split; [|done].
  unfold insert_thousands_sep. rewrite <- map_rev, rev_involutive.
  apply grouped_rev_map, group3_rev_grouped.
  - intros H. apply (f_equal (@rev ascii)) in H.
    rewrite rev_involutive in H. by apply digits_nonempty in H.
  - apply forallb_rev, digits_are_digits.
Qed.
End ThinSpace.

(** ** Reading a written amount *)

Section ReadAmount.
Implicit Types s r : str.

Lemma split_at_first_digits s r :
  forallb is_digit s = true ->
  split_at_first "." (s ++ "."%char :: r) = Some (s, r).
Proof.
  induction s as [|c s IH]; [done|]. simpl.
  intros [Hc Hs]%andb_true_iff.
  rewrite (is_digit_not c "." Hc eq_refl). by rewrite IH.
Qed.

Lemma split_at_first_None s :
  forallb is_digit s = true -> split_at_first "." s = None.
Proof.
  induction s as [|c s IH]; [done|]. simpl.
  intros [Hc Hs]%andb_true_iff.
  rewrite (is_digit_not c "." Hc eq_refl). by rewrite IH.
Qed.

Lemma digits_head n :
  exists c s, digits n = c :: s /\ is_digit c = true.
Proof.
  pose proof (digits_nonempty n) as Hne.
  pose proof (digits_are_digits n) as Hd.
  destruct (digits n) as [|c s]; [done|].
  exists c, s. split; [done|]. simpl in Hd. by apply andb_true_iff in Hd as [? _].
Qed.

(** The amount read back from the text that [.2f] has written is the
    amount brought to two digits after the point. *)
Lemma Decimal_of_str_format_2f d :
  Decimal_of_str (format_2f d)
  = Some (mkDecimal (negative d) (to_cents d) (-2)).
Proof.
  unfold format_2f, Decimal_of_str, int_part_2f.
  destruct (frac_part_2f_spec (to_cents d)) as (Hl & Hfrac & Hv).
  pose proof (digits_are_digits (to_cents d / 100)) as Hint.
  assert (digits_value (digits (to_cents d / 100) ++ frac_part_2f (to_cents d))
          = to_cents d) as Hval.
  { rewrite digits_value_app, digits_value_digits, Hl, Hv.
    change (10 ^ N.of_nat 2)%N with 100%N.
    pose proof (N.div_mod (to_cents d) 100). lia. }
  assert (Nat.eqb (length (digits (to_cents d / 100) ++ frac_part_2f (to_cents d))) 0
          = false) as Hlen
    by (apply Nat.eqb_neq; rewrite length_app, Hl; lia).
  unfold sign_chars. destruct (negative d).
  - simpl app. cbn [Ascii.eqb]. simpl.
    rewrite split_at_first_digits by done.
    rewrite Hint, Hfrac, Hlen, Hval, Hl. done.
  - simpl app.
    destruct (digits_head (to_cents d / 100)) as (c & s & Hcs & Hc).
    rewrite Hcs in *. simpl app. cbv beta iota.
    rewrite (is_digit_not c "-" Hc eq_refl), (is_digit_not c "+" Hc eq_refl).
    change (c :: s ++ "."%char :: frac_part_2f (to_cents d))
      with ((c :: s) ++ "."%char :: frac_part_2f (to_cents d)).
    rewrite split_at_first_digits by done.
    rewrite Hint, Hfrac, Hlen, Hval, Hl. done.
Qed.
End ReadAmount.

(** ** The days after a date *)

Section Calendar.
Implicit Types dt : date.

Lemma valid_date_iff dt :
  valid_date dt <->
  1 <= year dt <= 9999 /\ 1 <= month dt <= 12
  /\ 1 <= day dt <= days_in_month (year dt) (month dt).
Proof.
  unfold valid_date. rewrite date_new_Some. destruct dt; simpl.
  split; [by intros (_ & ?) | by intros ?].
Qed.

Lemma tomorrow_valid dt dt' :
  valid_date dt -> tomorrow dt = Some dt' -> valid_date dt'.
Proof.
  rewrite !valid_date_iff. intros (Hy & Hm & Hd). unfold tomorrow.
  destruct (Z.ltb_spec (day dt) (days_in_month (year dt) (month dt))).
  - intros [= <-]. simpl. lia.
  - destruct (Z.ltb_spec (month dt) 12).
    + intros [= <-]. simpl.
      pose proof (days_in_month_range (year dt) (month dt + 1)). lia.
    + destruct (Z.ltb_spec (year dt) 9999); [|done].
      intros [= <-]. simpl.
      pose proof (days_in_month_range (year dt + 1) 1). lia.
Qed.

Lemma add_days_valid n dt dt' :
  valid_date dt -> add_days n dt = Some dt' -> valid_date dt'.
Proof.
  revert dt. induction n as [|n IH]; intros dt Hv; simpl.
  - by intros [= <-].
  - destruct (tomorrow dt) as [dt1|] eqn:E; [|done].
    apply IH. by eapply tomorrow_valid.
Qed.

(** Within a month of days, the date [n] days on does not exist exactly
    for the last [n] days of the year 9999. *)
Lemma add_days_None n dt :
  (n <= 30)%nat -> valid_date dt ->
  add_days n dt = None
  <-> year dt = 9999 /\ month dt = 12 /\ 31 - Z.of_nat n < day dt.
Proof.
  revert dt. induction n as [|n IH]; intros dt Hn Hv.
  - simpl. apply valid_date_range in Hv. split; [done | lia].
  - simpl add_days. destruct (tomorrow dt) as [dt1|] eqn:E.
    + rewrite IH; [| lia | by eapply tomorrow_valid].
      apply valid_date_iff in Hv. revert E. unfold tomorrow.
      destruct (Z.ltb_spec (day dt) (days_in_month (year dt) (month dt))).
      { intros [= <-]. simpl. lia. }
      destruct (Z.ltb_spec (month dt) 12).
      { intros [= <-]. simpl. lia. }
      destruct (Z.ltb_spec (year dt) 9999); [|done].
      intros [= <-]. simpl. lia.
    + apply valid_date_iff in Hv. revert E. unfold tomorrow.
      destruct (Z.ltb_spec (day dt) (days_in_month (year dt) (month dt)));
        [done|].
      destruct (Z.ltb_spec (month dt) 12); [done|].
      destruct (Z.ltb_spec (year dt) 9999); [done|]. intros _.
      assert (month dt = 12) as Hm by lia. rewrite Hm in *.
      change (days_in_month (year dt) 12) with 31 in *.
      split; [lia | done].
Qed.

Lemma ua_date_is_Some dt : valid_date dt -> is_Some (ua_date dt).
Proof. intros (name & _ & ->)%ua_date_valid. by eexists. Qed.
End Calendar.

(** ** What [process_file] does with the fields it has read *)

Lemma format_d_within_limit_Some n :
  (length (digits (Z.abs_N n)) <= int_max_str_digits)%nat ->
  format_d_within_limit n = Some (format_d n).
Proof.
  intros H. unfold format_d_within_limit.
  by destruct (Nat.ltb_spec int_max_str_digits (length (digits (Z.abs_N n))));
    [lia|].
Qed.

Lemma format_d_within_limit_None n :
  (int_max_str_digits < length (digits (Z.abs_N n)))%nat ->
  format_d_within_limit n = None.
Proof.
  intros H. unfold format_d_within_limit.
  by destruct (Nat.ltb_spec int_max_str_digits (length (digits (Z.abs_N n))));
    [|lia].
Qed.

(** X8: [process_file] passes a file over, with a message for each
    missing field, exactly when the case number is missing or empty, no
    amount was found or no date was found: an amount of zero and a
    missing description do not stop it.  With the three fields found,
    an exception leaves the function when the whole part of the amount
    has more than 4300 digits (Python 3.11 does not write such an
    integer), when the date is one of the last three days of the year
    9999 (the date three days on does not exist), or when the folder is
    not there and cannot be made or the template cannot be opened.
    Otherwise it returns at once, the folder not made and no letter
    written, when the folder is there already, and goes on to the
    placeholders when it is not. *)
Theorem X8_process_file_skips_raises_returns_or_prepares
    (fs : FileSystem)
    (case_num : option str) (amount : option Decimal) (doc_date : option date)
    (case_descr : option str) :
  (forall dt, doc_date = Some dt -> valid_date dt) ->
  let all_found :=
    truthy case_num = true /\ amount <> None /\ doc_date <> None in
  let too_many_digits :=
    exists a,
      amount = Some a /\
      (4300 < length (digits (Z.abs_N (int_of_Decimal a))))%nat in
  let last_three_days :=
    exists dt,
      doc_date = Some dt /\ year dt = 9999 /\ month dt = 12 /\ 28 < day dt in
  let names_the_folder (folder_name : str) :=
    exists num a dt,
      case_num = Some num /\ amount = Some a /\ doc_date = Some dt /\
      folder_name
      = (format_02d (year dt mod 100) ++ chars "-" ++ format_02d (month dt))
        ++ chars " Нова ХХХ " ++ format_d (int_of_Decimal a) ++ chars " №"
        ++ num ++ chars " Хелп" in
  match process_fields fs case_num amount doc_date case_descr with
  | Skipped errors => errors <> [] /\ ~ all_found
  | Raised =>
      all_found /\
      (too_many_digits \/ last_three_days \/
       exists folder_name,
         names_the_folder folder_name /\
         path_exists fs folder_name = false /\
         (makedirs_returns fs folder_name = false \/ template_opens fs = false))
  | FolderExists folder_name =>
      all_found /\ ~ too_many_digits /\ ~ last_three_days /\
      names_the_folder folder_name /\ path_exists fs folder_name = true
  | Prepared folder_name _ =>
      all_found /\ ~ too_many_digits /\ ~ last_three_days /\
      names_the_folder folder_name /\
      path_exists fs folder_name = false /\
      makedirs_returns fs folder_name = true /\ template_opens fs = true
  end.
Proof.
  intros Hv all_found too_many_digits last_three_days names_the_folder.
  subst all_found too_many_digits last_three_days names_the_folder.
  destruct case_num as [[|c s]|], amount as [a|], doc_date as [dt|];
    unfold process_fields; cbn [truthy app];
    try (split; [done | by intros (? & ? & ?)]).
  specialize (Hv dt eq_refl).
  destruct (Nat.ltb_spec int_max_str_digits
              (length (digits (Z.abs_N (int_of_Decimal a))))) as [Hlong | Hshort].
  { rewrite format_d_within_limit_None by done.
    split; [done|]. left. by exists a. }
  rewrite format_d_within_limit_Some by done.
  assert (~ (exists a0, Some a = Some a0 /\
               (4300 < length (digits (Z.abs_N (int_of_Decimal a0))))%nat))
    as Hnot_long.
  { intros (a0 & [= <-] & H). unfold int_max_str_digits in Hshort. lia. }
  rewrite Decimal_of_str_format_2f.
  destruct (ua_date_is_Some dt Hv) as [d0 ->].
  pose proof (add_days_None 2 dt ltac:(lia) Hv) as H2.
  pose proof (add_days_None 3 dt ltac:(lia) Hv) as H3.
  destruct (add_days 2 dt) as [dt2|] eqn:E2.
  - destruct (add_days 3 dt) as [dt3|] eqn:E3.
    + destruct (ua_date_is_Some dt2 (add_days_valid _ _ _ Hv E2)) as [d2 ->].
      destruct (ua_date_is_Some dt3 (add_days_valid _ _ _ Hv E3)) as [d3 ->].
      assert (~ (exists dt', Some dt = Some dt' /\ year dt' = 9999
                             /\ month dt' = 12 /\ 28 < day dt')) as Hnot_last.
      { intros (dt' & [= <-] & Hy & Hm & Hd).
        assert (@None date = Some dt3 -> False) as HN by done.
        apply HN. symmetry. apply H3. simpl. lia. }
      match goal with
      | |- context [path_exists fs ?name] =>
          assert (exists num a0 dt0,
                    Some (c :: s) = Some num /\ Some a = Some a0 /\
                    Some dt = Some dt0 /\
                    name
                    = (format_02d (year dt0 mod 100) ++ chars "-"
                       ++ format_02d (month dt0))
                      ++ chars " Нова ХХХ " ++ format_d (int_of_Decimal a0)
                      ++ chars " №" ++ num ++ chars " Хелп") as Hname
            by (by exists (c :: s), a, dt);
          destruct (path_exists fs name) eqn:Ee; [done|];
          destruct (makedirs_returns fs name) eqn:Em; cbn [negb];
          [destruct (template_opens fs) eqn:Et; cbn [negb]; [done|]|];
          (split; [done|]; right; right; exists name;
           split; [done|]; split; [done|]; auto)
      end.
    + split; [done|]. right. left. exists dt. split; [done|].
      destruct H3 as [H3 _]. specialize (H3 eq_refl). simpl in H3. lia.
  - split; [done|]. right. left. exists dt. split; [done|].
    destruct H2 as [H2 _]. specialize (H2 eq_refl). simpl in H2. lia.
Qed.

Lemma X8_witness :
  valid_date (mkDate 9999 12 28) /\
  process_fields done_directory (Some (chars "123456"))
    (Some (mkDecimal false 0 0)) (Some (mkDate 9999 12 28)) None
  = FolderExists (chars "99-12 Нова ХХХ 0 №123456 Хелп") /\
  let fs := done_directory in
  let case_num := Some (chars "123456") in
  let amount := Some (mkDecimal false 0 0) in
  let doc_date := Some (mkDate 9999 12 28) in
  let all_found :=
    truthy case_num = true /\ amount <> None /\ doc_date <> None in
  let too_many_digits :=
    exists a,
      amount = Some a /\
      (4300 < length (digits (Z.abs_N (int_of_Decimal a))))%nat in
  let last_three_days :=
    exists dt,
      doc_date = Some dt /\ year dt = 9999 /\ month dt = 12 /\ 28 < day dt in
  let names_the_folder (folder_name : str) :=
    exists num a dt,
      case_num = Some num /\ amount = Some a /\ doc_date = Some dt /\
      folder_name
      = (format_02d (year dt mod 100) ++ chars "-" ++ format_02d (month dt))
        ++ chars " Нова ХХХ " ++ format_d (int_of_Decimal a) ++ chars " №"
        ++ num ++ chars " Хелп" in
  match process_fields fs case_num amount doc_date None with
  | Skipped errors => errors <> [] /\ ~ all_found
  | Raised =>
      all_found /\
      (too_many_digits \/ last_three_days \/
       exists folder_name,
         names_the_folder folder_name /\
         path_exists fs folder_name = false /\
         (makedirs_returns fs folder_name = false \/ template_opens fs = false))
  | FolderExists folder_name =>
      all_found /\ ~ too_many_digits /\ ~ last_three_days /\
      names_the_folder folder_name /\ path_exists fs folder_name = true
  | Prepared folder_name _ =>
      all_found /\ ~ too_many_digits /\ ~ last_three_days /\
      names_the_folder folder_name /\
      path_exists fs folder_name = false /\
      makedirs_returns fs folder_name = true /\ template_opens fs = true
  end.
Proof.
  split; [reflexivity|]. split; [reflexivity|].
  intros fs case_num amount doc_date.
  apply (X8_process_file_skips_raises_returns_or_prepares
           fs case_num amount doc_date None).
  by intros dt [= <-].
Defined.

(** ** The placeholders of [process_file] *)

Section Letter.
Implicit Types s : str.

Lemma brace_free_forallb (P : ascii -> bool) s :
  P "{"%char = false -> forallb P s = true -> brace_free s.
Proof.
  intros HP. induction s as [|c s IH]; [done|]. simpl.
  intros [Hc Hs]%andb_true_iff. apply brace_free_cons. split; [|by apply IH].
  apply Ascii.eqb_neq. intros ->. congruence.
Qed.

Lemma brace_free_digits n : brace_free (digits n).
Proof. apply (brace_free_forallb is_digit); [done | apply digits_are_digits]. Qed.

Lemma brace_free_format_d n : brace_free (format_d n).
Proof.
  unfold format_d. apply brace_free_app. split; [|apply brace_free_digits].
  by destruct (n <? 0).
Qed.

Lemma brace_free_repeat (c : ascii) k :
  Ascii.eqb c "{" = false -> brace_free (repeat c k).
Proof.
  intros Hc. induction k as [|k IH]; [done|]. simpl. by apply brace_free_cons.
Qed.

Lemma brace_free_format_02d n : brace_free (format_02d n).
Proof.
  unfold format_02d. apply brace_free_app. split; [by destruct (n <? 0)|].
  apply brace_free_app. split; [by apply brace_free_repeat|].
  apply brace_free_digits.
Qed.

Lemma brace_free_with_thin_space_groups n :
  brace_free (with_thin_space_groups n).
Proof.
  apply (brace_free_forallb is_amount_char); [done|].
  apply with_thin_space_groups_chars.
Qed.

Lemma brace_free_ua_date dt s : ua_date dt = Some s -> brace_free s.
Proof.
  unfold ua_date. destruct (dict_get UA_MONTHS_GEN (month dt)) as [name|] eqn:E;
    [|done].
  apply UA_MONTHS_GEN_names in E as [_ Hname]. intros [= <-].
  repeat (rewrite brace_free_cons || rewrite brace_free_app).
  repeat split;
    first [done | apply brace_free_format_d | apply brace_free_format_02d].
Qed.

(** What [process_file] has when it comes to the placeholders. *)
Lemma process_fields_Prepared fs case_num amount doc_date case_descr
    folder_name placeholders :
  process_fields fs case_num amount doc_date case_descr
  = Prepared folder_name placeholders ->
  exists num a dt plus_2 plus_3 DATE_uA DATE_plus_2 DATE_plus_3,
    case_num = Some num /\ num <> [] /\ amount = Some a /\ doc_date = Some dt /\
    add_days 2 dt = Some plus_2 /\ add_days 3 dt = Some plus_3 /\
    ua_date dt = Some DATE_uA /\ ua_date plus_2 = Some DATE_plus_2 /\
    ua_date plus_3 = Some DATE_plus_3 /\
    folder_name
    = (format_02d (year dt mod 100) ++ chars "-" ++ format_02d (month dt))
      ++ chars " Нова ХХХ " ++ format_d (int_of_Decimal a) ++ chars " №"
      ++ num ++ chars " Хелп" /\
    placeholders
    = [(chars "{{CASE_NUM}}", num);
       (chars "{{FULL_AMOUNT_DEC}}", format_d (int_of_Decimal a));
       (chars "{{FULL_AMOUNT}}",
        with_thin_space_groups (mkDecimal (negative a) (to_cents a) (-2)));
       (chars "{{DATE}}", DATE_uA);
       (chars "{{DATE+2}}", DATE_plus_2);
       (chars "{{DATE + 2}}", DATE_plus_2);
       (chars "{{DATE+3}}", DATE_plus_3);
       (chars "{{DATE + 3}}", DATE_plus_3);
       (chars "{{DATE_MM_ONLY}}", format_02d (month dt));
       (chars "{{CASE_DESCR}}", or_empty case_descr)].
Proof.
  destruct case_num as [[|c s]|], amount as [a|], doc_date as [dt|];
    unfold process_fields; cbn [truthy app]; try done.
  unfold format_d_within_limit.
  destruct (Nat.ltb _ _); [done|].
  rewrite Decimal_of_str_format_2f.
  destruct (ua_date dt) as [d0|] eqn:E0; [|done].
  destruct (add_days 2 dt) as [dt2|] eqn:E2; [|done].
  destruct (add_days 3 dt) as [dt3|] eqn:E3; [|done].
  destruct (ua_date dt2) as [d2|] eqn:F2; [|done].
  destruct (ua_date dt3) as [d3|] eqn:F3; [|done].
  destruct (path_exists fs _); [done|].
  destruct (makedirs_returns fs _); [|done].
  destruct (template_opens fs); [|done]. cbn [negb].
  intros [= <- <-]. by exists (c :: s), a, dt, dt2, dt3, d0, d2, d3.
Qed.

(** Every key of [process_file] has an opening brace; no value has one
    when the case number and the description have none. *)
Lemma process_fields_disciplined fs case_num amount doc_date case_descr
    folder_name placeholders :
  process_fields fs case_num amount doc_date case_descr
  = Prepared folder_name placeholders ->
  brace_free (or_empty case_num) -> brace_free (or_empty case_descr) ->
  disciplined is_brace placeholders /\
  Forall (fun item : str * str => item.1 <> []) placeholders.
Proof.
  intros (num & a & dt & plus_2 & plus_3 & d0 & d2 & d3 & -> & _ & -> & ->
          & _ & _ & H0 & H2 & H3 & _ & ->)%process_fields_Prepared Hnum Hdescr.
  apply brace_free_ua_date in H0, H2, H3.
  pose proof (brace_free_format_d (int_of_Decimal a)).
  pose proof (brace_free_format_02d (month dt)).
  pose proof (brace_free_with_thin_space_groups
                (mkDecimal (negative a) (to_cents a) (-2))).
  split.
  - unfold disciplined.
    repeat (constructor;
            [split; [right; vm_compute; lia | by apply brace_free_stored]|]).
    constructor.
  - repeat (constructor; [done|]). constructor.
Qed.
End Letter.

(** X9: the placeholders that [process_file] builds make
    [replace_placeholders] return for every template, when the case
    number and the description read from the PDF have no opening brace:
    every key has one and no value has, so each replacement takes a
    brace out of the paragraph.  The call then leaves none of the ten
    keys in any paragraph of the body, the tables, the headers and the
    footers. *)
Theorem X9_the_placeholders_of_process_file_end_the_loop
    (fs : FileSystem) (case_num : option str) (amount : option Decimal) (doc_date : option date)
    (case_descr : option str) (folder_name : str) (placeholders : Placeholders)
    (doc : DocumentObject) (fuel : nat) :
  process_fields fs case_num amount doc_date case_descr
  = Prepared folder_name placeholders ->
  brace_free (or_empty case_num) -> brace_free (or_empty case_descr) ->
  Forall (fun p => (markers is_brace (full_text p) < fuel)%nat)
    (document_paragraphs doc) ->
  exists doc',
    replace_placeholders fuel placeholders doc = Some doc' /\
    Forall (fun p =>
              Forall (fun item : str * str => find (full_text p) item.1 = -1)
                placeholders)
      (document_paragraphs doc').
Proof.
  intros Hp Hnum Hdescr Hfuel.
  destruct (process_fields_disciplined _ _ _ _ _ _ _ Hp Hnum Hdescr)
    as [Hd Hkeys].
  destruct (replace_placeholders_is_Some fuel placeholders doc) as [doc' Hdoc].
  { revert Hfuel. apply List.Forall_impl. intros p.
    by apply (loop_terminates is_brace). }
  exists doc'. split; [done|].
  apply replace_placeholders_reach in Hdoc.
  induction Hdoc as [|p p' ps ps' Hloop _ IH]; constructor.
  - apply loop_fixed_point, replace_once_None_clean in Hloop.
    apply List.Forall_forall. intros [key value] Hin. simpl.
    rewrite List.Forall_forall in Hkeys.
    apply (Hloop key value); [by apply list_elem_of_In|].
    apply (Hkeys _ Hin).
  - apply IH. by inversion Hfuel.
Qed.

Lemma X9_witness :
  exists folder_name placeholders doc',
    process_fields fresh_directory (Some (chars "123456"))
      (Some (mkDecimal false 1234567 (-2))) (Some (mkDate 2024 12 30)) None
    = Prepared folder_name placeholders /\
    replace_placeholders 5 placeholders letter_template = Some doc' /\
    Forall (fun p =>
              Forall (fun item : str * str => find (full_text p) item.1 = -1)
                placeholders)
      (document_paragraphs doc').
Proof.
  destruct (process_fields fresh_directory (Some (chars "123456"))
              (Some (mkDecimal false 1234567 (-2)))
              (Some (mkDate 2024 12 30)) None)
    as [| | |folder_name placeholders] eqn:E; [by vm_compute in E..|].
  exists folder_name, placeholders.
  destruct (X9_the_placeholders_of_process_file_end_the_loop
              _ _ _ _ _ _ _ letter_template 5 E) as (doc' & H1 & H2);
    [by vm_compute | by vm_compute | |by exists doc'].
  let l := eval vm_compute in (document_paragraphs letter_template) in
  change (document_paragraphs letter_template) with l.
  constructor; [vm_compute; lia|]. constructor; [vm_compute; lia|]. constructor.
Defined.

(** ** The amount in the name of the folder and in the letter *)

Section Rounding.
Local Open Scope N_scope.

Lemma round_half_even_nearest c p :
  0 < p ->
  2 * round_half_even c p * p <= 2 * c + p /\
  2 * c <= 2 * round_half_even c p * p + p /\
  (2 * round_half_even c p * p = 2 * c + p
   \/ 2 * c = 2 * round_half_even c p * p + p ->
   N.even (round_half_even c p) = true).
Proof.
  intros Hp. unfold round_half_even.
  pose proof (N.div_mod c p ltac:(lia)) as Hc.
  pose proof (N.mod_lt c p ltac:(lia)) as Hr.
  set (k := c / p) in *. set (r := c mod p) in *.
  destruct (N.ltb_spec p (2 * r)) as [H1 | H1]; cbn [orb].
  - split; [nia|]. split; [nia|]. intros [H | H]; nia.
  - destruct (N.eqb_spec (2 * r) p) as [H2 | H2]; cbn [andb].
    + destruct (N.odd k) eqn:Hodd.
      * split; [nia|]. split; [nia|]. intros _.
        rewrite N.add_1_r, N.even_succ. exact Hodd.
      * split; [nia|]. split; [nia|]. intros _.
        rewrite <- N.negb_odd, Hodd. reflexivity.
    + split; [nia|]. split; [nia|]. intros [H | H]; nia.
Qed.

(** [to_cents] rounds to the nearest hundredth, a tie to the even
    one. *)
Lemma to_cents_rounded_to_cents a : rounded_to_cents a (to_cents a).
Proof.
  unfold rounded_to_cents, to_cents.
  destruct (Z.leb_spec (-2) (exponent a)); [reflexivity|].
  apply round_half_even_nearest.
  apply N.neq_0_lt_0, N.pow_nonzero. lia.
Qed.

(** The rounding carries into the whole part just when the part after
    the point is 0.995 at least. *)
Lemma round_half_even_carry c p :
  0 < p ->
  (round_half_even c p / 100 = c / (p * 100)
   \/ round_half_even c p / 100 = c / (p * 100) + 1) /\
  (round_half_even c p / 100 = c / (p * 100) + 1
   <-> 995 * (p * 100) <= 1000 * (c mod (p * 100))).
Proof.
  intros Hp.
  assert (c mod (p * 100) = p * ((c / p) mod 100) + c mod p) as Hmod.
  { rewrite N.Div0.mod_mul_r. lia. }
  rewrite Hmod, <- N.Div0.div_div.
  unfold round_half_even.
  pose proof (N.mod_lt c p ltac:(lia)) as Hr.
  set (k := c / p) in *. set (r := c mod p) in *.
  pose proof (N.div_mod k 100 ltac:(lia)) as Hk.
  pose proof (N.mod_lt k 100 ltac:(lia)) as Hm.
  set (f := k / 100) in *. set (m := k mod 100) in *.
  assert (N.odd k = N.odd m) as Hodd.
  { rewrite Hk. replace (100 * f + m) with (m + 2 * (50 * f)) by lia.
    apply N.odd_add_mul_2. }
  assert ((k + 1) / 100 = if m =? 99 then f + 1 else f) as Hup.
  { destruct (N.eqb_spec m 99) as [E | E].
    - replace (k + 1) with ((f + 1) * 100) by lia. apply N.div_mul. lia.
    - symmetry. apply (N.div_unique (k + 1) 100 f (m + 1)); lia. }
  assert (m = 99 -> N.odd m = true) as H99 by (intros ->; reflexivity).
  destruct (N.eqb_spec m 99) as [E | E].
  - rewrite Hodd, (H99 E), andb_true_r.
    destruct (N.ltb_spec p (2 * r)) as [H1 | H1]; cbn [orb].
    + rewrite Hup. split; [lia|]. nia.
    + destruct (N.eqb_spec (2 * r) p) as [H2 | H2].
      * rewrite Hup. split; [lia|]. nia.
      * split; [lia|]. nia.
  - destruct ((p <? 2 * r) || (2 * r =? p) && N.odd k);
      rewrite ?Hup; (split; [lia|]); nia.
Qed.

Lemma to_cents_rounded neg c : to_cents (mkDecimal neg c (-2)) = c.
Proof. unfold to_cents. simpl. lia. Qed.

(** Only one number of hundredths is the amount rounded. *)
Lemma rounded_to_cents_unique a cents cents' :
  rounded_to_cents a cents -> rounded_to_cents a cents' -> cents = cents'.
Proof.
  unfold rounded_to_cents. destruct (Z.leb_spec (-2) (exponent a)); [congruence|].
  set (p := 10 ^ Z.to_N (-2 - exponent a)). cbv zeta.
  assert (0 < p) as Hp by (apply N.neq_0_lt_0, N.pow_nonzero; lia).
  intros (H1 & H2 & H3) (H1' & H2' & H3').
  destruct (N.lt_trichotomy cents cents') as [Hlt | [-> | Hlt]]; [|done|].
  - assert (cents' = cents + 1) as -> by nia.
    assert (N.even cents = true) as He by (apply H3; nia).
    assert (N.even (cents + 1) = true) as He' by (apply H3'; nia).
    rewrite N.add_1_r, N.even_succ, <- N.negb_even, He in He'. done.
  - assert (cents = cents' + 1) as -> by nia.
    assert (N.even cents' = true) as He by (apply H3'; nia).
    assert (N.even (cents' + 1) = true) as He' by (apply H3; nia).
    rewrite N.add_1_r, N.even_succ, <- N.negb_even, He in He'. done.
Qed.

(** The whole part of an amount that is not negative, and the whole
    part of the amount brought to hundredths: the same, or the next
    number when the rounding carries. *)
Lemma to_cents_whole a :
  negative a = false ->
  exists floor,
    int_of_Decimal a = Z.of_N floor /\
    (to_cents a / 100 = floor \/ to_cents a / 100 = floor + 1) /\
    (to_cents a / 100 = floor + 1 <-> carries a).
Proof.
  intros Hneg. unfold int_of_Decimal, to_cents, carries. rewrite Hneg.
  eexists. split; [done|].
  destruct (Z.leb_spec 0 (exponent a)) as [He | He].
  - destruct (Z.leb_spec (-2) (exponent a)); [|lia].
    replace (Z.to_N (exponent a + 2)) with (Z.to_N (exponent a) + 2) by lia.
    rewrite N.pow_add_r, N.mul_assoc. change (10 ^ 2) with 100.
    rewrite N.div_mul by done. split; [by left|]. split; lia.
  - destruct (Z.leb_spec (-2) (exponent a)) as [He2 | He2].
    + assert (to_cents a / 100 = coefficient a / 10 ^ Z.to_N (- exponent a))
        as Hsame.
      { unfold to_cents. destruct (Z.leb_spec (-2) (exponent a)); [|lia].
        assert (exponent a = (-1)%Z \/ exponent a = (-2)%Z) as [-> | ->] by lia.
        - change (Z.to_N (-1 + 2)) with 1. change (Z.to_N (- -1)) with 1.
          change (10 ^ 1) with 10. change 100 with (10 * 10).
          by rewrite N.Div0.div_mul_cancel_r.
        - change (Z.to_N (-2 + 2)) with 0. change (Z.to_N (- -2)) with 2.
          change (10 ^ 0) with 1. by rewrite N.mul_1_r. }
      unfold to_cents in Hsame.
      destruct (Z.leb_spec (-2) (exponent a)); [|lia].
      rewrite Hsame. split; [by left|]. split; lia.
    + set (p := 10 ^ Z.to_N (-2 - exponent a)).
      assert (0 < p) as Hp by (apply N.neq_0_lt_0, N.pow_nonzero; lia).
      replace (Z.to_N (- exponent a)) with (Z.to_N (-2 - exponent a) + 2) by lia.
      rewrite N.pow_add_r. fold p. change (10 ^ 2) with 100.
      destruct (round_half_even_carry (coefficient a) p Hp) as [H1 H2].
      split; [done|]. rewrite H2. cbv zeta. split; [by intros ? | by intros [_ ?]].
Qed.
End Rounding.

(** X10: for an amount that is not negative, [{{FULL_AMOUNT_DEC}}] and
    the name of the folder have the whole part of the amount, cut off.
    [{{FULL_AMOUNT}}] has the amount rounded to hundredths, to the
    nearest, a tie to the even one ([cents] is the number of
    hundredths): before the point its whole part, in groups of three
    from the point with a space between two groups, and after the point
    the two digits of the hundredths left.  The
    whole part written in the letter is the one in the name of the
    folder, unless the part of the amount after the point is 0.995 at
    least: the rounding then carries, and the letter has the next whole
    number (99.995 gives [99] and [100.00]). *)
Theorem X10_amount_in_folder_name_and_in_letter
    (fs : FileSystem) (case_num : option str) (a : Decimal)
    (doc_date : option date) (case_descr : option str)
    (folder_name : str) (placeholders : Placeholders) :
  process_fields fs case_num (Some a) doc_date case_descr
  = Prepared folder_name placeholders ->
  negative a = false ->
  exists (floor cents : N) (groups fraction yy_mm num : str),
    int_of_Decimal a = Z.of_N floor /\
    case_num = Some num /\
    folder_name
    = yy_mm ++ chars " Нова ХХХ " ++ digits floor ++ chars " №" ++ num
      ++ chars " Хелп" /\
    (chars "{{FULL_AMOUNT_DEC}}", digits floor) ∈ placeholders /\
    rounded_to_cents a cents /\
    (chars "{{FULL_AMOUNT}}", groups ++ "."%char :: fraction) ∈ placeholders /\
    grouped_rev " " (rev groups) /\
    List.filter (fun c => negb (Ascii.eqb c " ")) groups = digits (cents / 100) /\
    length fraction = 2%nat /\ forallb is_digit fraction = true /\
    digits_value fraction = (cents mod 100)%N /\
    (cents / 100 = floor \/ cents / 100 = floor + 1)%N /\
    ((cents / 100 = floor + 1)%N <-> carries a).
Proof.
  intros (num & a' & dt & plus_2 & plus_3 & d0 & d2 & d3 & -> & _ & [= <-] & ->
          & _ & _ & _ & _ & _ & -> & ->)%process_fields_Prepared Hneg.
  destruct (to_cents_whole a Hneg) as (floor & Hfloor & Hcases & Hcarry).
  destruct (frac_part_2f_spec (to_cents a)) as (Hl & Hfrac & Hvalue).
  destruct (with_thin_space_groups_groups
              (mkDecimal (negative a) (to_cents a) (-2)))
    as (groups & Htext & Hgroups & Hdigits).
  rewrite to_cents_rounded in Htext, Hdigits.
  unfold sign_chars in Htext. cbn [negative] in Htext.
  rewrite Hneg in Htext. simpl app in Htext.
  exists floor, (to_cents a), groups, (frac_part_2f (to_cents a)),
    (format_02d (year dt mod 100) ++ chars "-" ++ format_02d (month dt)), num.
  rewrite Hfloor, format_d_nonneg, N2Z.id by lia.
  rewrite <- Htext.
  split; [done|]. split; [done|]. split; [done|].
  split; [apply elem_of_cons; right; apply elem_of_cons; by left|].
  split; [apply to_cents_rounded_to_cents|].
  split; [rewrite Hneg; do 2 (apply elem_of_cons; right);
          apply elem_of_cons; by left|].
  done.
Qed.

Lemma X10_witness :
  exists folder_name placeholders,
    process_fields fresh_directory (Some (chars "123456"))
      (Some (mkDecimal false 99995 (-3))) (Some (mkDate 2024 12 30)) None
    = Prepared folder_name placeholders /\
    (chars "{{FULL_AMOUNT_DEC}}", chars "99") ∈ placeholders /\
    (chars "{{FULL_AMOUNT}}", chars "100.00") ∈ placeholders /\
    exists (floor cents : N) (groups fraction yy_mm num : str),
      int_of_Decimal (mkDecimal false 99995 (-3)) = Z.of_N floor /\
      Some (chars "123456") = Some num /\
      folder_name
      = yy_mm ++ chars " Нова ХХХ " ++ digits floor ++ chars " №" ++ num
        ++ chars " Хелп" /\
      (chars "{{FULL_AMOUNT_DEC}}", digits floor) ∈ placeholders /\
      rounded_to_cents (mkDecimal false 99995 (-3)) cents /\
      (chars "{{FULL_AMOUNT}}", groups ++ "."%char :: fraction) ∈ placeholders /\
      grouped_rev " " (rev groups) /\
      List.filter (fun c => negb (Ascii.eqb c " ")) groups
      = digits (cents / 100) /\
      length fraction = 2%nat /\ forallb is_digit fraction = true /\
      digits_value fraction = (cents mod 100)%N /\
      (cents / 100 = floor \/ cents / 100 = floor + 1)%N /\
      ((cents / 100 = floor + 1)%N <-> carries (mkDecimal false 99995 (-3))).
Proof.
  destruct (process_fields fresh_directory (Some (chars "123456"))
              (Some (mkDecimal false 99995 (-3)))
              (Some (mkDate 2024 12 30)) None)
    as [| | |folder_name placeholders] eqn:E; [by vm_compute in E..|].
  exists folder_name, placeholders. split; [done|].
  pose proof E as E'. vm_compute in E'. injection E' as _ <-.
  split; [do 1 (apply elem_of_cons; right); apply elem_of_cons; by left|].
  split; [do 2 (apply elem_of_cons; right); apply elem_of_cons; by left|].
  by apply (X10_amount_in_folder_name_and_in_letter _ _ _ _ _ _ _ E).
Defined.

(** ** The amount found in the page *)

Section FindAmount.
Implicit Types g s : str.

Lemma split_at_first_strip g :
  split_at_first "." (strip_non_digits g)
  = match split_at_first "." g with
    | Some (before, after) =>
        Some (List.filter is_digit before, strip_non_digits after)
    | None => None
    end.
Proof.
  induction g as [|x g IH]; [done|].
  unfold strip_non_digits in *. simpl.
  destruct (Ascii.eqb_spec x ".") as [-> | Hx]; [done|].
  rewrite orb_false_r. destruct (is_digit x) eqn:Hd; simpl.
  - destruct (Ascii.eqb_spec x "."); [done|]. rewrite IH.
    destruct (split_at_first "." g) as [[before after]|]; [|done].
    simpl. by rewrite Hd.
  - rewrite IH. destruct (split_at_first "." g) as [[before after]|]; [|done].
    simpl. by rewrite Hd.
Qed.

Lemma strip_no_period g :
  split_at_first "." g = None -> strip_non_digits g = List.filter is_digit g.
Proof.
  induction g as [|x g IH]; [done|]. unfold strip_non_digits in *. simpl.
  destruct (Ascii.eqb_spec x ".") as [-> | Hx]; [done|].
  rewrite orb_false_r.
  destruct (split_at_first "." g) as [[before after]|]; [done|].
  intros _. rewrite IH by done. done.
Qed.

Lemma periods_split g :
  periods g
  = match split_at_first "." g with
    | Some (_, after) => S (periods after)
    | None => 0%nat
    end.
Proof.
  induction g as [|x g IH]; [done|]. unfold periods in *. simpl.
  destruct (Ascii.eqb_spec x ".") as [-> | Hx]; [done|].
  rewrite IH. by destruct (split_at_first "." g) as [[before after]|].
Qed.

Lemma filter_digits_split g before after :
  split_at_first "." g = Some (before, after) ->
  List.filter is_digit g = List.filter is_digit before ++ List.filter is_digit after.
Proof.
  revert before. induction g as [|x g IH]; intros before; [done|]. simpl.
  destruct (Ascii.eqb_spec x ".") as [-> | Hx].
  - by intros [= <- <-].
  - destruct (split_at_first "." g) as [[before' after']|]; [|done].
    intros [= <- <-]. simpl. rewrite (IH before') by done.
    by destruct (is_digit x).
Qed.

Lemma forallb_filter {A} (f : A -> bool) (l : list A) :
  forallb f (List.filter f l) = true.
Proof.
  induction l as [|x l IH]; [done|]. simpl.
  destruct (f x) eqn:E; [|done]. simpl. by rewrite E.
Qed.

Lemma split_at_first_In (c : ascii) g before after :
  split_at_first c g = Some (before, after) -> In c g.
Proof.
  revert before. induction g as [|x g IH]; intros before; [done|]. simpl.
  destruct (Ascii.eqb_spec x c) as [-> | Hx]; [by left|].
  destruct (split_at_first c g) as [[before' after']|]; [|done].
  intros [= <- <-]. right. by eapply IH.
Qed.

Lemma strip_digits g :
  forallb is_digit (strip_non_digits g) = Nat.eqb (periods g) 0.
Proof.
  rewrite periods_split.
  destruct (split_at_first "." g) as [[before after]|] eqn:E.
  - apply not_true_is_false. intros H. apply split_at_first_In in E.
    rewrite forallb_forall in H. specialize (H "."%char).
    unfold strip_non_digits in H. rewrite filter_In in H.
    by specialize (H (conj E eq_refl)).
  - rewrite strip_no_period by done. apply forallb_filter.
Qed.

(** What [Decimal] makes of a group that starts with a digit, when all
    but its digits and periods are taken out. *)
Lemma Decimal_of_str_strip g :
  amount_group g ->
  Decimal_of_str (strip_non_digits g)
  = if (periods g <=? 1)%nat then Some (amount_of_group g) else None.
Proof.
  destruct g as [|c g]; [done|]. intros [Hc _].
  assert (strip_non_digits (c :: g) = c :: strip_non_digits g) as Hs
    by (unfold strip_non_digits; simpl; by rewrite Hc).
  unfold Decimal_of_str. rewrite Hs at 1. cbv beta iota.
  rewrite (is_digit_not c "-" Hc eq_refl), (is_digit_not c "+" Hc eq_refl).
  rewrite split_at_first_strip.
  unfold amount_of_group, after_first. rewrite periods_split.
  destruct (split_at_first "." (c :: g)) as [[before after]|] eqn:E.
  - rewrite (filter_digits_split _ _ _ E).
    rewrite forallb_filter, strip_digits. simpl andb.
    destruct (periods after) as [|k] eqn:Hk; simpl Nat.eqb; [|done].
    assert (strip_non_digits after = List.filter is_digit after) as ->.
    { apply strip_no_period. pose proof (periods_split after) as H.
      rewrite Hk in H. by destruct (split_at_first "." after) as [[? ?]|]. }
    assert (List.filter is_digit before <> []) as Hne.
    { revert E. simpl. rewrite (is_digit_not c "." Hc eq_refl).
      destruct (split_at_first "." g) as [[before' after']|]; [|done].
      intros [= <- <-]. simpl. by rewrite Hc. }
    destruct (List.filter is_digit before) as [|d ds]; [done|]. done.
  - rewrite strip_no_period by done. rewrite forallb_filter. simpl.
    rewrite Hc. simpl. by rewrite app_nil_r.
Qed.

End FindAmount.

(** X11: [find_amount] answers with the first candidate that has at
    most one period, the candidates being taken pattern by pattern and
    match by match, and passes over every candidate with two periods
    or more; it answers [None] exactly when every candidate has two
    periods or more.  The amount is not negative: its digits are the
    digits of the candidate, spaces and commas left out, and the
    digits after the period are its fraction. *)
Theorem X11_find_amount_takes_the_first_readable_candidate
    (matches : list (list str)) :
  Forall amount_group (concat matches) ->
  match find_amount matches with
  | None => Forall (fun group => (2 <= periods group)%nat) (concat matches)
  | Some amount =>
      exists before group after,
        concat matches = before ++ group :: after /\
        Forall (fun group' => (2 <= periods group')%nat) before /\
        (periods group <= 1)%nat /\
        amount = amount_of_group group
  end.
Proof.
  unfold find_amount. generalize (concat matches) as groups.
  induction groups as [|g groups IH]; [by constructor|].
  intros HF. inversion HF as [|? ? Hg HF']; subst. simpl.
  rewrite (Decimal_of_str_strip g Hg).
  destruct (Nat.leb_spec (periods g) 1) as [Hle | Hgt].
  - by exists [], g, groups.
  - specialize (IH HF'). destruct (first_amount groups) as [amount|].
    + destruct IH as (before & group & after & -> & Hb & Hp & ->).
      exists (g :: before), group, after. split; [done|].
      split; [constructor; [lia | done] | done].
    + constructor; [lia | done].
Qed.

Lemma X11_witness :
  Forall amount_group (concat [[chars "1.234.56"; chars "1 234,5.60 "]; [chars "7"]]) /\
  find_amount [[chars "1.234.56"; chars "1 234,5.60 "]; [chars "7"]]
  = Some (mkDecimal false 1234560 (-2)) /\
  match find_amount [[chars "1.234.56"; chars "1 234,5.60 "]; [chars "7"]] with
  | None =>
      Forall (fun group => (2 <= periods group)%nat)
        (concat [[chars "1.234.56"; chars "1 234,5.60 "]; [chars "7"]])
  | Some amount =>
      exists before group after,
        concat [[chars "1.234.56"; chars "1 234,5.60 "]; [chars "7"]]
        = before ++ group :: after /\
        Forall (fun group' => (2 <= periods group')%nat) before /\
        (periods group <= 1)%nat /\
        amount = amount_of_group group
  end.
Proof.
  assert (Forall amount_group
            (concat [[chars "1.234.56"; chars "1 234,5.60 "]; [chars "7"]]))
    as HF by (repeat constructor).
  split; [exact HF|]. split; [reflexivity|].
  exact (X11_find_amount_takes_the_first_readable_candidate _ HF).
Defined.
